(** * binprint: fingerprints, digest matchers, hashers, scanners and the
    in-memory store, embedded in Rocq.

    The development follows the Go sources:
    - [hash]    : digests, [DigestMatcher], the git blob hasher;
    - [record]  : [Fingerprint] with [Is], [UpdateWith], [GetDigest],
                  [CalculateSums]; [File], [ArchiveFile], [GitRepoSource];
    - [scanner] : [FingerprintMatcher], [fingerprintArchiveEntry],
                  [fingerprintPassthrough];
    - [store]   : [fingerprintInMemoryCache] and its operations;
    - [cmd]     : the [hash all] command.

    Go pointers are addresses into explicit heaps, one heap per record type;
    a nil-able pointer is an [option]; a panic is the [None] of the outer
    [option] a function returns.  A byte is a [Z] in [0, 256). *)

From Stdlib Require Import ZArith Strings.String Strings.Ascii.
From stdpp Require Import gmap strings list fin_maps pretty.

Open Scope Z_scope.

(* ===================================================================== *)
(** * Part I.  Definitions                                                *)
(* ===================================================================== *)

(** ** package hash: digests *)

(** A finalized checksum ([digest64] ... [digest512] are fixed-width byte
    arrays; the width is carried by the list). *)
Abbreviation digest := (list Z).

(** [d == [len(d)]byte{}] *)
Definition IsZero (d : digest) : bool := forallb (Z.eqb 0) d.

Definition hexdigit (n : Z) : ascii :=
  if n <? 10 then ascii_of_N (Z.to_N (48 + n)) else ascii_of_N (Z.to_N (87 + n)).

(** [hex.EncodeToString]: two lowercase digits per byte. *)
Fixpoint EncodeToString (d : digest) : string :=
  match d with
  | [] => EmptyString
  | b :: d' => String (hexdigit (b / 16)) (String (hexdigit (b mod 16)) (EncodeToString d'))
  end.

(** [fromHexChar] of encoding/hex: both cases are accepted. *)
Definition fromHexChar (c : ascii) : option Z :=
  let n := Z.of_N (N_of_ascii c) in
  if (48 <=? n) && (n <=? 57) then Some (n - 48)
  else if (97 <=? n) && (n <=? 102) then Some (n - 97 + 10)
  else if (65 <=? n) && (n <=? 70) then Some (n - 65 + 10)
  else None.

(** [hex.DecodeString]: [None] is the error (a bad digit or an odd length). *)
Fixpoint DecodeString (s : string) : option digest :=
  match s with
  | EmptyString => Some []
  | String _ EmptyString => None
  | String a (String b s') =>
      match fromHexChar a, fromHexChar b, DecodeString s' with
      | Some x, Some y, Some r => Some (x * 16 + y :: r)
      | _, _, _ => None
      end
  end.

(** [strings.HasPrefix] and [strings.HasSuffix]. *)
Definition HasPrefix (s p : string) : bool := String.prefix p s.

Definition HasSuffix (s suffix : string) : bool :=
  let n := String.length s in
  let k := String.length suffix in
  (k <=? n)%nat && String.eqb (substring (n - k) k s) suffix.

(** [bytes.HasPrefix] *)
Fixpoint bytesHasPrefix (s p : digest) : bool :=
  match p, s with
  | [], _ => true
  | x :: p', y :: s' => (x =? y) && bytesHasPrefix s' p'
  | _ :: _, [] => false
  end.

(** ** package record: cache ids and fingerprints *)

(** [embeddedCacheID]; the Go field [id] is [cache_id] here. *)
Record embeddedCacheID := mkCacheID { cache_id : nat; hasID : bool }.

Definition noCacheID : embeddedCacheID := mkCacheID 0 false.

Record Fingerprint := mkFingerprint {
  GitSHA : digest;
  MD5 : digest;
  SHA1 : digest;
  SHA256 : digest;
  SHA384 : digest;
  SHA512 : digest;
  Hwy64 : digest;
  Hwy128 : digest;
  Hwy256 : digest;
  Size : Z;
  fp_cache : embeddedCacheID
}.

(** The nine digest kinds of a fingerprint. *)
Inductive Kind :=
  KGit | KMD5 | KSHA1 | KSHA256 | KSHA384 | KSHA512 | KHwy64 | KHwy128 | KHwy256.

Definition all_kinds : list Kind :=
  [KGit; KMD5; KSHA1; KSHA256; KSHA384; KSHA512; KHwy64; KHwy128; KHwy256].

Definition digest_of (k : Kind) (f : Fingerprint) : digest :=
  match k with
  | KGit => GitSHA f | KMD5 => MD5 f | KSHA1 => SHA1 f | KSHA256 => SHA256 f
  | KSHA384 => SHA384 f | KSHA512 => SHA512 f | KHwy64 => Hwy64 f
  | KHwy128 => Hwy128 f | KHwy256 => Hwy256 f
  end.

(** The zero value of [Fingerprint] ([new(record.Fingerprint)]). *)
Definition zeroFingerprint : Fingerprint :=
  mkFingerprint (replicate 20 0) (replicate 16 0) (replicate 20 0) (replicate 32 0)
    (replicate 48 0) (replicate 64 0) (replicate 8 0) (replicate 16 0)
    (replicate 32 0) 0 noCacheID.

Definition IsCached (c : embeddedCacheID) : bool := hasID c.
Definition CacheID (c : embeddedCacheID) : nat := cache_id c.

Definition fp_SetCacheID (f : Fingerprint) (i : nat) : Fingerprint :=
  mkFingerprint (GitSHA f) (MD5 f) (SHA1 f) (SHA256 f) (SHA384 f) (SHA512 f)
    (Hwy64 f) (Hwy128 f) (Hwy256 f) (Size f) (mkCacheID i true).

(** [Fingerprint.GetDigest]: [None] is the nil [hash.Digest]. *)
Definition GetDigest (f : Fingerprint) (alg : string) : option digest :=
  if String.eqb alg "git" || String.eqb alg "gitsha" then Some (GitSHA f)
  else if String.eqb alg "sha1" then Some (SHA1 f)
  else if String.eqb alg "sha256" then Some (SHA256 f)
  else if String.eqb alg "sha384" then Some (SHA384 f)
  else if String.eqb alg "sha512" then Some (SHA512 f)
  else if String.eqb alg "hwy64bp" then Some (Hwy64 f)
  else if String.eqb alg "hwy128bp" then Some (Hwy128 f)
  else if String.eqb alg "hwy256bp" then Some (Hwy256 f)
  else None.

Definition digest_eqb (a b : digest) : bool := bool_decide (a = b).

(** The body of [Fingerprint.Is] after the pointer comparison [f == o]:
    the size guard first, then the digests in the order of the source. *)
Definition Is_values (f o : Fingerprint) : bool :=
  if negb (Size f =? 0) && negb (Size o =? 0) && negb (Size f =? Size o) then false
  else if negb (IsZero (GitSHA f)) && digest_eqb (GitSHA f) (GitSHA o) then true
  else if negb (IsZero (MD5 f)) && digest_eqb (MD5 f) (MD5 o) then true
  else if negb (IsZero (Hwy64 f)) && digest_eqb (Hwy64 f) (Hwy64 o) then true
  else if negb (IsZero (Hwy128 f)) && digest_eqb (Hwy128 f) (Hwy128 o) then true
  else if negb (IsZero (Hwy256 f)) && digest_eqb (Hwy256 f) (Hwy256 o) then true
  else if negb (IsZero (SHA1 f)) && digest_eqb (SHA1 f) (SHA1 o) then true
  else if negb (IsZero (SHA256 f)) && digest_eqb (SHA256 f) (SHA256 o) then true
  else if negb (IsZero (SHA384 f)) && digest_eqb (SHA384 f) (SHA384 o) then true
  else if negb (IsZero (SHA512 f)) && digest_eqb (SHA512 f) (SHA512 o) then true
  else false.

(** [Fingerprint.Is], pointer receiver, on two fingerprint pointers into the heap [h]. *)
Definition Fingerprint_Is (h : gmap nat Fingerprint) (p q : nat) : option bool :=
  f ← h !! p;
  o ← h !! q;
  Some (if decide (p = q) then true else Is_values f o).

(** One step of [UpdateWith]: fill digest [k] of [f] from [o] when it is
    missing and differs; the flag tells whether a copy happened. *)
Definition fill (k : Kind) (f o : Fingerprint) : bool :=
  IsZero (digest_of k f) && negb (digest_eqb (digest_of k f) (digest_of k o)).

Definition pick (k : Kind) (f o : Fingerprint) : digest :=
  if fill k f o then digest_of k o else digest_of k f.

(** [Fingerprint.UpdateWith], pointer receiver: the updated receiver and the number of
    copies. *)
Definition UpdateWith (f o : Fingerprint) : Fingerprint * nat :=
  let size_upd := (Size f =? 0) && negb (Size o =? 0) in
  (mkFingerprint (pick KGit f o) (pick KMD5 f o) (pick KSHA1 f o)
     (pick KSHA256 f o) (pick KSHA384 f o) (pick KSHA512 f o)
     (pick KHwy64 f o) (pick KHwy128 f o) (pick KHwy256 f o)
     (if size_upd then Size o else Size f) (fp_cache f),
   ((if size_upd then 1 else 0) +
    length (filter (fun k => fill k f o = true) all_kinds))%nat).

(** ** package hash: the digest matcher *)

(** [DigestMatcher]: [B] is [None] for the nil slice. *)
Record DigestMatcher := mkDigestMatcher {
  P : string;
  T : string;
  B : option digest
}.

(** The alternatives of the first group of [matcherFormat]. *)
Definition matcherTypes : list string :=
  ["*"; "git"; "gitsha"; "sha1"; "sha256"; "sha384"; "sha512"]%string.

(** Cut [s] at its first colon. *)
Fixpoint cut_colon (s : string) : option (string * string) :=
  match s with
  | EmptyString => None
  | String c s' =>
      if Ascii.eqb c ":" then Some (EmptyString, s')
      else match cut_colon s' with
           | Some (a, b) => Some (String c a, b)
           | None => None
           end
  end.

Fixpoint all_hex (s : string) : bool :=
  match s with
  | EmptyString => true
  | String c s' => bool_decide (is_Some (fromHexChar c)) && all_hex s'
  end.

(** [matcherFormat.FindStringSubmatch]: the two groups of
    [^(\*|git|gitsha|sha1|sha256|sha384|sha512):([0-9a-fA-F]+)$].  No
    alternative of the first group holds a colon, so that group ends at the
    first colon of the input. *)
Definition FindStringSubmatch (pat : string) : option (string * string) :=
  match cut_colon pat with
  | Some (t, p) =>
      if existsb (String.eqb t) matcherTypes && negb (String.eqb p "") && all_hex p
      then Some (t, p) else None
  | None => None
  end.

(** [NewDigestMatcher]: [None] is the error "Invalid pattern". *)
Definition NewDigestMatcher (pat : string) : option DigestMatcher :=
  match FindStringSubmatch pat with
  | None => None
  | Some (t, p) => Some (mkDigestMatcher p t (DecodeString p))
  end.

(** [DigestMatcher.Match] against a digest. *)
Definition DigestMatcher_Match (m : DigestMatcher) (hash : digest) : bool :=
  if (length hash <? length (default [] (B m)))%nat then false
  else match B m with
       | Some b => bytesHasPrefix hash b
       | None => HasPrefix (EncodeToString hash) (P m)
       end.

(** ** package scanner: the fingerprint matcher *)

(** [FingerprintMatcher.Match] *)
Definition FingerprintMatcher_Match (m : DigestMatcher) (f : Fingerprint) : bool :=
  if String.eqb (T m) "*" || String.eqb (T m) "" then false
  else match GetDigest f (T m) with
       | Some d => DigestMatcher_Match m d
       | None => false
       end.

(** [FingerprintMatcher.IsExact] *)
Definition IsExact (m : DigestMatcher) : bool := negb (String.eqb (T m) "*").

(** ** package main: the [hash all] command *)

Definition knownAlgorithms : list string :=
  ["md5"; "sha1"; "sha256"; "sha384"; "sha512"; "git"; "hwy64"; "hwy128"; "hwy256"]%string.

Definition newline : string := String (ascii_of_nat 10) EmptyString.

(** The verb [%s] on a [hash.Digest]: its [String()], or the rendering fmt
    gives a nil interface. *)
Definition fmt_s (d : option digest) : string :=
  match d with
  | Some d => EncodeToString d
  | None => "%!s(<nil>)"
  end.

(** One [fmt.Printf("%s:%s  %s\n", alg, GetDigest(alg), path)]. *)
Definition hashAll_line (f : Fingerprint) (path alg : string) : string :=
  (alg ++ ":" ++ fmt_s (GetDigest f alg) ++ "  " ++ path ++ newline)%string.

(** The body of [hashAllCmd.Run]; [identify] stands for
    [scanner.IdentifyFile] followed by the nil checks. *)
Definition hashAllCmd (identify : string -> option Fingerprint) (args : list string)
  : list string :=
  flat_map (fun path =>
    match identify path with
    | None => []
    | Some f => map (hashAll_line f path) knownAlgorithms
    end) args.

(** ** package hash: asynchronous hashers *)

(** The hash functions of the standard and HighwayHash libraries. *)
Record Primitives := mkPrimitives {
  md5sum : list Z -> digest;
  sha1sum : list Z -> digest;
  sha256sum : list Z -> digest;
  sha384sum : list Z -> digest;
  sha512sum : list Z -> digest;
  hwy64sum : list Z -> digest;
  hwy128sum : list Z -> digest;
  hwy256sum : list Z -> digest
}.

Definition bytes_of_string (s : string) : list Z :=
  map (fun c => Z.of_N (N_of_ascii c)) (list_ascii_of_string s).

(** A hasher: its digest type, the declared size (git only), the bytes fed
    to the hash at creation and the bytes written to its pipe. *)
Record AsyncHash := mkAsyncHash {
  h_kind : Kind;
  h_size : Z;
  h_header : list Z;
  h_written : list Z
}.

(** [NewGitShaHasher]: the header is [<type> SP <decimal length> NUL]. *)
Definition NewGitShaHasher (oType : string) (size : Z) : AsyncHash :=
  mkAsyncHash KGit size (bytes_of_string (oType ++ " " ++ pretty size)%string ++ [0]) [].

Definition NewBasicHasher (k : Kind) : AsyncHash := mkAsyncHash k 0 [] [].

Definition Write (h : AsyncHash) (bytes : list Z) : AsyncHash :=
  mkAsyncHash (h_kind h) (h_size h) (h_header h) (h_written h ++ bytes).

(** [bytesHashed]: what [io.Copy] counted on the hasher's pipe. *)
Definition bytesHashed (h : AsyncHash) : Z := Z.of_nat (length (h_written h)).

(** [wrapper.result]: the digest of everything the hash received. *)
Definition result (pr : Primitives) (h : AsyncHash) : digest :=
  let input := h_header h ++ h_written h in
  match h_kind h with
  | KGit => sha1sum pr input | KMD5 => md5sum pr input | KSHA1 => sha1sum pr input
  | KSHA256 => sha256sum pr input | KSHA384 => sha384sum pr input
  | KSHA512 => sha512sum pr input | KHwy64 => hwy64sum pr input
  | KHwy128 => hwy128sum pr input | KHwy256 => hwy256sum pr input
  end.

(** [Done] after [Close]: the typed digest the channel delivers, [None] for
    the nil the git hasher sends when the byte count is not the declared
    size. *)
Definition Done (pr : Primitives) (h : AsyncHash) : option (Kind * digest) :=
  match h_kind h with
  | KGit => if bytesHashed h =? h_size h then Some (KGit, result pr h) else None
  | k => Some (k, result pr h)
  end.

(** ** package record: [CalculateSums] *)

(** The dynamic type of an [io.Reader] value, as far as the scanner tells
    readers apart. *)
Inductive ReaderType :=
  | T_passthroughHasher
  | T_ptr_passthroughHasher
  | T_other (name : string).

(** A non-nil reader: the bytes it delivers and the error that ends the
    stream ([None] for [io.EOF]). *)
Record Reader := mkReader {
  r_type : ReaderType;
  r_bytes : list Z;
  r_err : option string
}.

Definition set_digest (k : Kind) (d : digest) (f : Fingerprint) : Fingerprint :=
  match k with
  | KGit => mkFingerprint d (MD5 f) (SHA1 f) (SHA256 f) (SHA384 f) (SHA512 f) (Hwy64 f) (Hwy128 f) (Hwy256 f) (Size f) (fp_cache f)
  | KMD5 => mkFingerprint (GitSHA f) d (SHA1 f) (SHA256 f) (SHA384 f) (SHA512 f) (Hwy64 f) (Hwy128 f) (Hwy256 f) (Size f) (fp_cache f)
  | KSHA1 => mkFingerprint (GitSHA f) (MD5 f) d (SHA256 f) (SHA384 f) (SHA512 f) (Hwy64 f) (Hwy128 f) (Hwy256 f) (Size f) (fp_cache f)
  | KSHA256 => mkFingerprint (GitSHA f) (MD5 f) (SHA1 f) d (SHA384 f) (SHA512 f) (Hwy64 f) (Hwy128 f) (Hwy256 f) (Size f) (fp_cache f)
  | KSHA384 => mkFingerprint (GitSHA f) (MD5 f) (SHA1 f) (SHA256 f) d (SHA512 f) (Hwy64 f) (Hwy128 f) (Hwy256 f) (Size f) (fp_cache f)
  | KSHA512 => mkFingerprint (GitSHA f) (MD5 f) (SHA1 f) (SHA256 f) (SHA384 f) d (Hwy64 f) (Hwy128 f) (Hwy256 f) (Size f) (fp_cache f)
  | KHwy64 => mkFingerprint (GitSHA f) (MD5 f) (SHA1 f) (SHA256 f) (SHA384 f) (SHA512 f) d (Hwy128 f) (Hwy256 f) (Size f) (fp_cache f)
  | KHwy128 => mkFingerprint (GitSHA f) (MD5 f) (SHA1 f) (SHA256 f) (SHA384 f) (SHA512 f) (Hwy64 f) d (Hwy256 f) (Size f) (fp_cache f)
  | KHwy256 => mkFingerprint (GitSHA f) (MD5 f) (SHA1 f) (SHA256 f) (SHA384 f) (SHA512 f) (Hwy64 f) (Hwy128 f) d (Size f) (fp_cache f)
  end.

Definition set_Size (s : Z) (f : Fingerprint) : Fingerprint :=
  mkFingerprint (GitSHA f) (MD5 f) (SHA1 f) (SHA256 f) (SHA384 f) (SHA512 f)
    (Hwy64 f) (Hwy128 f) (Hwy256 f) s (fp_cache f).

(** The hashers [CalculateSums] creates, in the order of the source. *)
Definition hashers_for (f : Fingerprint) : list AsyncHash :=
  (if IsZero (GitSHA f) && (0 <=? Size f) then [NewGitShaHasher "blob" (Size f)] else [])
  ++ (if IsZero (MD5 f) then [NewBasicHasher KMD5] else [])
  ++ (if IsZero (SHA1 f) then [NewBasicHasher KSHA1] else [])
  ++ (if IsZero (SHA256 f) then [NewBasicHasher KSHA256] else [])
  ++ (if IsZero (SHA384 f) then [NewBasicHasher KSHA384] else [])
  ++ (if IsZero (SHA512 f) then [NewBasicHasher KSHA512] else [])
  ++ (if IsZero (Hwy64 f) then [NewBasicHasher KHwy64] else [])
  ++ (if IsZero (Hwy128 f) then [NewBasicHasher KHwy128] else [])
  ++ (if IsZero (Hwy256 f) then [NewBasicHasher KHwy256] else []).

(** The harvesting loop: in the error state every digest is dropped;
    otherwise the type switch stores the digest, and a nil goes to the
    default case. *)
Definition harvest (pr : Primitives) (err : option string) (f : Fingerprint) (h : AsyncHash)
  : Fingerprint :=
  match err with
  | Some _ => f
  | None => match Done pr h with
            | Some (k, d) => set_digest k d f
            | None => f
            end
  end.

(** [Fingerprint.CalculateSums], pointer receiver: the updated fingerprint
    and the returned error. *)
Definition CalculateSums (pr : Primitives) (f : Fingerprint) (data : Reader) (size : Z)
  : Fingerprint * option string :=
  let f1 := if (Size f =? 0) && negb (size =? 0) then set_Size size f else f in
  let hashers := hashers_for f1 in
  match hashers with
  | [] => (f1, None)
  | _ =>
      let hashers' := map (fun h => Write h (r_bytes data)) hashers in
      (fold_left (harvest pr (r_err data)) hashers' f1, r_err data)
  end.

(** ** package scanner: archive entries *)

(** The keys of [archiveScanners] and of [pkgScanners]. *)
Definition archiveScanners : list string :=
  [".zip"; ".jar"; ".tar"; ".txz"; ".tar.xz"; "tar.sz"; "tar.lzma"; ".tgz";
   ".tar.gz"; ".tar.bz2"; ".tbz2"; ".ar"; ".cpio"]%string.

Definition pkgScanners : list string := [".rpm"; ".deb"]%string.

Definition IsScannableArchive (name : string) : bool :=
  existsb (HasSuffix name) archiveScanners.

Definition IsScannablePackage (name : string) : bool :=
  existsb (HasSuffix name) pkgScanners.

(** Go's [int] on the 64-bit targets of the program. *)
Definition wrap_int (z : Z) : Z := (z + 2 ^ 63) mod 2 ^ 64 - 2 ^ 63.

(** What [fingerprintArchiveEntry] does with an entry: one of the two
    recursive calls, with the depth and limit it passes on, or the plain
    fingerprint of the entry's bytes. *)
Inductive EntryAction :=
  | CallIdentifyArchiveContents (depth limit : Z)
  | CallIdentifyPackageContents (depth limit : Z)
  | FingerprintBlob.

(** The branch structure of [fingerprintArchiveEntry]. *)
Definition fingerprintArchiveEntry (name : string) (depth limit : Z) : EntryAction :=
  let depth := wrap_int (depth + 1) in
  if IsScannableArchive name then CallIdentifyArchiveContents depth limit
  else if IsScannablePackage name then CallIdentifyPackageContents depth limit
  else FingerprintBlob.

(** The arguments [deepScanWorker] starts every scan with. *)
Definition deepScanWorker_depth : Z := 0.
Definition deepScanWorker_limit : Z := 10.

(** ** package record: files, archives, repositories *)

(** [File]: [File_Fingerprint] is the pointer field [Fingerprint]. *)
Record File := mkFile {
  Path : string;
  File_Fingerprint : option nat;
  file_cache : embeddedCacheID
}.

(** [ArchiveFile]: [Archive_File] is the pointer field [File]. *)
Record ArchiveFile := mkArchiveFile {
  Archive_File : option nat;
  Entries : list (option nat);
  archive_cache : embeddedCacheID
}.

(** [GitRepoSource]: [Repo_Files] is the field [Files]. *)
Record GitRepoSource := mkGitRepoSource {
  Commit : digest;
  Tag : string;
  Branch : string;
  URL : string;
  Repo_Files : list (option nat);
  repo_cache : embeddedCacheID
}.

(** [GitRepoSource.URN] *)
Definition URN (r : GitRepoSource) : string :=
  ("urn:x-fp:git:" ++ EncodeToString (Commit r) ++ ":" ++ Branch r ++ ":" ++ Tag r)%string.
#[global] Arguments URN : simpl never.

Record SerializedFingerprint := mkSerializedFingerprint {
  sf_ID : nat;
  sf_Fingerprint : Fingerprint
}.

Record SerializedFile := mkSerializedFile {
  sfile_ID : nat;
  sfile_Path : string;
  sfile_Fingerprint : nat
}.

Record SerializedArchiveFile := mkSerializedArchiveFile {
  sa_ID : nat;
  sa_File : nat;
  sa_Entries : list nat
}.

Record SerializedGitRepo := mkSerializedGitRepo {
  sr_ID : nat;
  sr_Commit : digest;
  sr_Tag : string;
  sr_Branch : string;
  sr_URL : string;
  sr_Files : list nat
}.

(** ** package store *)

(** The Bloom filter in front of the git-sha index: the bit positions a key
    hashes to (fixed when the filter is created) and the bits set so far. *)
Record bloomFilter := mkBloomFilter {
  bf_hash : digest -> list nat;
  bf_bits : gset nat
}.

Definition bloom_Add (b : bloomFilter) (d : digest) : bloomFilter :=
  mkBloomFilter (bf_hash b) (bf_bits b ∪ list_to_set (bf_hash b d)).

Definition bloom_Contains (b : bloomFilter) (d : digest) : bool :=
  forallb (fun i => bool_decide (i ∈ bf_bits b)) (bf_hash b d).

(** [fingerprintInMemoryCache] without its locks; the slices hold
    addresses into the heaps, the stat cache maps a key to the address of a
    fingerprint. *)
Record fingerprintInMemoryCache := mkCache {
  Fingerprints : list nat;
  gitSHAIndex : gmap (list Z) nat;
  gitSHAFilter : bloomFilter;
  Files : list nat;
  GitRepoSources : list nat;
  ArchiveFiles : list nat;
  statCache : gmap string nat
}.

(** The objects behind the pointers, one heap per record type. *)
Record Heap := mkHeap {
  fps : gmap nat Fingerprint;
  files : gmap nat File;
  archives : gmap nat ArchiveFile;
  repos : gmap nat GitRepoSource
}.

(** The state the store operations run in. *)
Record World := mkWorld {
  heap : Heap;
  store : fingerprintInMemoryCache
}.

Record SerializedCache := mkSerializedCache {
  sc_Fingerprints : list SerializedFingerprint;
  sc_Files : list SerializedFile;
  sc_Archives : list SerializedArchiveFile;
  sc_Repos : list SerializedGitRepo;
  sc_StatCache : gmap string nat
}.

(** [newInMemoryCache]; [hashes] is the hashing [bloomfilter.NewOptimal]
    picks. *)
Definition newInMemoryCache (hashes : digest -> list nat) : fingerprintInMemoryCache :=
  mkCache [] ∅ (mkBloomFilter hashes ∅) [] [] [] ∅.

(** Field updates. *)
Definition with_fps (h : gmap nat Fingerprint) (w : World) : World :=
  mkWorld (mkHeap h (files (heap w)) (archives (heap w)) (repos (heap w))) (store w).

Definition with_files (h : gmap nat File) (w : World) : World :=
  mkWorld (mkHeap (fps (heap w)) h (archives (heap w)) (repos (heap w))) (store w).

Definition with_archives (h : gmap nat ArchiveFile) (w : World) : World :=
  mkWorld (mkHeap (fps (heap w)) (files (heap w)) h (repos (heap w))) (store w).

Definition with_repos (h : gmap nat GitRepoSource) (w : World) : World :=
  mkWorld (mkHeap (fps (heap w)) (files (heap w)) (archives (heap w)) h) (store w).

Definition with_store (v : fingerprintInMemoryCache) (w : World) : World :=
  mkWorld (heap w) v.

(** [GetFingerprintByGitSHA]: the Bloom filter first, then the index; the
    inner [None] is nil, the outer one the index-out-of-range panic. *)
Definition GetFingerprintByGitSHA (v : fingerprintInMemoryCache) (gitSHA : digest)
  : option (option nat) :=
  if negb (bloom_Contains (gitSHAFilter v) gitSHA) then Some None
  else match gitSHAIndex v !! gitSHA with
       | Some id => p ← Fingerprints v !! id; Some (Some p)
       | None => Some None
       end.

(** The scan of [PutFingerprint]: the first stored fingerprint [efp] with
    [efp.Is(fp)]. *)
Fixpoint find_Is (h : gmap nat Fingerprint) (l : list nat) (fp : nat) : option (option nat) :=
  match l with
  | [] => Some None
  | efp :: l' =>
      b ← Fingerprint_Is h efp fp;
      if b : bool then Some (Some efp) else find_Is h l' fp
  end.

(** [PutFingerprint] on a non-nil pointer. *)
Definition PutFingerprint (w : World) (fp : nat) : option (nat * World) :=
  f ← fps (heap w) !! fp;
  if IsCached (fp_cache f) then Some (fp, w)
  else
    existing ← GetFingerprintByGitSHA (store w) (GitSHA f);
    existing ← match existing with
               | Some e => Some (Some e)
               | None => find_Is (fps (heap w)) (Fingerprints (store w)) fp
               end;
    match existing with
    | Some e =>
        ef ← fps (heap w) !! e;
        Some (e, with_fps (<[e := (UpdateWith ef f).1]> (fps (heap w))) w)
    | None =>
        let v := store w in
        let id := length (Fingerprints v) in
        Some (fp,
              mkWorld
                (mkHeap (<[fp := fp_SetCacheID f id]> (fps (heap w)))
                   (files (heap w)) (archives (heap w)) (repos (heap w)))
                (mkCache (Fingerprints v ++ [fp]) (<[GitSHA f := id]> (gitSHAIndex v))
                   (bloom_Add (gitSHAFilter v) (GitSHA f)) (Files v)
                   (GitRepoSources v) (ArchiveFiles v) (statCache v)))
    end.

(** The scan of [PutFile]: the first stored file with the same path whose
    fingerprint is the same pointer or an equivalent fingerprint. *)
Fixpoint find_file (h : Heap) (l : list nat) (path : string) (fp : nat)
  : option (option nat) :=
  match l with
  | [] => Some None
  | ex :: l' =>
      existing ← files h !! ex;
      if String.eqb (Path existing) path then
        b ← (if decide (File_Fingerprint existing = Some fp) then Some true
             else q ← File_Fingerprint existing; Fingerprint_Is (fps h) q fp);
        if b : bool then Some (Some ex) else find_file h l' path fp
      else find_file h l' path fp
  end.

(** [PutFile]; the two explicit panics and the nil dereferences are
    [None]. *)
Definition PutFile (w : World) (f : option nat) : option (nat * World) :=
  f ← f;
  fl ← files (heap w) !! f;
  fp ← File_Fingerprint fl;
  if IsCached (file_cache fl) then Some (f, w)
  else
    found ← find_file (heap w) (Files (store w)) (Path fl) fp;
    match found with
    | Some existing => Some (existing, w)
    | None =>
        '(fp', w1) ← PutFingerprint w fp;
        let v := store w1 in
        let id := length (Files v) in
        Some (f,
              mkWorld
                (mkHeap (fps (heap w1))
                   (<[f := mkFile (Path fl) (Some fp') (mkCacheID id true)]> (files (heap w1)))
                   (archives (heap w1)) (repos (heap w1)))
                (mkCache (Fingerprints v) (gitSHAIndex v) (gitSHAFilter v)
                   (Files v ++ [f]) (GitRepoSources v) (ArchiveFiles v) (statCache v)))
    end.

(** [rememberedFiles[i] = v.PutFile(f)] over a slice of files. *)
Fixpoint PutFiles (w : World) (l : list (option nat)) : option (list nat * World) :=
  match l with
  | [] => Some ([], w)
  | f :: l' =>
      '(r, w1) ← PutFile w f;
      '(rs, w2) ← PutFiles w1 l';
      Some (r :: rs, w2)
  end.

(** The scan of [PutArchiveFile] and [GetArchiveFile]: the first stored
    archive whose [File] is the pointer [file]. *)
Fixpoint find_archive (h : gmap nat ArchiveFile) (l : list nat) (file : option nat)
  : option (option nat) :=
  match l with
  | [] => Some None
  | ex :: l' =>
      a ← h !! ex;
      if decide (Archive_File a = file) then Some (Some ex) else find_archive h l' file
  end.

(** [PutArchiveFile] *)
Definition PutArchiveFile (w : World) (r : nat) : option (nat * World) :=
  a ← archives (heap w) !! r;
  '(file, w1) ← PutFile w (Archive_File a);
  let a1 := mkArchiveFile (Some file) (Entries a) (archive_cache a) in
  let w2 := with_archives (<[r := a1]> (archives (heap w1))) w1 in
  found ← find_archive (archives (heap w2)) (ArchiveFiles (store w2)) (Some file);
  match found with
  | Some existing => Some (existing, w2)
  | None =>
      '(rememberedFiles, w3) ← PutFiles w2 (Entries a1);
      let v := store w3 in
      let id := length (ArchiveFiles v) in
      Some (r,
            mkWorld
              (mkHeap (fps (heap w3)) (files (heap w3))
                 (<[r := mkArchiveFile (Some file) (map Some rememberedFiles) (mkCacheID id true)]>
                    (archives (heap w3)))
                 (repos (heap w3)))
              (mkCache (Fingerprints v) (gitSHAIndex v) (gitSHAFilter v) (Files v)
                 (GitRepoSources v) (ArchiveFiles v ++ [r]) (statCache v)))
  end.

(** The scan of [PutGitSource] and [FindGitSourceByURN]. *)
Fixpoint find_repo (h : gmap nat GitRepoSource) (l : list nat) (urn : string)
  : option (option nat) :=
  match l with
  | [] => Some None
  | ex :: l' =>
      g ← h !! ex;
      if String.eqb (URN g) urn then Some (Some ex) else find_repo h l' urn
  end.

(** [PutGitSource] *)
Definition PutGitSource (w : World) (r : nat) : option (nat * World) :=
  g ← repos (heap w) !! r;
  found ← find_repo (repos (heap w)) (GitRepoSources (store w)) (URN g);
  match found with
  | Some existing => Some (existing, w)
  | None =>
      '(rememberedFiles, w1) ← PutFiles w (Repo_Files g);
      let v := store w1 in
      let id := length (GitRepoSources v) in
      Some (r,
            mkWorld
              (mkHeap (fps (heap w1)) (files (heap w1)) (archives (heap w1))
                 (<[r := mkGitRepoSource (Commit g) (Tag g) (Branch g) (URL g)
                           (map Some rememberedFiles) (mkCacheID id true)]> (repos (heap w1))))
              (mkCache (Fingerprints v) (gitSHAIndex v) (gitSHAFilter v) (Files v)
                 (GitRepoSources v ++ [r]) (ArchiveFiles v) (statCache v)))
  end.

(** [for f := range v.Files { if v.Files[f].Fingerprint == fp ... }] *)
Fixpoint files_with (h : gmap nat File) (l : list nat) (fp : nat) : option (list nat) :=
  match l with
  | [] => Some []
  | p :: l' =>
      f ← h !! p;
      ms ← files_with h l' fp;
      Some (if decide (File_Fingerprint f = Some fp) then p :: ms else ms)
  end.

(** [FindFilesWithFingerprint]: the inner [None] is the nil slice. *)
Definition FindFilesWithFingerprint (w : World) (fp : nat) : option (option (list nat)) :=
  f ← fps (heap w) !! fp;
  e ← GetFingerprintByGitSHA (store w) (GitSHA f);
  match e with
  | None => Some None
  | Some fp' => ms ← files_with (files (heap w)) (Files (store w)) fp'; Some (Some ms)
  end.

(** The archives of [l] that list the file pointer [file], once per
    matching entry. *)
Fixpoint archives_listing (h : gmap nat ArchiveFile) (l : list nat) (file : nat)
  : option (list nat) :=
  match l with
  | [] => Some []
  | p :: l' =>
      a ← h !! p;
      rest ← archives_listing h l' file;
      Some (map (fun _ => p) (filter (fun e => e = Some file) (Entries a)) ++ rest)
  end.

Fixpoint direct_archives (h : gmap nat ArchiveFile) (l : list nat) (fs : list nat)
  : option (list nat) :=
  match fs with
  | [] => Some []
  | file :: fs' =>
      ds ← archives_listing h l file;
      rest ← direct_archives h l fs';
      Some (ds ++ rest)
  end.

(** [FindArchiveFilesContainingFingerprint]: direct containment only. *)
Definition FindArchiveFilesContainingFingerprint (w : World) (fp : nat)
  : option (option (list nat)) :=
  fs ← FindFilesWithFingerprint w fp;
  ds ← direct_archives (archives (heap w)) (ArchiveFiles (store w)) (default [] fs);
  Some (Some ds).

(** ** The stat cache *)

Record FileInfo := mkFileInfo {
  fi_Size : Z;
  fi_Ino : Z;
  fi_ModTime : Z
}.

Fixpoint format36 (fuel : nat) (n : Z) (acc : string) : string :=
  match fuel with
  | O => acc
  | S k =>
      let acc' := String (hexdigit (n mod 36)) acc in
      if n / 36 =? 0 then acc' else format36 k (n / 36) acc'
  end.

(** [strconv.FormatUint(n, 36)] and [strconv.FormatInt(n, 36)]; fourteen
    digits are enough for 64 bits. *)
Definition FormatUint36 (n : Z) : string := format36 14 n EmptyString.

Definition FormatInt36 (n : Z) : string :=
  if n <? 0 then ("-" ++ FormatUint36 (- n))%string else FormatUint36 n.

(** [newCachedStatFingerprintKey] *)
Definition newCachedStatFingerprintKey (fileInfo : FileInfo) : string :=
  (FormatInt36 (fi_Size fileInfo) ++ "," ++ FormatUint36 (fi_Ino fileInfo) ++ ","
   ++ FormatInt36 (fi_ModTime fileInfo))%string.

(** [GetStatFingerprint] and [PutStatFingerprint]; the ARC cache is a map,
    its capacity of 2^20 entries is not reached. *)
Definition GetStatFingerprint (v : fingerprintInMemoryCache) (stat : FileInfo) : option nat :=
  statCache v !! newCachedStatFingerprintKey stat.

Definition PutStatFingerprint (w : World) (stat : FileInfo) (fingerprint : nat) : World :=
  let v := store w in
  with_store
    (mkCache (Fingerprints v) (gitSHAIndex v) (gitSHAFilter v) (Files v) (GitRepoSources v)
       (ArchiveFiles v) (<[newCachedStatFingerprintKey stat := fingerprint]> (statCache v)))
    w.

(** ** [Verify] *)

Inductive VerifyError :=
  | IncorrectFingerprintKey (got expected : nat)
  | IncorrectFileKey (path : string) (got expected : nat)
  | IncorrectArchiveKey (got expected : nat)
  | IncorrectRepoKey (got expected : nat).

(** One of the four loops of [Verify]: [ids] are the cache ids behind the
    slice, [None] where the pointer does not lead to an object. *)
Fixpoint verify_ids (mk : nat -> nat -> VerifyError) (id : nat) (ids : list (option nat))
  : option (option VerifyError) :=
  match ids with
  | [] => Some None
  | c :: ids' =>
      c ← c;
      if decide (c = id) then verify_ids mk (S id) ids' else Some (Some (mk c id))
  end.

Fixpoint verify_files (h : gmap nat File) (id : nat) (l : list nat)
  : option (option VerifyError) :=
  match l with
  | [] => Some None
  | p :: l' =>
      f ← h !! p;
      if decide (CacheID (file_cache f) = id) then verify_files h (S id) l'
      else Some (Some (IncorrectFileKey (Path f) (CacheID (file_cache f)) id))
  end.

(** [Verify]: [Some None] is the nil error. *)
Definition Verify (w : World) : option (option VerifyError) :=
  let h := heap w in
  let v := store w in
  r ← verify_ids IncorrectFingerprintKey 0
        (map (fun p => (fun f => CacheID (fp_cache f)) <$> fps h !! p) (Fingerprints v));
  match r with
  | Some e => Some (Some e)
  | None =>
      r ← verify_files (files h) 0 (Files v);
      match r with
      | Some e => Some (Some e)
      | None =>
          r ← verify_ids IncorrectArchiveKey 0
                (map (fun p => (fun a => CacheID (archive_cache a)) <$> archives h !! p)
                   (ArchiveFiles v));
          match r with
          | Some e => Some (Some e)
          | None =>
              verify_ids IncorrectRepoKey 0
                (map (fun p => (fun g => CacheID (repo_cache g)) <$> repos h !! p)
                   (GitRepoSources v))
          end
      end
  end.

(** ** Serialization *)

(** The cache id of the file behind a nil-able pointer. *)
Definition file_id_of (h : Heap) (p : option nat) : option nat :=
  p ← p; f ← files h !! p; Some (CacheID (file_cache f)).

Definition fingerprint_id_of (h : Heap) (p : option nat) : option nat :=
  p ← p; f ← fps h !! p; Some (CacheID (fp_cache f)).
#[global] Arguments file_id_of : simpl never.
#[global] Arguments fingerprint_id_of : simpl never.

(** A [mapM] over the values of a map. *)
Definition map_mapM {A B : Type} (f : A -> option B) (m : gmap string A)
  : option (gmap string B) :=
  map_fold (fun k a acc => acc ← acc; b ← f a; Some (<[k := b]> acc)) (Some ∅) m.

(** The four loops of [NewSerializedCache]: an object (with its position,
    where the id is the position) to its serialized form. *)
Definition ser_fingerprint (h : Heap) (ip : nat * nat) : option SerializedFingerprint :=
  f ← fps h !! ip.2; Some (mkSerializedFingerprint ip.1 f).

Definition ser_file (h : Heap) (p : nat) : option SerializedFile :=
  f ← files h !! p;
  fid ← fingerprint_id_of h (File_Fingerprint f);
  Some (mkSerializedFile (CacheID (file_cache f)) (Path f) fid).

Definition ser_archive (h : Heap) (ip : nat * nat) : option SerializedArchiveFile :=
  a ← archives h !! ip.2;
  file ← file_id_of h (Archive_File a);
  entries ← mapM (file_id_of h) (Entries a);
  Some (mkSerializedArchiveFile ip.1 file entries).

Definition ser_repo (h : Heap) (p : nat) : option SerializedGitRepo :=
  r ← repos h !! p;
  fs ← mapM (file_id_of h) (Repo_Files r);
  Some (mkSerializedGitRepo 0 (Commit r) (Tag r) (Branch r) (URL r) fs).

(** [NewSerializedCache]: pointers become the cache ids of their targets. *)
Definition NewSerializedCache (w : World) : option SerializedCache :=
  let h := heap w in
  let v := store w in
  sfps ← mapM (ser_fingerprint h) (imap pair (Fingerprints v));
  sfiles ← mapM (ser_file h) (Files v);
  sarchives ← mapM (ser_archive h) (imap pair (ArchiveFiles v));
  srepos ← mapM (ser_repo h) (GitRepoSources v);
  sstat ← map_mapM (fun p => fingerprint_id_of h (Some p)) (statCache v);
  Some (mkSerializedCache sfps sfiles sarchives srepos sstat).

(** What the encoders keep of a fingerprint: [embeddedCacheID] has no
    exported field and is tagged [yaml:"-"]. *)
Definition exported (f : Fingerprint) : Fingerprint :=
  mkFingerprint (GitSHA f) (MD5 f) (SHA1 f) (SHA256 f) (SHA384 f) (SHA512 f)
    (Hwy64 f) (Hwy128 f) (Hwy256 f) (Size f) noCacheID.

Definition exported_cache (c : SerializedCache) : SerializedCache :=
  mkSerializedCache
    (map (fun sf => mkSerializedFingerprint (sf_ID sf) (exported (sf_Fingerprint sf)))
       (sc_Fingerprints c))
    (sc_Files c) (sc_Archives c) (sc_Repos c) (sc_StatCache c).

Inductive LoadResult (A : Type) :=
  | LoadPanic
  | LoadError (msg : string)
  | LoadOk (a : A).
Arguments LoadPanic {A}.
Arguments LoadError {A} msg.
Arguments LoadOk {A} a.

(** Step 1 of [loadSerializedCache]: the fingerprint objects, in order. *)
Fixpoint load_fingerprints (id : nat) (l : list SerializedFingerprint)
  : LoadResult (list Fingerprint) :=
  match l with
  | [] => LoadOk []
  | sf :: l' =>
      if decide (id = sf_ID sf) then
        match load_fingerprints (S id) l' with
        | LoadOk r => LoadOk (fp_SetCacheID (sf_Fingerprint sf) id :: r)
        | e => e
        end
      else LoadError "Mismatched fingerprint id"
  end.

(** Step 2: the file objects; [Fps] is [v.Fingerprints]. *)
Fixpoint load_files (Fps : list nat) (id : nat) (l : list SerializedFile)
  : LoadResult (list File) :=
  match l with
  | [] => LoadOk []
  | sf :: l' =>
      if decide (id = sfile_ID sf) then
        match Fps !! sfile_Fingerprint sf with
        | None => LoadPanic
        | Some fp =>
            match load_files Fps (S id) l' with
            | LoadOk r => LoadOk (mkFile (sfile_Path sf) (Some fp) (mkCacheID id true) :: r)
            | e => e
            end
        end
      else LoadError "Mismatched file id"
  end.

(** Step 3: the archive objects; [Fls] is [v.Files]. *)
Fixpoint load_archives (Fls : list nat) (id : nat) (l : list SerializedArchiveFile)
  : LoadResult (list ArchiveFile) :=
  match l with
  | [] => LoadOk []
  | sa :: l' =>
      if decide (id = sa_ID sa) then
        match mapM (fun e => Fls !! e) (sa_Entries sa), Fls !! sa_File sa with
        | Some entries, Some file =>
            match load_archives Fls (S id) l' with
            | LoadOk r =>
                LoadOk (mkArchiveFile (Some file) (map Some entries) (mkCacheID id true) :: r)
            | e => e
            end
        | _, _ => LoadPanic
        end
      else LoadError "Mismatched archive id"
  end.

(** Step 4: the repository objects. *)
Fixpoint load_repos (Fls : list nat) (id : nat) (l : list SerializedGitRepo)
  : LoadResult (list GitRepoSource) :=
  match l with
  | [] => LoadOk []
  | r :: l' =>
      match mapM (fun e => Fls !! e) (sr_Files r) with
      | Some entries =>
          match load_repos Fls (S id) l' with
          | LoadOk rs =>
              LoadOk (mkGitRepoSource (sr_Commit r) (sr_Tag r) (sr_Branch r) (sr_URL r)
                        (map Some entries) (mkCacheID id true) :: rs)
          | e => e
          end
      | None => LoadPanic
      end
  end.

(** [loadSerializedCache] on the store [newInMemoryCache] returns, in a
    process whose heap holds nothing else: the [i]-th object of each kind
    is allocated at address [i].  After an error the half-filled slices are
    not represented. *)
Definition loadSerializedCache (hashes : digest -> list nat) (onDisk : SerializedCache)
  : LoadResult World :=
  match load_fingerprints 0 (sc_Fingerprints onDisk) with
  | LoadPanic => LoadPanic
  | LoadError e => LoadError e
  | LoadOk fobjs =>
      let Fps := seq 0 (length fobjs) in
      match load_files Fps 0 (sc_Files onDisk) with
      | LoadPanic => LoadPanic
      | LoadError e => LoadError e
      | LoadOk flobjs =>
          let Fls := seq 0 (length flobjs) in
          match load_archives Fls 0 (sc_Archives onDisk) with
          | LoadPanic => LoadPanic
          | LoadError e => LoadError e
          | LoadOk aobjs =>
              match load_repos Fls 0 (sc_Repos onDisk) with
              | LoadPanic => LoadPanic
              | LoadError e => LoadError e
              | LoadOk robjs =>
                  match map_mapM (fun id => Fps !! id) (sc_StatCache onDisk) with
                  | None => LoadPanic
                  | Some stat =>
                      LoadOk
                        (mkWorld
                           (mkHeap (map_seq 0 fobjs) (map_seq 0 flobjs) (map_seq 0 aobjs)
                              (map_seq 0 robjs))
                           (mkCache Fps
                              (fold_left (fun ix f => <[GitSHA f := CacheID (fp_cache f)]> ix)
                                 fobjs ∅)
                              (fold_left (fun b f => bloom_Add b (GitSHA f)) fobjs
                                 (mkBloomFilter hashes ∅))
                              Fls (seq 0 (length robjs)) (seq 0 (length aobjs)) stat))
                  end
              end
          end
      end
  end.

(** ** Persistence *)

(** The encoders and decoders the store hands its serialized form to (gob
    inside a Snappy stream, and YAML), over some representation [wire] of
    file contents. *)
Record Codec := mkCodec {
  wire : Type;
  gob_snappy_encode : SerializedCache -> wire;
  gob_snappy_decode : wire -> option SerializedCache;
  yaml_encode : SerializedCache -> wire;
  yaml_decode : wire -> option SerializedCache
}.

(** [PersistRememberedObjects] on the directory [disk]; [can_create] tells
    whether [os.Create] succeeds on a name.  [None] is a panic. *)
Definition PersistRememberedObjects (c : Codec) (can_create : string -> bool)
    (w : World) (disk : gmap string (wire c)) : option (gmap string (wire c)) :=
  r ← Verify w;
  match r with
  | Some _ => Some disk
  | None =>
      onDisk ← NewSerializedCache w;
      if negb (can_create "fingerprint.gob") then Some disk
      else
        let disk1 := <["fingerprint.gob" := gob_snappy_encode c onDisk]> disk in
        if negb (can_create "fingerprint.yaml") then Some disk1
        else Some (<["fingerprint.yaml" := yaml_encode c onDisk]> disk1)
  end.

(** [RestoreRememberedObjects]: the inner [None] is the nil store.  A load
    error is dropped by the source, and [Verify] then dereferences the nil
    entries of the half-filled slices. *)
Definition RestoreRememberedObjects (c : Codec) (useGob : bool) (hashes : digest -> list nat)
    (disk : gmap string (wire c)) : option (option World) :=
  let decoded :=
    if useGob then disk !! "fingerprint.gob" ≫= gob_snappy_decode c
    else disk !! "fingerprint.yaml" ≫= yaml_decode c in
  match decoded with
  | None => Some None
  | Some onDisk =>
      match loadSerializedCache hashes onDisk with
      | LoadPanic => None
      | LoadError _ => None
      | LoadOk w =>
          r ← Verify w;
          match r with
          | Some _ => Some None
          | None => Some (Some w)
          end
      end
  end.

(** ** package scanner: the passthrough tee *)

Inductive PassResult :=
  | PassPanic (msg : string)
  | PassOk (r : Reader) (fpResult : nat) (w : World).

(** [fingerprintPassthrough]: the reader handed back and the fingerprint
    the channel delivers.  Both pipes are closed without an error, so the
    hashing side and the consumer see the bytes followed by [io.EOF]. *)
Definition fingerprintPassthrough (pr : Primitives) (w : World) (r : option Reader)
    (size : Z) (stat : option FileInfo) : PassResult :=
  match r with
  | Some rd =>
      match r_type rd with
      | T_passthroughHasher => PassPanic "nested passthrough hasher!"
      | _ =>
          match stat ≫= GetStatFingerprint (store w) with
          | Some cfp => PassOk rd cfp w
          | None =>
              let readerToHash := mkReader (T_other "*io.PipeReader") (r_bytes rd) None in
              let fp := fresh (dom (fps (heap w))) in
              match CalculateSums pr zeroFingerprint readerToHash size with
              | (_, Some err) => PassPanic err
              | (f, None) =>
                  match PutFingerprint (with_fps (<[fp := f]> (fps (heap w))) w) fp with
                  | None => PassPanic "runtime error"
                  | Some (fp', w1) =>
                      let w2 := match stat with
                                | Some st => PutStatFingerprint w1 st fp'
                                | None => w1
                                end in
                      PassOk (mkReader T_ptr_passthroughHasher (r_bytes rd) None) fp' w2
                  end
              end
          end
      end
  | None => PassPanic "nil reader? seriously?"
  end.

(** ** Reachable states, the id invariant and the graph of a store *)

(** A fresh store over a heap in which nothing has been interned yet. *)
Definition fresh_world (hashes : digest -> list nat) (h : Heap) : World :=
  mkWorld h (newInMemoryCache hashes).

Definition nothing_cached (h : Heap) : Prop :=
  map_Forall (fun _ f => hasID (fp_cache f) = false) (fps h) /\
  map_Forall (fun _ f => hasID (file_cache f) = false) (files h) /\
  map_Forall (fun _ a => hasID (archive_cache a) = false) (archives h) /\
  map_Forall (fun _ r => hasID (repo_cache r) = false) (repos h).

(** The states a fresh store reaches through its put operations, the
    callers allocating new objects and filling in the digests and the size
    of fingerprints ([CalculateSums], [FileFromBlob]) in between.  The stat
    cache is handed references the store returned, as every caller does. *)
Inductive reachable : World -> Prop :=
  | reach_fresh hashes h :
      nothing_cached h -> reachable (fresh_world hashes h)
  | reach_PutFingerprint w fp r w' :
      reachable w -> PutFingerprint w fp = Some (r, w') -> reachable w'
  | reach_PutFile w f r w' :
      reachable w -> PutFile w f = Some (r, w') -> reachable w'
  | reach_PutArchiveFile w a r w' :
      reachable w -> PutArchiveFile w a = Some (r, w') -> reachable w'
  | reach_PutGitSource w g r w' :
      reachable w -> PutGitSource w g = Some (r, w') -> reachable w'
  | reach_PutStatFingerprint w stat fp :
      reachable w -> fp ∈ Fingerprints (store w) ->
      reachable (PutStatFingerprint w stat fp)
  | reach_new_Fingerprint w p f :
      reachable w -> fps (heap w) !! p = None -> hasID (fp_cache f) = false ->
      reachable (with_fps (<[p := f]> (fps (heap w))) w)
  | reach_fill_Fingerprint w p f f' :
      reachable w -> fps (heap w) !! p = Some f -> fp_cache f' = fp_cache f ->
      reachable (with_fps (<[p := f']> (fps (heap w))) w)
  | reach_new_File w p f :
      reachable w -> files (heap w) !! p = None -> hasID (file_cache f) = false ->
      reachable (with_files (<[p := f]> (files (heap w))) w)
  | reach_new_ArchiveFile w p a :
      reachable w -> archives (heap w) !! p = None -> hasID (archive_cache a) = false ->
      reachable (with_archives (<[p := a]> (archives (heap w))) w)
  | reach_new_GitRepoSource w p g :
      reachable w -> repos (heap w) !! p = None -> hasID (repo_cache g) = false ->
      reachable (with_repos (<[p := g]> (repos (heap w))) w).

(** [store[id].cache_id == id] in each of the four slices. *)
Definition ids_consistent (w : World) : Prop :=
  (forall id p, Fingerprints (store w) !! id = Some p ->
     exists f, fps (heap w) !! p = Some f /\ CacheID (fp_cache f) = id) /\
  (forall id p, Files (store w) !! id = Some p ->
     exists f, files (heap w) !! p = Some f /\ CacheID (file_cache f) = id) /\
  (forall id p, ArchiveFiles (store w) !! id = Some p ->
     exists a, archives (heap w) !! p = Some a /\ CacheID (archive_cache a) = id) /\
  (forall id p, GitRepoSources (store w) !! id = Some p ->
     exists r, repos (heap w) !! p = Some r /\ CacheID (repo_cache r) = id).

(** The position of a pointer in a slice. *)
Definition index_of (p : nat) (l : list nat) : option nat :=
  fst <$> list_find (fun q => q = p) l.

Definition index_of_ptr (l : list nat) (p : option nat) : option nat :=
  p ← p; index_of p l.
#[global] Arguments index_of : simpl never.
#[global] Arguments index_of_ptr : simpl never.

(** The id-addressed graph a store denotes, read off the pointers alone:
    node [i] of a kind is the object behind the [i]-th pointer of its
    slice, and an edge goes to the position of its target. *)
Record Graph := mkGraph {
  g_fingerprints : list Fingerprint;
  g_files : list (string * nat);
  g_archives : list (nat * list nat);
  g_repos : list (digest * string * string * string * list nat);
  g_stat : gmap string nat
}.

Definition node_fingerprint (h : Heap) (p : nat) : option Fingerprint :=
  f ← fps h !! p; Some (exported f).

Definition node_file (h : Heap) (v : fingerprintInMemoryCache) (p : nat)
  : option (string * nat) :=
  f ← files h !! p;
  j ← index_of_ptr (Fingerprints v) (File_Fingerprint f);
  Some (Path f, j).

Definition node_archive (h : Heap) (v : fingerprintInMemoryCache) (p : nat)
  : option (nat * list nat) :=
  a ← archives h !! p;
  j ← index_of_ptr (Files v) (Archive_File a);
  es ← mapM (index_of_ptr (Files v)) (Entries a);
  Some (j, es).

Definition node_repo (h : Heap) (v : fingerprintInMemoryCache) (p : nat)
  : option (digest * string * string * string * list nat) :=
  r ← repos h !! p;
  fs ← mapM (index_of_ptr (Files v)) (Repo_Files r);
  Some (Commit r, Tag r, Branch r, URL r, fs).

Definition graph_of (w : World) : option Graph :=
  let h := heap w in
  let v := store w in
  gf ← mapM (node_fingerprint h) (Fingerprints v);
  gl ← mapM (node_file h v) (Files v);
  ga ← mapM (node_archive h v) (ArchiveFiles v);
  gr ← mapM (node_repo h v) (GitRepoSources v);
  gs ← map_mapM (fun p => index_of p (Fingerprints v)) (statCache v);
  Some (mkGraph gf gl ga gr gs).

(** The graph a serialized cache spells out: ids are positions. *)
Definition graph_of_serialized (c : SerializedCache) : Graph :=
  mkGraph
    (map (fun sf => exported (sf_Fingerprint sf)) (sc_Fingerprints c))
    (map (fun sf => (sfile_Path sf, sfile_Fingerprint sf)) (sc_Files c))
    (map (fun sa => (sa_File sa, sa_Entries sa)) (sc_Archives c))
    (map (fun sr => (sr_Commit sr, sr_Tag sr, sr_Branch sr, sr_URL sr, sr_Files sr))
       (sc_Repos c))
    (sc_StatCache c).

(** A serialized cache whose ids are the positions and whose references
    stay inside the lists they point into. *)
Definition serialized_ok (c : SerializedCache) : Prop :=
  (forall i sf, sc_Fingerprints c !! i = Some sf -> sf_ID sf = i) /\
  (forall i sf, sc_Files c !! i = Some sf ->
     sfile_ID sf = i /\ (sfile_Fingerprint sf < length (sc_Fingerprints c))%nat) /\
  (forall i sa, sc_Archives c !! i = Some sa ->
     sa_ID sa = i /\ (sa_File sa < length (sc_Files c))%nat /\
     Forall (fun e => (e < length (sc_Files c))%nat) (sa_Entries sa)) /\
  (forall i sr, sc_Repos c !! i = Some sr ->
     Forall (fun e => (e < length (sc_Files c))%nat) (sr_Files sr)) /\
  (forall k id, sc_StatCache c !! k = Some id -> (id < length (sc_Fingerprints c))%nat).

(** The codec returns what it was given, up to the fields it does not
    encode. *)
Definition codec_roundtrip (c : Codec) : Prop :=
  forall onDisk,
    gob_snappy_decode c (gob_snappy_encode c onDisk) = Some (exported_cache onDisk) /\
    yaml_decode c (yaml_encode c onDisk) = Some (exported_cache onDisk).

(** Two fingerprints share a populated digest of some kind. *)
Definition shares_digest (a b : Fingerprint) : Prop :=
  exists k, IsZero (digest_of k a) = false /\ digest_of k a = digest_of k b.

(** The size guard of [Is]. *)
Definition sizes_compatible (a b : Fingerprint) : Prop :=
  Size a = 0 \/ Size b = 0 \/ Size a = Size b.

(** The equivalence [Is] decides between two distinct fingerprint objects. *)
Definition equivalent (a b : Fingerprint) : Prop :=
  sizes_compatible a b /\ shares_digest a b.

(** The store after the fingerprint [existing] absorbed [f]. *)
Definition merged_into (w : World) (existing : nat) (ef f : Fingerprint) : World :=
  with_fps (<[existing := (UpdateWith ef f).1]> (fps (heap w))) w.

#[global] Instance Kind_eq_dec : EqDecision Kind.
Proof. solve_decision. Defined.

(** The fingerprint [CalculateSums] works on once the size is settled. *)
Definition with_declared_size (f : Fingerprint) (size : Z) : Fingerprint :=
  if (Size f =? 0) && negb (size =? 0) then set_Size size f else f.

(** The digest of kind [k] of the bytes [bytes]. *)
Definition digest_by (pr : Primitives) (k : Kind) (bytes : list Z) : digest :=
  result pr (Write (NewBasicHasher k) bytes).

(** ** The invariant of the store *)

(** A slice of files holds pointers the store has interned. *)
Definition interned_files (v : fingerprintInMemoryCache) (l : list (option nat)) : Prop :=
  Forall (fun e => exists r, e = Some r /\ r ∈ Files v) l.

(** Fingerprints: the object behind slot [i] carries id [i]; an object
    that carries an id sits in the slot of that id; the index points into
    the slice and the Bloom filter admits every indexed key. *)
Definition fps_ok (w : World) : Prop :=
  (forall i p, Fingerprints (store w) !! i = Some p ->
     exists f, fps (heap w) !! p = Some f /\ fp_cache f = mkCacheID i true) /\
  (forall p f, fps (heap w) !! p = Some f -> hasID (fp_cache f) = true ->
     Fingerprints (store w) !! cache_id (fp_cache f) = Some p) /\
  (forall g i, gitSHAIndex (store w) !! g = Some i ->
     (i < length (Fingerprints (store w)))%nat /\
     bloom_Contains (gitSHAFilter (store w)) g = true).

(** Files: as for fingerprints, and the fingerprint of a stored file is a
    stored fingerprint. *)
Definition files_ok (w : World) : Prop :=
  (forall i p, Files (store w) !! i = Some p ->
     exists f q, files (heap w) !! p = Some f /\ file_cache f = mkCacheID i true /\
                 File_Fingerprint f = Some q /\ q ∈ Fingerprints (store w)) /\
  (forall p f, files (heap w) !! p = Some f -> hasID (file_cache f) = true ->
     Files (store w) !! cache_id (file_cache f) = Some p).

Definition archives_ok (w : World) : Prop :=
  forall i p, ArchiveFiles (store w) !! i = Some p ->
    exists a q, archives (heap w) !! p = Some a /\ archive_cache a = mkCacheID i true /\
                Archive_File a = Some q /\ q ∈ Files (store w) /\
                interned_files (store w) (Entries a).

Definition repos_ok (w : World) : Prop :=
  forall i p, GitRepoSources (store w) !! i = Some p ->
    exists g, repos (heap w) !! p = Some g /\ repo_cache g = mkCacheID i true /\
              interned_files (store w) (Repo_Files g).

Definition stat_ok (w : World) : Prop :=
  forall k p, statCache (store w) !! k = Some p -> p ∈ Fingerprints (store w).

Definition Inv (w : World) : Prop :=
  fps_ok w /\ files_ok w /\ archives_ok w /\ repos_ok w /\ stat_ok w.

(** ** Byte strings and hex letters *)

(** The values a Go [byte] takes. *)
Definition is_bytes (d : digest) : Prop := Forall (fun b => 0 <= b < 256) d.

(** An uppercase hex letter, [A] to [F]. *)
Definition is_upper_hex (c : ascii) : bool :=
  let n := Z.of_N (N_of_ascii c) in (65 <=? n) && (n <=? 70).

(** The lowercase form of a hex letter, and of a string of hex digits:
    the digits [hex.EncodeToString] writes. *)
Definition lower_hex (c : ascii) : ascii :=
  if is_upper_hex c then ascii_of_N (N_of_ascii c + 32) else c.

Fixpoint lower_hex_string (s : string) : string :=
  match s with
  | EmptyString => EmptyString
  | String c s' => String (lower_hex c) (lower_hex_string s')
  end.

(** ** The YAML form of a digest *)

(** [marshalYAMLBytesHex]: the YAML form of a digest is its hex string. *)
Definition marshalYAMLBytesHex (d : digest) : string := EncodeToString d.

(** [copy(dst, src)] on byte slices. *)
Definition copy_bytes (dst src : digest) : digest :=
  take (length dst) src ++ drop (length src) dst.

(** [unmarshalYAMLBytesHex] into the array [d], given the string the YAML
    decoder delivers; [None] is the error of [hex.DecodeString]. *)
Definition unmarshalYAMLBytesHex (d : digest) (str : string) : option digest :=
  raw ← DecodeString str; Some (copy_bytes d raw).

(** The size [newInMemoryCache] gives [lru.NewARC]: the number of stat
    records the cache holds before an [Add] of a new key evicts one. *)
Definition statCacheSize : Z := 1024 * 1024.

(** ** Git blob ids *)

(** The git object id of a blob of declared length [n] with content
    [bytes]: the sha1 of the header [blob SP n NUL] followed by the
    content. *)
Definition git_blob_id (pr : Primitives) (n : Z) (bytes : list Z) : digest :=
  sha1sum pr ((bytes_of_string ("blob " ++ pretty n) ++ [0]) ++ bytes).

(** ** Growth of the store *)

(** Every slice of the store [w] is a prefix of the same slice of [w']. *)
Definition grows (w w' : World) : Prop :=
  Fingerprints (store w) `prefix_of` Fingerprints (store w') /\
  Files (store w) `prefix_of` Files (store w') /\
  ArchiveFiles (store w) `prefix_of` ArchiveFiles (store w') /\
  GitRepoSources (store w) `prefix_of` GitRepoSources (store w').

(** One call of a put operation of the store. *)
Inductive put_step (w w' : World) : Prop :=
  | step_PutFingerprint fp r : PutFingerprint w fp = Some (r, w') -> put_step w w'
  | step_PutFile f r : PutFile w f = Some (r, w') -> put_step w w'
  | step_PutArchiveFile a r : PutArchiveFile w a = Some (r, w') -> put_step w w'
  | step_PutGitSource g r : PutGitSource w g = Some (r, w') -> put_step w w'.

(** ** Keys of the stat cache *)

(** The fields of a [syscall.Stat_t] and of a modification time in
    nanoseconds: [int64], [uint64] and [int64]. *)
Definition stat_in_range (s : FileInfo) : Prop :=
  - 2 ^ 63 <= fi_Size s < 2 ^ 63 /\ 0 <= fi_Ino s < 2 ^ 64 /\
  - 2 ^ 63 <= fi_ModTime s < 2 ^ 63.

#[global] Instance FileInfo_eq_dec : EqDecision FileInfo.
Proof. solve_decision. Defined.

(** The value of a base-36 digit, and of a string of such digits read from
    the left. *)
Definition digit36 (c : ascii) : Z :=
  let n := Z.of_N (N_of_ascii c) in if n <=? 57 then n - 48 else n - 87.

Fixpoint val36 (v : Z) (s : string) : Z :=
  match s with
  | EmptyString => v
  | String c s' => val36 (v * 36 + digit36 c) s'
  end.

(** No character of [s] is the separator or the sign of a key. *)
Fixpoint plain36 (s : string) : bool :=
  match s with
  | EmptyString => true
  | String c s' => negb (Ascii.eqb c ",") && negb (Ascii.eqb c "-") && plain36 s'
  end.

(** ** Lookups of files, archives and repositories *)

(** The scan of [GetFileByNameAndGitSHA]: the first stored file with the
    path whose fingerprint has the git-sha; the fingerprint is only
    dereferenced when the path matches. *)
Fixpoint get_file (h : Heap) (l : list nat) (path : string) (gitsha : digest)
  : option (option nat) :=
  match l with
  | [] => Some None
  | ex :: l' =>
      existing ← files h !! ex;
      if String.eqb (Path existing) path then
        q ← File_Fingerprint existing;
        qf ← fps h !! q;
        if digest_eqb (GitSHA qf) gitsha then Some (Some ex) else get_file h l' path gitsha
      else get_file h l' path gitsha
  end.

Definition GetFileByNameAndGitSHA (w : World) (path : string) (rawGitsha : digest)
  : option (option nat) :=
  get_file (heap w) (Files (store w)) path rawGitsha.

(** [GetArchiveFile] on a non-nil file pointer. *)
Definition GetArchiveFile (w : World) (f : nat) : option (option nat) :=
  fl ← files (heap w) !! f;
  f' ← (if IsCached (file_cache fl) then Some (Some f)
        else q ← File_Fingerprint fl;
             qf ← fps (heap w) !! q;
             GetFileByNameAndGitSHA w (Path fl) (GitSHA qf));
  match f' with
  | None => Some None
  | Some f' => find_archive (archives (heap w)) (ArchiveFiles (store w)) (Some f')
  end.

(** [FindGitSourceByURN] *)
Definition FindGitSourceByURN (w : World) (urn : string) : option (option nat) :=
  find_repo (repos (heap w)) (GitRepoSources (store w)) urn.

(** ** Searching by matcher *)

(** The store's [FindMatchingFingerprint]: the first stored fingerprint the
    matcher function accepts. *)
Fixpoint find_matching (h : gmap nat Fingerprint) (l : list nat) (matcher : Fingerprint -> bool)
  : option (option nat) :=
  match l with
  | [] => Some None
  | existing :: l' =>
      f ← h !! existing;
      if matcher f then Some (Some existing) else find_matching h l' matcher
  end.

Definition cache_FindMatchingFingerprint (w : World) (matcher : Fingerprint -> bool)
  : option (option nat) :=
  find_matching (fps (heap w)) (Fingerprints (store w)) matcher.

(** The scanner's [FindMatchingFingerprint]: a git matcher of twenty bytes
    goes through the git-sha index, every other matcher through the scan. *)
Definition FindMatchingFingerprint (w : World) (m : DigestMatcher) : option (option nat) :=
  if (String.eqb (T m) "git" || String.eqb (T m) "gitsha")
     && (length (default [] (B m)) =? 20)%nat
  then GetFingerprintByGitSHA (store w) (default [] (B m))
  else cache_FindMatchingFingerprint w (FingerprintMatcher_Match m).

(** ** package scanner: identifying a file *)

(** [cache.PutFile(&record.File{Path: name, Fingerprint: fp})]: a new file
    record, allocated at a fresh address, is handed to [PutFile]. *)
Definition PutNewFile (w : World) (name : string) (fp : nat) : option (nat * World) :=
  let f := fresh (dom (files (heap w))) in
  PutFile (with_files (<[f := mkFile name (Some fp) noCacheID]> (files (heap w))) w) (Some f).

(** [IdentifyFileWithStat] without the progress bar.  [content] is what
    [os.Open] gives: [None] when the file cannot be opened, which panics.
    The error of [CalculateSums] is dropped by the source. *)
Definition IdentifyFileWithStat (pr : Primitives) (w : World) (fileName : string)
    (stat : FileInfo) (content : option Reader) : option (nat * World) :=
  match GetStatFingerprint (store w) stat with
  | Some cfp =>
      '(fp, w1) ← PutFingerprint w cfp;
      PutNewFile w1 fileName fp
  | None =>
      data ← content;
      let result := fresh (dom (fps (heap w))) in
      let sums := (CalculateSums pr zeroFingerprint data (fi_Size stat)).1 in
      '(fp, w1) ← PutFingerprint (with_fps (<[result := sums]> (fps (heap w))) w) result;
      PutNewFile (PutStatFingerprint w1 stat fp) fileName fp
  end.

(** ** package scanner: the table of archive scanners *)

(** The scanners the table [archiveScanners] maps the extensions to. *)
Inductive archiveScanner :=
  | scanZip
  | scanTar
  | compressedTar (algorithm : string)
  | scanAR
  | scanCPIO.

#[global] Instance archiveScanner_eq_dec : EqDecision archiveScanner.
Proof. solve_decision. Defined.

(** The map [archiveScanners] with its values. *)
Definition archiveScannerTable : list (string * archiveScanner) :=
  [(".zip", scanZip); (".jar", scanZip); (".tar", scanTar);
   (".txz", compressedTar "xz"); (".tar.xz", compressedTar "xz");
   ("tar.sz", compressedTar "snappy"); ("tar.lzma", compressedTar "lzma");
   (".tgz", compressedTar "gzip"); (".tar.gz", compressedTar "gzip");
   (".tar.bz2", compressedTar "bz2"); (".tbz2", compressedTar "bz2");
   (".ar", scanAR); (".cpio", scanCPIO)]%string.

(** [getArchiveScanner]: the scanner of the first extension that is a
    suffix of the name, in the order [order] in which the runtime happens to
    range over the map; [None] is nil. *)
Definition getArchiveScanner (order : list (string * archiveScanner)) (name : string)
  : option archiveScanner :=
  snd <$> find (fun kv => HasSuffix name kv.1) order.

(** ** package scanner: blob entries and padding *)

(** The last branch of [fingerprintArchiveEntry]: an entry that is neither
    an archive nor a package is hashed, and its fingerprint and a new file
    record are put into the store.  The outer [None] is a panic, the inner
    one the nil file returned after a read error. *)
Definition fingerprintBlobEntry (pr : Primitives) (w : World) (name : string) (size : Z)
    (content : Reader) : option (option nat * World) :=
  let fp := fresh (dom (fps (heap w))) in
  let sums := CalculateSums pr zeroFingerprint content size in
  let w0 := with_fps (<[fp := sums.1]> (fps (heap w))) w in
  match sums.2 with
  | Some _ => Some (None, w0)
  | None =>
      '(fp', w1) ← PutFingerprint w0 fp;
      '(r, w2) ← PutNewFile w1 name fp';
      Some (Some r, w2)
  end.

(** [consumeRemainder]: [ioutil.ReadAll] gives the bytes and the reader's
    error, never [io.EOF]; [None] is the nil error. *)
Definition consumeRemainder (rdr : Reader) : option string :=
  match r_err rdr with
  | Some e => Some e
  | None =>
      let remainder := r_bytes rdr in
      if negb (length remainder =? 0)%nat
         && negb (length (filter (fun b : Z => b = 0%Z) remainder) =? length remainder)%nat
      then Some "remainder of buffer was NOT 0 padding"%string
      else None
  end.

(** ** [Fingerprint.String] and the fast path of the git scan *)

(** The name [Fingerprint.String] prints in front of each kind of digest. *)
Definition String_name (k : Kind) : string :=
  match k with
  | KGit => "git" | KMD5 => "md5" | KSHA1 => "sha1" | KSHA256 => "sha256"
  | KSHA384 => "sha384" | KSHA512 => "sha512" | KHwy64 => "hwy64"
  | KHwy128 => "hwy128" | KHwy256 => "hwy256"
  end.

(** One [if !d.IsZero() { hashes = append(hashes, name+":"+d.String()) }]. *)
Definition String_piece (k : Kind) (f : Fingerprint) : list string :=
  if IsZero (digest_of k f) then []
  else [(String_name k ++ ":" ++ EncodeToString (digest_of k f))%string].

(** The slice [hashes] of [Fingerprint.String], in the order of the
    source. *)
Definition String_pieces (f : Fingerprint) : list string :=
  String_piece KGit f ++ String_piece KMD5 f ++ String_piece KSHA1 f
  ++ String_piece KSHA256 f ++ String_piece KSHA384 f ++ String_piece KSHA512 f
  ++ String_piece KHwy64 f ++ String_piece KHwy128 f ++ String_piece KHwy256 f.

(** [strings.Join] *)
Fixpoint Join (elems : list string) (sep : string) : string :=
  match elems with
  | [] => EmptyString
  | [x] => x
  | x :: rest => (x ++ sep ++ Join rest sep)%string
  end.

(** [Fingerprint.String] *)
Definition Fingerprint_String (f : Fingerprint) : string := Join (String_pieces f) " ".

(** [FileFromExistingBlob]: the fast path of the git scan, which reads no
    blob.  The outer [None] is a panic, the inner one the nil file. *)
Definition FileFromExistingBlob (w : World) (name : string) (blobID : digest)
  : option (option nat * World) :=
  existingFingerprint ← GetFingerprintByGitSHA (store w) blobID;
  match existingFingerprint with
  | None => Some (None, w)
  | Some efp =>
      existingFile ← GetFileByNameAndGitSHA w name blobID;
      match existingFile with
      | Some ex => Some (Some ex, w)
      | None => '(r, w') ← PutNewFile w name efp; Some (Some r, w')
      end
  end.

(** ** Sample data *)

Definition sample_sha256 : digest :=
  [159; 134; 208; 129; 136; 76; 125; 101; 154; 47; 234; 160; 197; 90; 208; 21;
   163; 191; 79; 27; 43; 11; 130; 44; 209; 93; 108; 21; 176; 240; 10; 8].

Definition sample_md5 : digest := replicate 16 171.
Definition sample_git : digest := replicate 20 17.
Definition other_git : digest := replicate 20 34.
Definition other_md5 : digest := replicate 16 205.

(** A fingerprint with only some digests populated. *)
Definition partial_fp (git md5 sha256 : digest) (size : Z) : Fingerprint :=
  mkFingerprint git md5 (replicate 20 0) sha256 (replicate 48 0) (replicate 64 0)
    (replicate 8 0) (replicate 16 0) (replicate 32 0) size noCacheID.

Definition no_git : digest := replicate 20 0.
Definition no_md5 : digest := replicate 16 0.
Definition no_sha256 : digest := replicate 32 0.

(** Hash functions for the examples: the digest is the length of the input
    in every byte. *)
Definition sample_primitives : Primitives :=
  let h n := fun (x : list Z) => replicate n (1 + Z.of_nat (length x) mod 255) in
  mkPrimitives (h 16%nat) (h 20%nat) (h 32%nat) (h 48%nat) (h 64%nat) (h 8%nat) (h 16%nat)
    (h 32%nat).

(** A Bloom filter hashing for the examples: two bits per key. *)
Definition sample_hashes (d : digest) : list nat :=
  [Z.to_nat (foldr Z.add 0 d mod 64); Z.to_nat (foldr Z.add 7 d mod 61)].

(** A codec for the examples: the wire form is the serialized cache with
    the fields the encoders skip taken out. *)
Definition sample_codec : Codec :=
  mkCodec SerializedCache exported_cache Some exported_cache Some.

Definition empty_heap : Heap := mkHeap ∅ ∅ ∅ ∅.

(** The state after an operation, or the state before it if it panicked. *)
Definition after {A : Type} (w : World) (r : option (A * World)) : World :=
  match r with
  | Some (_, w') => w'
  | None => w
  end.

(** A heap for the examples.  Fingerprints 0 and 1 are complete enough to
    be told apart; fingerprint 2 has the md5 and sha256 of fingerprint 0
    and no git-sha; fingerprint 3 has the md5 of fingerprint 0, no git-sha
    and another size; fingerprint 4 has no git-sha and shares no digest
    with the others; fingerprint 5 has the git-sha of fingerprint 0 and
    nothing else.  Archive 0 is a.tar with the entry b.txt. *)
Definition sample_heap : Heap :=
  mkHeap
    (<[0%nat := partial_fp sample_git sample_md5 sample_sha256 3]>
       (<[1%nat := partial_fp other_git other_md5 no_sha256 5]>
          (<[2%nat := partial_fp no_git sample_md5 sample_sha256 3]>
             (<[3%nat := partial_fp no_git sample_md5 no_sha256 5]>
                (<[4%nat := partial_fp no_git (replicate 16 99) no_sha256 0]>
                   (<[5%nat := partial_fp sample_git no_md5 no_sha256 0]> ∅))))))
    (<[0%nat := mkFile "a.tar" (Some 0%nat) noCacheID]>
       (<[1%nat := mkFile "b.txt" (Some 1%nat) noCacheID]> ∅))
    (<[0%nat := mkArchiveFile (Some 0%nat) [Some 1%nat] noCacheID]> ∅)
    (<[0%nat := mkGitRepoSource sample_git "v1" "" "" [Some 1%nat] noCacheID]> ∅).

Definition sample_stat : FileInfo := mkFileInfo 3 42 1000.

Definition world0 : World := fresh_world sample_hashes sample_heap.
Definition world1 : World := after world0 (PutArchiveFile world0 0).
Definition world2 : World := after world1 (PutGitSource world1 0).
Definition world3 : World := PutStatFingerprint world2 sample_stat 0.

(** A state [Verify] rejects: slot 0 holds an object with cache id 7. *)
Definition broken_world : World :=
  mkWorld
    (mkHeap (<[5%nat := fp_SetCacheID (partial_fp sample_git sample_md5 sample_sha256 3) 7]> ∅)
       ∅ ∅ ∅)
    (mkCache [5%nat] ∅ (mkBloomFilter sample_hashes ∅) [] [] [] ∅).

(** The store after fingerprint 2 of the sample heap, which has no
    git-sha, was put into the fresh store. *)
Definition world_no_git : World := after world0 (PutFingerprint world0 2).

(** The store after fingerprint 0, which has the md5 of the stored
    fingerprint 2 and a git-sha, was merged into it. *)
Definition world_merged : World := after world_no_git (PutFingerprint world_no_git 0).

(** What [PersistRememberedObjects] writes for the sample store, and the
    store the gob file loads as. *)
Definition sample_disk : gmap string SerializedCache :=
  default ∅ (PersistRememberedObjects sample_codec (fun _ => true) world3 ∅).

Definition sample_onDisk : SerializedCache :=
  default (mkSerializedCache [] [] [] [] ∅) (sample_disk !! "fingerprint.gob"%string).

Definition sample_restored : World :=
  match loadSerializedCache sample_hashes sample_onDisk with
  | LoadOk w => w
  | _ => world0
  end.

(* ===================================================================== *)
(** * Part II.  Theorems                                                  *)
(* ===================================================================== *)

(** ** Fingerprint equivalence *)

Lemma Is_values_size_guard (f o : Fingerprint) :
  Size f <> 0 -> Size o <> 0 -> Size f <> Size o -> Is_values f o = false.
Proof.
  intros Hf Ho Hne. unfold Is_values.
  destruct (Z.eqb_spec (Size f) 0); [contradiction|].
  destruct (Z.eqb_spec (Size o) 0); [contradiction|].
  destruct (Z.eqb_spec (Size f) (Size o)); [contradiction|].
  reflexivity.
Qed.

(** C9: two fingerprints whose sizes are both non-zero and unequal are never
    equivalent under [Is], whatever digests they share. *)
Theorem Is_false_on_size_mismatch (h : gmap nat Fingerprint) (p q : nat) (a b : Fingerprint) :
  h !! p = Some a -> h !! q = Some b ->
  Size a <> 0 -> Size b <> 0 -> Size a <> Size b ->
  Fingerprint_Is h p q = Some false.
Proof.
  intros Hp Hq Ha Hb Hne. unfold Fingerprint_Is.
  rewrite Hp, Hq. simpl.
  destruct (decide (p = q)) as [->|_].
  - rewrite Hp in Hq. injection Hq as ->. contradiction.
  - by rewrite Is_values_size_guard.
Qed.

Lemma Is_false_on_size_mismatch_witness :
  let a := partial_fp sample_git sample_md5 sample_sha256 3 in
  let b := partial_fp sample_git sample_md5 sample_sha256 5 in
  digest_of KMD5 a = digest_of KMD5 b /\ IsZero (digest_of KMD5 a) = false /\
  Fingerprint_Is (<[1%nat := a]> (<[2%nat := b]> ∅)) 1 2 = Some false.
Proof.
  split; [reflexivity|]. split; [reflexivity|].
  apply (Is_false_on_size_mismatch _ 1 2
           (partial_fp sample_git sample_md5 sample_sha256 3)
           (partial_fp sample_git sample_md5 sample_sha256 5));
    [reflexivity | reflexivity | simpl; lia | simpl; lia | simpl; lia].
Defined.

(** ** The [hash all] command *)

(** C8: what [hash all] prints for a fingerprinted file.  The lines of
    sha1, sha256, sha384, sha512 and git carry the hex digest; [GetDigest]
    has no case for "md5", "hwy64", "hwy128" and "hwy256", so their lines
    carry the rendering of a nil digest instead of the computed one. *)
Theorem hashAll_prints_nil_for_four_algorithms (f : Fingerprint) (path : string) :
  hashAllCmd (fun _ => Some f) [path] =
  [ ("md5:%!s(<nil>)  " ++ path ++ newline)%string;
    ("sha1:" ++ EncodeToString (SHA1 f) ++ "  " ++ path ++ newline)%string;
    ("sha256:" ++ EncodeToString (SHA256 f) ++ "  " ++ path ++ newline)%string;
    ("sha384:" ++ EncodeToString (SHA384 f) ++ "  " ++ path ++ newline)%string;
    ("sha512:" ++ EncodeToString (SHA512 f) ++ "  " ++ path ++ newline)%string;
    ("git:" ++ EncodeToString (GitSHA f) ++ "  " ++ path ++ newline)%string;
    ("hwy64:%!s(<nil>)  " ++ path ++ newline)%string;
    ("hwy128:%!s(<nil>)  " ++ path ++ newline)%string;
    ("hwy256:%!s(<nil>)  " ++ path ++ newline)%string ].
Proof. reflexivity. Qed.

(** The md5 line of a file whose MD5 is populated does not show it. *)
Example hashAll_md5_line :
  let f := partial_fp sample_git sample_md5 sample_sha256 3 in
  hashAll_line f "a.txt" "md5" <> ("md5:" ++ EncodeToString (MD5 f) ++ "  a.txt" ++ newline)%string.
Proof. vm_compute. discriminate. Qed.

(** ** Archive entries *)

(** C3: an entry named like an archive or a package is handed to the
    recursive scan at every depth and limit, also when the depth has
    reached the limit: the depth is incremented, the limit is passed on,
    and the two are never compared; such an entry is never fingerprinted as
    a plain blob. *)
Theorem fingerprintArchiveEntry_recurses_at_any_depth (name : string) (depth limit : Z) :
  IsScannableArchive name = true \/ IsScannablePackage name = true ->
  fingerprintArchiveEntry name depth limit <> FingerprintBlob /\
  (fingerprintArchiveEntry name depth limit =
     CallIdentifyArchiveContents (wrap_int (depth + 1)) limit \/
   fingerprintArchiveEntry name depth limit =
     CallIdentifyPackageContents (wrap_int (depth + 1)) limit).
Proof.
  intros H. unfold fingerprintArchiveEntry.
  destruct (IsScannableArchive name) eqn:Ha.
  - split; [discriminate | by left].
  - destruct H as [H|H]; [discriminate|]. rewrite H.
    split; [discriminate | by right].
Qed.

(** The entry inner.zip at depth 10 under the limit 10. *)
Lemma fingerprintArchiveEntry_recurses_at_any_depth_witness :
  10 >= deepScanWorker_limit /\
  fingerprintArchiveEntry "inner.zip" 10 deepScanWorker_limit <> FingerprintBlob /\
  fingerprintArchiveEntry "inner.zip" 10 deepScanWorker_limit =
    CallIdentifyArchiveContents 11 10.
Proof.
  destruct (fingerprintArchiveEntry_recurses_at_any_depth "inner.zip" 10
              deepScanWorker_limit (or_introl eq_refl)) as [Hne _].
  split; [unfold deepScanWorker_limit; lia|]. split; [exact Hne | reflexivity].
Defined.

Example fingerprintArchiveEntry_beyond_limit :
  fingerprintArchiveEntry "inner.zip" deepScanWorker_depth deepScanWorker_limit =
  CallIdentifyArchiveContents 1 10 /\
  fingerprintArchiveEntry "inner.zip" 10 deepScanWorker_limit =
  CallIdentifyArchiveContents 11 10 /\
  fingerprintArchiveEntry "inner.rpm" 25 deepScanWorker_limit =
  CallIdentifyPackageContents 26 10 /\
  fingerprintArchiveEntry "c.txt" 25 deepScanWorker_limit = FingerprintBlob.
Proof. repeat split; reflexivity. Qed.

(** ** The passthrough tee *)

Lemma fingerprintPassthrough_reader_type pr w r size stat r' fp w' :
  fingerprintPassthrough pr w (Some r) size stat = PassOk r' fp w' ->
  r_type r' <> T_passthroughHasher.
Proof.
  unfold fingerprintPassthrough. intros H.
  destruct (r_type r) eqn:Ht; [discriminate| |].
  all: destruct (stat ≫= GetStatFingerprint (store w));
    [injection H as <- _ _; rewrite Ht; discriminate|].
  all: destruct (CalculateSums _ _ _ _) as [f [e|]]; [discriminate|].
  all: destruct (PutFingerprint _ _) as [[fp' w1]|]; [|discriminate].
  all: injection H as <- _ _; discriminate.
Qed.

Lemma CalculateSums_no_error pr f data size :
  r_err data = None -> (CalculateSums pr f data size).2 = None.
Proof.
  intros H. unfold CalculateSums.
  destruct (hashers_for _); simpl; [reflexivity | exact H].
Qed.

(** C7: the nested-wrap check never fires on a reader the tee returned.
    The tee hands out a pointer to [passthroughHasher] (or, on a stat-cache
    hit, the reader it was given), and the check asserts the value type. *)
Theorem nested_passthrough_not_detected pr w r size stat r' fp w' :
  fingerprintPassthrough pr w (Some r) size stat = PassOk r' fp w' ->
  forall pr2 w2 size2 stat2,
    fingerprintPassthrough pr2 w2 (Some r') size2 stat2 <>
    PassPanic "nested passthrough hasher!".
Proof.
  intros H pr2 w2 size2 stat2.
  apply fingerprintPassthrough_reader_type in H.
  unfold fingerprintPassthrough.
  destruct (r_type r') eqn:Ht; [contradiction| |].
  all: destruct (stat2 ≫= GetStatFingerprint (store w2)); [discriminate|].
  all: match goal with
       | |- context [CalculateSums ?a ?b ?c ?d] =>
           pose proof (CalculateSums_no_error a b c d eq_refl) as He;
           destruct (CalculateSums a b c d) as [f [e|]]; [discriminate He|]
       end.
  all: destruct (PutFingerprint _ _) as [[fp' w1]|]; discriminate.
Qed.

(** A tee over a plain reader, and a second tee over the reader the first
    one returned: the second call wraps again. *)
Lemma nested_passthrough_not_detected_witness :
  let r := mkReader (T_other "*os.File") [1; 2; 3] None in
  let w := fresh_world sample_hashes empty_heap in
  exists r' fp w',
    fingerprintPassthrough sample_primitives w (Some r) 3 None = PassOk r' fp w' /\
    r_type r' = T_ptr_passthroughHasher /\
    fingerprintPassthrough sample_primitives w' (Some r') 3 None <>
    PassPanic "nested passthrough hasher!".
Proof.
  intros r w.
  destruct (fingerprintPassthrough sample_primitives w (Some r) 3 None)
    as [msg|r' fp w'] eqn:E; [vm_compute in E; discriminate E|].
  exists r', fp, w'. split; [reflexivity|]. split.
  - vm_compute in E. injection E as <- _ _. reflexivity.
  - exact (nested_passthrough_not_detected sample_primitives w r 3 None r' fp w' E
             sample_primitives w' 3 None).
Defined.

(** ** Digest matchers *)

Lemma cut_colon_sound (s t p : string) :
  cut_colon s = Some (t, p) -> s = (t ++ ":" ++ p)%string.
Proof.
  revert t p. induction s as [|c s IH]; intros t p H; simpl in H; [discriminate|].
  destruct (Ascii.eqb_spec c ":") as [->|_].
  - injection H as <- <-. reflexivity.
  - destruct (cut_colon s) as [[a b]|]; [|discriminate].
    injection H as <- <-. by rewrite (IH a b eq_refl).
Qed.

Lemma matcherTypes_cut (algo hex : string) :
  algo ∈ matcherTypes -> cut_colon (algo ++ ":" ++ hex) = Some (algo, hex).
Proof.
  unfold matcherTypes. intros H.
  repeat (apply elem_of_cons in H as [->|H]; [reflexivity|]).
  by apply elem_of_nil in H.
Qed.

Lemma matcherTypes_existsb (algo : string) :
  existsb (String.eqb algo) matcherTypes = true <-> algo ∈ matcherTypes.
Proof.
  rewrite existsb_exists. split.
  - intros (x & Hin & Heq). apply String.eqb_eq in Heq as ->.
    by apply list_elem_of_In.
  - intros H. exists algo. split; [by apply list_elem_of_In | apply String.eqb_refl].
Qed.

(** The patterns [NewDigestMatcher] accepts. *)
Lemma NewDigestMatcher_accepts (pat : string) :
  is_Some (NewDigestMatcher pat) <->
  exists algo hex, pat = (algo ++ ":" ++ hex)%string /\ algo ∈ matcherTypes /\
                   hex <> EmptyString /\ all_hex hex = true.
Proof.
  unfold NewDigestMatcher, FindStringSubmatch. split.
  - intros [m Hm].
    destruct (cut_colon pat) as [[t p]|] eqn:Hc; [|discriminate].
    destruct (existsb (String.eqb t) matcherTypes) eqn:He; [|discriminate].
    destruct (String.eqb_spec p ""); [discriminate|].
    destruct (all_hex p) eqn:Hh; [|discriminate].
    exists t, p. split; [by apply cut_colon_sound|].
    split; [by apply matcherTypes_existsb|]. done.
  - intros (algo & hex & -> & Halgo & Hne & Hhex).
    rewrite (matcherTypes_cut _ _ Halgo).
    apply matcherTypes_existsb in Halgo. rewrite Halgo.
    destruct (String.eqb_spec hex ""); [contradiction|].
    rewrite Hhex. simpl. eauto.
Qed.

(** C4, as the code has it: [NewDigestMatcher] accepts exactly the patterns
    [<algo>:<hex>] with [algo] one of "*", git, gitsha, sha1, sha256, sha384,
    sha512 and [hex] a non-empty string of hex digits; a matcher whose
    algorithm is "*" matches no fingerprint. *)
Theorem matcher_accepts_and_wildcard_matches_nothing :
  (forall pat,
     is_Some (NewDigestMatcher pat) <->
     exists algo hex, pat = (algo ++ ":" ++ hex)%string /\ algo ∈ matcherTypes /\
                      hex <> EmptyString /\ all_hex hex = true) /\
  (forall p b f, FingerprintMatcher_Match (mkDigestMatcher p "*" b) f = false).
Proof.
  split; [exact NewDigestMatcher_accepts | reflexivity].
Qed.

(** C4 as stated fails: the sha256 of the fingerprint starts with 9f86 and
    is populated, the pattern is accepted, and the matcher built from
    "*:9f86" does not match the fingerprint. *)
Lemma wildcard_does_not_match_sha256_prefix :
  let f := partial_fp no_git no_md5 sample_sha256 4 in
  exists m, NewDigestMatcher "*:9f86" = Some m /\
            IsZero (SHA256 f) = false /\
            DigestMatcher_Match m (SHA256 f) = true /\
            FingerprintMatcher_Match m f = false.
Proof.
  eexists. split; [reflexivity|]. split; [reflexivity|]. split; reflexivity.
Qed.

Example matcher_examples :
  NewDigestMatcher "sha256:9f86" = Some (mkDigestMatcher "9f86" "sha256" (Some [159; 134])) /\
  NewDigestMatcher "git:9f8" = Some (mkDigestMatcher "9f8" "git" None) /\
  NewDigestMatcher "md5:9f86" = None /\
  NewDigestMatcher "sha1:" = None /\
  NewDigestMatcher "sha1:xyz" = None /\
  FingerprintMatcher_Match (mkDigestMatcher "9f86" "sha256" (Some [159; 134]))
    (partial_fp no_git no_md5 sample_sha256 4) = true.
Proof. repeat split; reflexivity. Qed.

(** ** The git hasher and [CalculateSums] *)

Lemma Write_fold_written (h : AsyncHash) (writes : list (list Z)) :
  h_written (fold_left Write writes h) = h_written h ++ concat writes.
Proof.
  revert h. induction writes as [|x xs IH]; intros h; simpl.
  - by rewrite app_nil_r.
  - rewrite IH. simpl. by rewrite <- app_assoc.
Qed.

Lemma Write_fold_kind (h : AsyncHash) (writes : list (list Z)) :
  h_kind (fold_left Write writes h) = h_kind h /\
  h_size (fold_left Write writes h) = h_size h.
Proof.
  revert h. induction writes as [|x xs IH]; intros h; simpl; [done|].
  destruct (IH (Write h x)) as [-> ->]. done.
Qed.

Lemma digest_of_set_digest (k k' : Kind) (d : digest) (f : Fingerprint) :
  digest_of k (set_digest k' d f) = if decide (k = k') then d else digest_of k f.
Proof. destruct k, k'; reflexivity. Qed.

Lemma Done_kind (pr : Primitives) (h : AsyncHash) (k : Kind) (d : digest) :
  Done pr h = Some (k, d) -> k = h_kind h.
Proof.
  unfold Done. destruct (h_kind h); try (intros [= <- _]; reflexivity).
  destruct (bytesHashed h =? h_size h); [intros [= <- _]; reflexivity | discriminate].
Qed.

Lemma harvest_digest_of (pr : Primitives) (k : Kind) (hs : list AsyncHash) (f : Fingerprint) :
  digest_of k (fold_left (harvest pr None) hs f) =
  fold_left (fun d h => if decide (h_kind h = k)
                        then match Done pr h with Some (_, d') => d' | None => d end
                        else d)
    hs (digest_of k f).
Proof.
  revert f. induction hs as [|h hs IH]; intros f; simpl; [reflexivity|].
  rewrite IH. f_equal. unfold harvest.
  destruct (Done pr h) as [[k' d]|] eqn:E.
  - apply Done_kind in E as ->. rewrite digest_of_set_digest.
    destruct (decide (k = h_kind h)) as [->|Hne].
    + by rewrite decide_True.
    + by rewrite decide_False.
  - by destruct (decide (h_kind h = k)).
Qed.

Lemma harvest_Size (pr : Primitives) (err : option string) (hs : list AsyncHash)
    (f : Fingerprint) :
  Size (fold_left (harvest pr err) hs f) = Size f.
Proof.
  revert f. induction hs as [|h hs IH]; intros f; simpl; [reflexivity|].
  rewrite IH. unfold harvest. destruct err; [reflexivity|].
  destruct (Done pr h) as [[k d]|]; [by destruct k | reflexivity].
Qed.

Lemma CalculateSums_fst (pr : Primitives) (f : Fingerprint) (data : Reader) (size : Z) :
  (CalculateSums pr f data size).1 =
  fold_left (harvest pr (r_err data))
    (map (fun h => Write h (r_bytes data)) (hashers_for (with_declared_size f size)))
    (with_declared_size f size).
Proof.
  unfold CalculateSums. fold (with_declared_size f size).
  by destruct (hashers_for (with_declared_size f size)).
Qed.

Lemma with_declared_size_digest (k : Kind) (f : Fingerprint) (size : Z) :
  digest_of k (with_declared_size f size) = digest_of k f.
Proof.
  unfold with_declared_size. destruct (_ && _); [by destruct k | reflexivity].
Qed.

(** The piece of the hasher list one condition contributes. *)
Lemma piece_other (pr : Primitives) (k : Kind) (c : bool) (h : AsyncHash) (bytes : list Z)
    (d : digest) :
  h_kind h <> k ->
  fold_left (fun d h => if decide (h_kind h = k)
                        then match Done pr h with Some (_, d') => d' | None => d end
                        else d)
    (map (fun h => Write h bytes) (if c then [h] else [])) d = d.
Proof. intros Hne. destruct c; simpl; [by rewrite decide_False | reflexivity]. Qed.

Lemma piece_same (pr : Primitives) (k : Kind) (c : bool) (h : AsyncHash) (bytes : list Z)
    (d : digest) :
  h_kind h = k ->
  fold_left (fun d h => if decide (h_kind h = k)
                        then match Done pr h with Some (_, d') => d' | None => d end
                        else d)
    (map (fun h => Write h bytes) (if c then [h] else [])) d =
  if c then match Done pr (Write h bytes) with Some (_, d') => d' | None => d end else d.
Proof. intros He. destruct c; simpl; [by rewrite decide_True | reflexivity]. Qed.

Ltac split_pieces :=
  unfold hashers_for;
  repeat rewrite map_app; repeat rewrite fold_left_app.

Lemma Write_fold_header (h : AsyncHash) (writes : list (list Z)) :
  h_header (fold_left Write writes h) = h_header h.
Proof.
  revert h. induction writes as [|x xs IH]; intros h; simpl; [reflexivity|].
  by rewrite IH.
Qed.

(** What the git hasher delivers: the sha1 of the header followed by all
    the bytes written when their number is the declared one, the nil
    otherwise. *)
Lemma git_hasher_Done_value (pr : Primitives) (oType : string) (n : Z)
    (writes : list (list Z)) :
  Done pr (fold_left Write writes (NewGitShaHasher oType n)) =
  if Z.of_nat (length (concat writes)) =? n
  then Some (KGit, sha1sum pr ((bytes_of_string (oType ++ " " ++ pretty n) ++ [0])
                                 ++ concat writes))
  else None.
Proof.
  unfold Done, bytesHashed, result.
  destruct (Write_fold_kind (NewGitShaHasher oType n) writes) as [-> ->].
  rewrite Write_fold_written, Write_fold_header. reflexivity.
Qed.

Lemma harvest_error (pr : Primitives) (e : string) (hs : list AsyncHash) (f : Fingerprint) :
  fold_left (harvest pr (Some e)) hs f = f.
Proof. induction hs as [|h hs IH]; simpl; [reflexivity | exact IH]. Qed.

(** In the error state the harvesting loop drops every digest. *)
Lemma CalculateSums_failed_reader (pr : Primitives) (f : Fingerprint) (data : Reader)
    (size : Z) (e : string) (k : Kind) :
  r_err data = Some e ->
  digest_of k (CalculateSums pr f data size).1 = digest_of k f.
Proof.
  intros He. rewrite CalculateSums_fst, He, harvest_error.
  apply with_declared_size_digest.
Qed.

(** The git-sha is left as it was when the git hasher was not fed the
    declared number of bytes, whether the reader failed or not. *)
Lemma CalculateSums_mismatch_git (pr : Primitives) (f : Fingerprint) (data : Reader)
    (size : Z) :
  Z.of_nat (length (r_bytes data)) <> Size (CalculateSums pr f data size).1 ->
  GitSHA (CalculateSums pr f data size).1 = GitSHA f.
Proof.
  intros Hlen. destruct (r_err data) as [e|] eqn:Herr.
  - exact (CalculateSums_failed_reader pr f data size e KGit Herr).
  - rewrite CalculateSums_fst in *. rewrite Herr in *.
    rewrite harvest_Size in Hlen.
    set (g := with_declared_size f size) in *.
    change (digest_of KGit (fold_left (harvest pr None)
              (map (fun h => Write h (r_bytes data)) (hashers_for g)) g) = digest_of KGit f).
    rewrite harvest_digest_of. split_pieces.
    repeat (rewrite piece_other by discriminate).
    rewrite piece_same by reflexivity.
    replace (digest_of KGit g) with (digest_of KGit f)
      by (symmetry; apply with_declared_size_digest).
    destruct (_ && _); [|reflexivity].
    unfold Done, bytesHashed. simpl.
    destruct (Z.eqb_spec (Z.of_nat (length (r_bytes data))) (Size g)); [contradiction|].
    reflexivity.
Qed.

(** C6, amended: the git hasher delivers a digest exactly when the bytes
    written add up to the declared length, and that digest is the sha1 of
    the header [<type> SP <length> NUL] followed by the bytes written;
    otherwise it delivers the nil.  When the bytes read by [CalculateSums]
    are not as many as the size of the fingerprint, the git-sha is left as
    it was (zero if it was zero); every other missing digest is stored if
    the reader ended without an error, and no digest at all is stored if
    the reader failed. *)
Theorem git_sha_only_for_declared_length :
  (forall pr oType n writes,
     Done pr (fold_left Write writes (NewGitShaHasher oType n)) =
     (if Z.of_nat (length (concat writes)) =? n
      then Some (KGit, sha1sum pr ((bytes_of_string (oType ++ " " ++ pretty n) ++ [0])
                                     ++ concat writes))
      else None) /\
     (is_Some (Done pr (fold_left Write writes (NewGitShaHasher oType n))) <->
      Z.of_nat (length (concat writes)) = n)) /\
  (forall pr f data size,
     Z.of_nat (length (r_bytes data)) <> Size (CalculateSums pr f data size).1 ->
     GitSHA (CalculateSums pr f data size).1 = GitSHA f /\
     (IsZero (GitSHA f) = true -> IsZero (GitSHA (CalculateSums pr f data size).1) = true) /\
     (r_err data = None ->
      (CalculateSums pr f data size).2 = None /\
      forall k, k <> KGit ->
        digest_of k (CalculateSums pr f data size).1 =
        if IsZero (digest_of k f) then digest_by pr k (r_bytes data) else digest_of k f) /\
     (forall e, r_err data = Some e ->
      forall k, digest_of k (CalculateSums pr f data size).1 = digest_of k f)).
Proof.
  split.
  - intros pr oType n writes. rewrite git_hasher_Done_value.
    split; [reflexivity|].
    destruct (Z.eqb_spec (Z.of_nat (length (concat writes))) n) as [E|E].
    + split; [done | eauto].
    + split; [intros [x Hx]; discriminate | intros; contradiction].
  - intros pr f data size Hlen.
    pose proof (CalculateSums_mismatch_git pr f data size Hlen) as Hgit.
    split; [exact Hgit|]. split; [by rewrite Hgit|]. split.
    + intros Herr.
      split; [by apply CalculateSums_no_error|].
      rewrite CalculateSums_fst. rewrite Herr.
      set (g := with_declared_size f size).
      assert (Hd : forall k, digest_of k g = digest_of k f)
        by (intros k; apply with_declared_size_digest).
      intros k Hk. rewrite harvest_digest_of.
      pose proof (Hd KMD5) as H1. pose proof (Hd KSHA1) as H2. pose proof (Hd KSHA256) as H3.
      pose proof (Hd KSHA384) as H4. pose proof (Hd KSHA512) as H5. pose proof (Hd KHwy64) as H6.
      pose proof (Hd KHwy128) as H7. pose proof (Hd KHwy256) as H8.
      simpl in H1, H2, H3, H4, H5, H6, H7, H8.
      destruct k; [contradiction|..]; split_pieces;
        rewrite ?H1, ?H2, ?H3, ?H4, ?H5, ?H6, ?H7, ?H8;
        repeat first [rewrite piece_other by discriminate | rewrite piece_same by reflexivity];
        rewrite Hd; simpl; reflexivity.
    + intros e Herr k. by apply CalculateSums_failed_reader with (e := e).
Qed.

(** Five bytes behind a declared size of three: the md5 is stored, the
    git-sha stays zero; with three bytes written the git hasher delivers
    the sha1 of the header and the bytes; a reader that fails after three
    of five declared bytes leaves the fingerprint without any digest. *)
Lemma git_sha_only_for_declared_length_witness :
  let data := mkReader (T_other "*os.File") [1; 2; 3; 4; 5] None in
  let f' := (CalculateSums sample_primitives zeroFingerprint data 3).1 in
  let bad := mkReader (T_other "*os.File") [1; 2; 3] (Some "unexpected EOF"%string) in
  let g' := (CalculateSums sample_primitives zeroFingerprint bad 5).1 in
  Size f' = 3 /\ IsZero (GitSHA f') = true /\ MD5 f' = replicate 16 6 /\
  Done sample_primitives (fold_left Write [[1; 2]; [3]] (NewGitShaHasher "blob" 3)) =
    Some (KGit, git_blob_id sample_primitives 3 [1; 2; 3]) /\
  Done sample_primitives (fold_left Write [[1; 2]; [3]] (NewGitShaHasher "blob" 5)) = None /\
  IsZero (GitSHA g') = true /\ IsZero (MD5 g') = true.
Proof.
  intros data f' bad g'.
  destruct git_sha_only_for_declared_length as [Hdone Hsums].
  destruct (Hsums sample_primitives zeroFingerprint data 3) as (_ & Hgit & Hrest & _);
    [vm_compute; discriminate |].
  destruct (Hsums sample_primitives zeroFingerprint bad 5) as (_ & Hgit' & _ & Hbad);
    [vm_compute; discriminate |].
  split; [reflexivity|]. split; [exact (Hgit eq_refl)|].
  split; [exact (proj2 (Hrest eq_refl) KMD5 ltac:(discriminate))|].
  split; [exact (proj1 (Hdone sample_primitives "blob"%string 3 [[1; 2]; [3]]))|].
  split; [exact (proj1 (Hdone sample_primitives "blob"%string 5 [[1; 2]; [3]]))|].
  split; [exact (Hgit' eq_refl)|].
  change (IsZero (digest_of KMD5 g') = true).
  unfold g'. by rewrite (Hbad "unexpected EOF"%string eq_refl KMD5).
Defined.

(** C6 as stated fails: behind a declared length of five the reader
    delivers three bytes and then fails; the git-sha stays zero, but the
    other digests are not kept either: the md5 and the sha256 of the bytes
    read are dropped, and the error of the reader is returned. *)
Lemma failing_reader_keeps_no_digest :
  let data := mkReader (T_other "*os.File") [1; 2; 3] (Some "unexpected EOF"%string) in
  let r := CalculateSums sample_primitives zeroFingerprint data 5 in
  Z.of_nat (length (r_bytes data)) <> Size r.1 /\
  Done sample_primitives (Write (NewGitShaHasher "blob" 5) (r_bytes data)) = None /\
  IsZero (GitSHA r.1) = true /\
  IsZero (digest_by sample_primitives KMD5 (r_bytes data)) = false /\
  IsZero (digest_by sample_primitives KSHA256 (r_bytes data)) = false /\
  IsZero (MD5 r.1) = true /\ IsZero (SHA256 r.1) = true /\
  r.2 = Some "unexpected EOF"%string.
Proof.
  vm_compute. split; [discriminate|]. repeat split; reflexivity.
Qed.

(** ** The store: lookups and scans *)

Lemma GetFingerprintByGitSHA_Some (v : fingerprintInMemoryCache) (g : digest) (e : nat) :
  GetFingerprintByGitSHA v g = Some (Some e) ->
  exists i, gitSHAIndex v !! g = Some i /\ Fingerprints v !! i = Some e.
Proof.
  unfold GetFingerprintByGitSHA.
  destruct (negb _); [discriminate|].
  destruct (gitSHAIndex v !! g) as [i|]; [|discriminate].
  destruct (Fingerprints v !! i) as [p|] eqn:Hp; simpl; [|discriminate].
  intros [= <-]. eauto.
Qed.

Lemma GetFingerprintByGitSHA_unindexed (v : fingerprintInMemoryCache) (g : digest) :
  gitSHAIndex v !! g = None -> GetFingerprintByGitSHA v g = Some None.
Proof.
  intros H. unfold GetFingerprintByGitSHA. rewrite H. by destruct (negb _).
Qed.

Lemma GetFingerprintByGitSHA_indexed (v : fingerprintInMemoryCache) (g : digest) (i e : nat) :
  bloom_Contains (gitSHAFilter v) g = true ->
  gitSHAIndex v !! g = Some i -> Fingerprints v !! i = Some e ->
  GetFingerprintByGitSHA v g = Some (Some e).
Proof.
  intros Hb Hi He. unfold GetFingerprintByGitSHA. by rewrite Hb, Hi, He.
Qed.

Lemma find_Is_Some (h : gmap nat Fingerprint) (l : list nat) (fp e : nat) :
  find_Is h l fp = Some (Some e) <->
  exists l1 l2, l = l1 ++ e :: l2 /\ Fingerprint_Is h e fp = Some true /\
                Forall (fun x => Fingerprint_Is h x fp = Some false) l1.
Proof.
  induction l as [|x l IH]; simpl.
  - split; [discriminate|]. intros (l1 & l2 & H & _). by destruct l1.
  - destruct (Fingerprint_Is h x fp) as [[|]|] eqn:Hx; simpl.
    + split.
      * intros [= <-]. exists [], l. by repeat split.
      * intros (l1 & l2 & Hl & He & Hall). destruct l1 as [|y l1]; simpl in Hl.
        -- by injection Hl as ->.
        -- injection Hl as -> ->. apply Forall_cons in Hall as [Hy _]. congruence.
    + rewrite IH. split.
      * intros (l1 & l2 & -> & He & Hall). exists (x :: l1), l2.
        repeat split; [done|]. by constructor.
      * intros (l1 & l2 & Hl & He & Hall). destruct l1 as [|y l1]; simpl in Hl.
        -- injection Hl as -> ->. congruence.
        -- injection Hl as -> ->. apply Forall_cons in Hall as [_ Hall]. eauto.
    + split; [discriminate|].
      intros (l1 & l2 & Hl & He & Hall). destruct l1 as [|y l1]; simpl in Hl.
      * injection Hl as -> ->. congruence.
      * injection Hl as -> ->. apply Forall_cons in Hall as [Hy _]. congruence.
Qed.

Lemma find_Is_None (h : gmap nat Fingerprint) (l : list nat) (fp : nat) :
  find_Is h l fp = Some None <-> Forall (fun x => Fingerprint_Is h x fp = Some false) l.
Proof.
  induction l as [|x l IH]; simpl.
  - split; [constructor | done].
  - destruct (Fingerprint_Is h x fp) as [[|]|] eqn:Hx; simpl.
    + split; [discriminate|]. intros H. apply Forall_cons in H as [H _]. congruence.
    + rewrite IH. split; [by constructor|]. intros H. by apply Forall_cons in H as [_ H].
    + split; [discriminate|]. intros H. apply Forall_cons in H as [H _]. congruence.
Qed.

Lemma find_Is_elem (h : gmap nat Fingerprint) (l : list nat) (fp e : nat) :
  find_Is h l fp = Some (Some e) -> e ∈ l.
Proof.
  intros H. apply find_Is_Some in H as (l1 & l2 & -> & _). set_solver.
Qed.

Lemma UpdateWith_cache (f o : Fingerprint) : fp_cache (UpdateWith f o).1 = fp_cache f.
Proof. reflexivity. Qed.

(** What [PutFingerprint] leaves alone. *)
Lemma PutFingerprint_frame (w w' : World) (fp r : nat) :
  PutFingerprint w fp = Some (r, w') ->
  files (heap w') = files (heap w) /\ archives (heap w') = archives (heap w) /\
  repos (heap w') = repos (heap w) /\ Files (store w') = Files (store w) /\
  GitRepoSources (store w') = GitRepoSources (store w) /\
  ArchiveFiles (store w') = ArchiveFiles (store w) /\
  statCache (store w') = statCache (store w) /\
  Fingerprints (store w) `prefix_of` Fingerprints (store w').
Proof.
  unfold PutFingerprint. intros H.
  destruct (fps (heap w) !! fp) as [f|]; simpl in H; [|discriminate].
  destruct (IsCached (fp_cache f)).
  { injection H as <- <-. by repeat split. }
  destruct (GetFingerprintByGitSHA (store w) (GitSHA f)) as [ex|]; simpl in H; [|discriminate].
  destruct (match ex with Some e => Some (Some e) | None => _ end) as [[e|]|];
    simpl in H; [| |discriminate].
  - destruct (fps (heap w) !! e) as [ef|]; simpl in H; [|discriminate].
    injection H as <- <-. by repeat split.
  - injection H as <- <-. simpl. repeat split. by apply prefix_app_r.
Qed.

Lemma bloom_Contains_Add (b : bloomFilter) (d d' : digest) :
  bloom_Contains b d = true -> bloom_Contains (bloom_Add b d') d = true.
Proof.
  unfold bloom_Contains, bloom_Add. simpl. rewrite !forallb_forall.
  intros H i Hi. specialize (H i Hi).
  apply bool_decide_eq_true. apply bool_decide_eq_true in H. set_solver.
Qed.

Lemma bloom_Contains_Add_same (b : bloomFilter) (d : digest) :
  bloom_Contains (bloom_Add b d) d = true.
Proof.
  unfold bloom_Contains, bloom_Add. simpl. rewrite forallb_forall.
  intros i Hi. apply bool_decide_eq_true.
  apply elem_of_union_r, elem_of_list_to_set. by apply list_elem_of_In.
Qed.

(** [PutFingerprint] keeps the fingerprint part of the invariant and returns
    a stored pointer. *)
Lemma PutFingerprint_fps_ok (w w' : World) (fp r : nat) :
  fps_ok w -> PutFingerprint w fp = Some (r, w') ->
  fps_ok w' /\ r ∈ Fingerprints (store w').
Proof.
  intros (F1 & F2 & F3) H. unfold PutFingerprint in H.
  destruct (fps (heap w) !! fp) as [f|] eqn:Hf; simpl in H; [|discriminate].
  destruct (IsCached (fp_cache f)) eqn:Hc.
  { injection H as <- <-. split; [done|].
    unfold IsCached in Hc. eapply list_elem_of_lookup_2. by apply (F2 fp f). }
  destruct (GetFingerprintByGitSHA (store w) (GitSHA f)) as [ex|] eqn:Hg;
    simpl in H; [|discriminate].
  destruct (match ex with Some e => Some (Some e) | None => _ end) as [[e|]|] eqn:Hex;
    simpl in H; [| |discriminate].
  - assert (He : e ∈ Fingerprints (store w)).
    { destruct ex as [e'|].
      - injection Hex as ->. apply GetFingerprintByGitSHA_Some in Hg as (i & _ & Hi).
        by eapply list_elem_of_lookup_2.
      - by eapply find_Is_elem. }
    destruct (fps (heap w) !! e) as [ef|] eqn:Hef; simpl in H; [|discriminate].
    injection H as <- <-. split; [|exact He].
    split; [|split]; simpl.
    + intros i p Hi. destruct (F1 i p Hi) as (g & Hg' & Hcache).
      destruct (decide (p = e)) as [->|Hne].
      * rewrite lookup_insert_eq. eexists. split; [reflexivity|].
        rewrite ?UpdateWith_cache. simpl. congruence.
      * rewrite lookup_insert_ne by done. eauto.
    + intros p g. destruct (decide (p = e)) as [->|Hne].
      * rewrite lookup_insert_eq. intros [= <-]. simpl. intros Hid. by apply (F2 e ef).
      * rewrite lookup_insert_ne by done. apply F2.
    + exact F3.
  - injection H as <- <-. simpl.
    split; [|apply elem_of_app; right; by apply list_elem_of_singleton].
    assert (Hnew : forall i, Fingerprints (store w) !! i = Some fp -> False).
    { intros i Hi. destruct (F1 i fp Hi) as (g & Hg' & Hcache).
      unfold IsCached in Hc. rewrite Hf in Hg'. injection Hg' as <-.
      rewrite Hcache in Hc. discriminate. }
    split; [|split]; simpl.
    + intros i p Hi. apply lookup_app_Some in Hi as [Hi|[Hlen Hi]].
      * destruct (decide (p = fp)) as [->|Hne]; [by destruct (Hnew i)|].
        rewrite lookup_insert_ne by done. by apply F1.
      * apply list_lookup_singleton_Some in Hi as [Hi <-].
        rewrite lookup_insert_eq. eexists. split; [reflexivity|].
        unfold fp_SetCacheID. simpl. f_equal. lia.
    + intros p g. destruct (decide (p = fp)) as [->|Hne].
      * rewrite lookup_insert_eq. intros [= <-] _. simpl.
        rewrite lookup_app_r by lia. by rewrite Nat.sub_diag.
      * rewrite lookup_insert_ne by done. intros Hp Hid.
        apply lookup_app_l_Some. by apply (F2 p g).
    + intros g i. rewrite length_app. simpl.
      destruct (decide (g = GitSHA f)) as [->|Hne].
      * rewrite lookup_insert_eq. intros [= <-]. split; [lia|].
        apply bloom_Contains_Add_same.
      * rewrite lookup_insert_ne by done. intros Hi.
        destruct (F3 g i Hi) as [Hlt Hb]. split; [lia|].
        by apply bloom_Contains_Add.
Qed.

(** ** The store: the invariant is kept *)

Lemma prefix_elem {A : Type} (l1 l2 : list A) (x : A) :
  l1 `prefix_of` l2 -> x ∈ l1 -> x ∈ l2.
Proof. intros [k ->] H. apply elem_of_app. by left. Qed.

Lemma interned_files_mono (v v' : fingerprintInMemoryCache) (l : list (option nat)) :
  (forall x, x ∈ Files v -> x ∈ Files v') -> interned_files v l -> interned_files v' l.
Proof.
  intros Hsub H. unfold interned_files in *. eapply Forall_impl; [exact H|].
  intros e (r & -> & Hr). eauto.
Qed.

Lemma fps_ok_same (w w' : World) :
  fps (heap w') = fps (heap w) -> Fingerprints (store w') = Fingerprints (store w) ->
  gitSHAIndex (store w') = gitSHAIndex (store w) ->
  gitSHAFilter (store w') = gitSHAFilter (store w) ->
  fps_ok w -> fps_ok w'.
Proof. unfold fps_ok. by intros -> -> -> ->. Qed.

Lemma files_ok_mono (w w' : World) :
  files (heap w') = files (heap w) -> Files (store w') = Files (store w) ->
  (forall x, x ∈ Fingerprints (store w) -> x ∈ Fingerprints (store w')) ->
  files_ok w -> files_ok w'.
Proof.
  unfold files_ok. intros -> -> Hsub [L1 L2]. split; [|exact L2].
  intros i p Hi. destruct (L1 i p Hi) as (f & q & ? & ? & ? & ?).
  exists f, q. eauto.
Qed.

Lemma archives_ok_mono (w w' : World) :
  archives (heap w') = archives (heap w) ->
  ArchiveFiles (store w') = ArchiveFiles (store w) ->
  (forall x, x ∈ Files (store w) -> x ∈ Files (store w')) ->
  archives_ok w -> archives_ok w'.
Proof.
  unfold archives_ok. intros -> -> Hsub A1 i p Hi.
  destruct (A1 i p Hi) as (a & q & ? & ? & ? & ? & ?).
  exists a, q. repeat split; eauto using interned_files_mono.
Qed.

Lemma repos_ok_mono (w w' : World) :
  repos (heap w') = repos (heap w) ->
  GitRepoSources (store w') = GitRepoSources (store w) ->
  (forall x, x ∈ Files (store w) -> x ∈ Files (store w')) ->
  repos_ok w -> repos_ok w'.
Proof.
  unfold repos_ok. intros -> -> Hsub R1 i p Hi.
  destruct (R1 i p Hi) as (g & ? & ? & ?).
  exists g. repeat split; eauto using interned_files_mono.
Qed.

Lemma stat_ok_mono (w w' : World) :
  statCache (store w') = statCache (store w) ->
  (forall x, x ∈ Fingerprints (store w) -> x ∈ Fingerprints (store w')) ->
  stat_ok w -> stat_ok w'.
Proof. unfold stat_ok. intros -> Hsub S1 k p Hk. eauto. Qed.

Lemma PutFingerprint_Inv (w w' : World) (fp r : nat) :
  Inv w -> PutFingerprint w fp = Some (r, w') ->
  Inv w' /\ r ∈ Fingerprints (store w').
Proof.
  intros (Hf & Hl & Ha & Hr & Hs) H.
  destruct (PutFingerprint_fps_ok w w' fp r Hf H) as [Hf' Hin].
  destruct (PutFingerprint_frame w w' fp r H) as (E1 & E2 & E3 & E4 & E5 & E6 & E7 & Hpre).
  split; [|exact Hin].
  split; [exact Hf'|].
  split; [eapply files_ok_mono; eauto using prefix_elem|].
  split; [eapply archives_ok_mono; eauto; by rewrite E4|].
  split; [eapply repos_ok_mono; eauto; by rewrite E4|].
  eapply stat_ok_mono; eauto using prefix_elem.
Qed.

Lemma find_file_elem (h : Heap) (l : list nat) (path : string) (fp e : nat) :
  find_file h l path fp = Some (Some e) -> e ∈ l.
Proof.
  induction l as [|x l IH]; simpl; [discriminate|].
  destruct (files h !! x) as [ex|]; simpl; [|discriminate].
  destruct (String.eqb (Path ex) path).
  - destruct (if decide (File_Fingerprint ex = Some fp) then Some true else _) as [[|]|];
      simpl; [intros [= <-]; left | intros; right; by apply IH | discriminate].
  - intros; right; by apply IH.
Qed.

Lemma PutFile_frame (w w' : World) (f : option nat) (r : nat) :
  PutFile w f = Some (r, w') ->
  archives (heap w') = archives (heap w) /\ repos (heap w') = repos (heap w) /\
  GitRepoSources (store w') = GitRepoSources (store w) /\
  ArchiveFiles (store w') = ArchiveFiles (store w) /\
  statCache (store w') = statCache (store w) /\
  Fingerprints (store w) `prefix_of` Fingerprints (store w') /\
  Files (store w) `prefix_of` Files (store w').
Proof.
  unfold PutFile. intros H.
  destruct f as [f|]; simpl in H; [|discriminate].
  destruct (files (heap w) !! f) as [fl|]; simpl in H; [|discriminate].
  destruct (File_Fingerprint fl) as [fp|]; simpl in H; [|discriminate].
  destruct (IsCached (file_cache fl)).
  { injection H as <- <-. by repeat split. }
  destruct (find_file _ _ _ _) as [[ex|]|]; simpl in H; [| |discriminate].
  { injection H as <- <-. by repeat split. }
  destruct (PutFingerprint w fp) as [[fp' w1]|] eqn:Hp; simpl in H; [|discriminate].
  destruct (PutFingerprint_frame w w1 fp fp' Hp) as (E1 & E2 & E3 & E4 & E5 & E6 & E7 & Hpre).
  injection H as <- <-. simpl. repeat split; try done.
  rewrite E4. by apply prefix_app_r.
Qed.

Lemma PutFile_Inv (w w' : World) (f : option nat) (r : nat) :
  Inv w -> PutFile w f = Some (r, w') ->
  Inv w' /\ r ∈ Files (store w').
Proof.
  intros HI H. unfold PutFile in H.
  destruct f as [f|]; simpl in H; [|discriminate].
  destruct (files (heap w) !! f) as [fl|] eqn:Hfl; simpl in H; [|discriminate].
  destruct (File_Fingerprint fl) as [fp|] eqn:Hfp; simpl in H; [|discriminate].
  destruct (IsCached (file_cache fl)) eqn:Hc.
  { injection H as <- <-. split; [done|].
    destruct HI as (_ & [_ L2] & _). eapply list_elem_of_lookup_2. by apply (L2 f fl). }
  destruct (find_file _ _ _ _) as [[ex|]|] eqn:Hfind; simpl in H; [| |discriminate].
  { injection H as <- <-. split; [done|]. by eapply find_file_elem. }
  destruct (PutFingerprint w fp) as [[fp' w1]|] eqn:Hp; simpl in H; [|discriminate].
  destruct (PutFingerprint_Inv w w1 fp fp' HI Hp) as [(Hf1 & [L1 L2] & Ha1 & Hr1 & Hs1) Hin].
  destruct (PutFingerprint_frame w w1 fp fp' Hp) as (E1 & E2 & E3 & E4 & E5 & E6 & E7 & Hpre).
  injection H as <- <-. simpl.
  split; [|apply elem_of_app; right; by apply list_elem_of_singleton].
  assert (Hnew : forall i, Files (store w1) !! i = Some f -> False).
  { intros i Hi. destruct (L1 i f Hi) as (g & q & Hg & Hcache & _).
    rewrite E1, Hfl in Hg. injection Hg as <-.
    unfold IsCached in Hc. rewrite Hcache in Hc. discriminate. }
  assert (Hsub : forall x, x ∈ Files (store w1) -> x ∈ Files (store w1) ++ [f])
    by (intros x Hx; apply elem_of_app; by left).
  split; [by apply (fps_ok_same w1)|].
  split; [|split; [|split]].
  - split; simpl.
    + intros i p Hi. apply lookup_app_Some in Hi as [Hi|[Hlen Hi]].
      * destruct (decide (p = f)) as [->|Hne]; [by destruct (Hnew i)|].
        rewrite lookup_insert_ne by done. by apply L1.
      * apply list_lookup_singleton_Some in Hi as [Hi <-].
        rewrite lookup_insert_eq. eexists _, fp'. split; [reflexivity|].
        simpl. repeat split; [|done]. f_equal. lia.
    + intros p g. destruct (decide (p = f)) as [->|Hne].
      * rewrite lookup_insert_eq. intros [= <-] _. simpl.
        rewrite lookup_app_r by lia. by rewrite Nat.sub_diag.
      * rewrite lookup_insert_ne by done. intros Hp' Hid.
        apply lookup_app_l_Some. by apply (L2 p g).
  - by apply (archives_ok_mono w1).
  - by apply (repos_ok_mono w1).
  - by apply (stat_ok_mono w1).
Qed.

Lemma PutFiles_frame (w w' : World) (l : list (option nat)) (rs : list nat) :
  PutFiles w l = Some (rs, w') ->
  archives (heap w') = archives (heap w) /\ repos (heap w') = repos (heap w) /\
  GitRepoSources (store w') = GitRepoSources (store w) /\
  ArchiveFiles (store w') = ArchiveFiles (store w) /\
  statCache (store w') = statCache (store w) /\
  Fingerprints (store w) `prefix_of` Fingerprints (store w') /\
  Files (store w) `prefix_of` Files (store w').
Proof.
  revert w rs. induction l as [|f l IH]; intros w rs H; simpl in H.
  - injection H as <- <-. by repeat split.
  - destruct (PutFile w f) as [[r w1]|] eqn:H1; simpl in H; [|discriminate].
    destruct (PutFiles w1 l) as [[rs' w2]|] eqn:H2; simpl in H; [|discriminate].
    injection H as <- <-.
    destruct (PutFile_frame _ _ _ _ H1) as (A1 & A2 & A3 & A4 & A5 & A6 & A7).
    destruct (IH _ _ H2) as (B1 & B2 & B3 & B4 & B5 & B6 & B7).
    repeat split; try congruence; by etrans.
Qed.

Lemma PutFiles_Inv (w w' : World) (l : list (option nat)) (rs : list nat) :
  Inv w -> PutFiles w l = Some (rs, w') ->
  Inv w' /\ interned_files (store w') (map Some rs).
Proof.
  revert w rs. induction l as [|f l IH]; intros w rs HI H; simpl in H.
  - injection H as <- <-. split; [done | constructor].
  - destruct (PutFile w f) as [[r w1]|] eqn:H1; simpl in H; [|discriminate].
    destruct (PutFiles w1 l) as [[rs' w2]|] eqn:H2; simpl in H; [|discriminate].
    injection H as <- <-.
    destruct (PutFile_Inv _ _ _ _ HI H1) as [HI1 Hr].
    destruct (IH _ _ HI1 H2) as [HI2 Hrs].
    destruct (PutFiles_frame _ _ _ _ H2) as (_ & _ & _ & _ & _ & _ & Hpre).
    split; [done|]. simpl. constructor; [|done].
    exists r. split; [done|]. by eapply prefix_elem.
Qed.

Lemma Inv_change_archives (w w' : World) :
  fps (heap w') = fps (heap w) -> files (heap w') = files (heap w) ->
  repos (heap w') = repos (heap w) ->
  Fingerprints (store w') = Fingerprints (store w) ->
  gitSHAIndex (store w') = gitSHAIndex (store w) ->
  gitSHAFilter (store w') = gitSHAFilter (store w) ->
  Files (store w') = Files (store w) ->
  GitRepoSources (store w') = GitRepoSources (store w) ->
  statCache (store w') = statCache (store w) ->
  Inv w -> archives_ok w' -> Inv w'.
Proof.
  intros E1 E2 E3 E4 E5 E6 E7 E8 E9 (Hf & Hl & _ & Hr & Hs) Ha.
  split; [by apply (fps_ok_same w)|].
  split; [apply (files_ok_mono w); try done; by rewrite E4|].
  split; [done|].
  split; [apply (repos_ok_mono w); try done; by rewrite E7|].
  apply (stat_ok_mono w); try done; by rewrite E4.
Qed.

Lemma Inv_change_repos (w w' : World) :
  fps (heap w') = fps (heap w) -> files (heap w') = files (heap w) ->
  archives (heap w') = archives (heap w) ->
  Fingerprints (store w') = Fingerprints (store w) ->
  gitSHAIndex (store w') = gitSHAIndex (store w) ->
  gitSHAFilter (store w') = gitSHAFilter (store w) ->
  Files (store w') = Files (store w) ->
  ArchiveFiles (store w') = ArchiveFiles (store w) ->
  statCache (store w') = statCache (store w) ->
  Inv w -> repos_ok w' -> Inv w'.
Proof.
  intros E1 E2 E3 E4 E5 E6 E7 E8 E9 (Hf & Hl & Ha & _ & Hs) Hr.
  split; [by apply (fps_ok_same w)|].
  split; [apply (files_ok_mono w); try done; by rewrite E4|].
  split; [apply (archives_ok_mono w); try done; by rewrite E7|].
  split; [done|].
  apply (stat_ok_mono w); try done; by rewrite E4.
Qed.

Lemma find_archive_None (h : gmap nat ArchiveFile) (l : list nat) (file : option nat) :
  find_archive h l file = Some None ->
  forall p, p ∈ l -> exists a, h !! p = Some a /\ Archive_File a <> file.
Proof.
  induction l as [|x l IH]; simpl; intros H p Hp.
  - by apply elem_of_nil in Hp.
  - destruct (h !! x) as [a|] eqn:Hx; simpl in H; [|discriminate].
    destruct (decide (Archive_File a = file)); [discriminate|].
    apply elem_of_cons in Hp as [->|Hp]; eauto.
Qed.

Lemma PutArchiveFile_Inv (w w' : World) (r res : nat) :
  Inv w -> PutArchiveFile w r = Some (res, w') -> Inv w'.
Proof.
  intros HI H. unfold PutArchiveFile in H.
  destruct (archives (heap w) !! r) as [a|] eqn:Ha; simpl in H; [|discriminate].
  destruct (PutFile w (Archive_File a)) as [[file w1]|] eqn:H1; simpl in H; [|discriminate].
  destruct (PutFile_Inv _ _ _ _ HI H1) as [HI1 Hfile].
  destruct (PutFile_frame _ _ _ _ H1) as (E1 & E2 & E3 & E4 & E5 & E6 & E7).
  set (a1 := mkArchiveFile (Some file) (Entries a) (archive_cache a)) in *.
  set (w2 := with_archives (<[r := a1]> (archives (heap w1))) w1) in *.
  assert (HI2 : Inv w2).
  { apply (Inv_change_archives w1); try done.
    intros i p Hi. destruct HI1 as (_ & _ & A1 & _).
    destruct (A1 i p Hi) as (a' & q & Ha' & Hc & Hq & Hqin & Hent). simpl.
    destruct (decide (p = r)) as [->|Hne].
    - rewrite lookup_insert_eq. rewrite E1, Ha in Ha'. injection Ha' as <-.
      exists a1, file. by repeat split.
    - rewrite lookup_insert_ne by done. exists a', q. by repeat split. }
  destruct (find_archive _ _ _) as [[ex|]|] eqn:Hfind; simpl in H; [| |discriminate].
  { by injection H as <- <-. }
  match type of H with
  | context [PutFiles ?x ?y] => destruct (PutFiles x y) as [[rs w3]|] eqn:H3
  end; simpl in H; [|discriminate].
  change (PutFiles w2 (Entries a1) = Some (rs, w3)) in H3.
  destruct (PutFiles_Inv _ _ _ _ HI2 H3) as [HI3 Hrs].
  destruct (PutFiles_frame _ _ _ _ H3) as (G1 & G2 & G3 & G4 & G5 & G6 & G7).
  injection H as <- <-.
  apply (Inv_change_archives w3); try done.
  assert (Hnew : r ∉ ArchiveFiles (store w3)).
  { intros Hin. rewrite G4 in Hin.
    destruct (find_archive_None _ _ _ Hfind r Hin) as (a' & Ha' & Hne).
    subst w2. simpl in Ha'. rewrite lookup_insert_eq in Ha'. injection Ha' as <-.
    by apply Hne. }
  intros i p Hi. simpl in *.
  apply lookup_app_Some in Hi as [Hi|[Hlen Hi]].
  - destruct (decide (p = r)) as [->|Hne].
    { exfalso. apply Hnew. by eapply list_elem_of_lookup_2. }
    rewrite lookup_insert_ne by done.
    destruct HI3 as (_ & _ & A3 & _). by apply A3.
  - apply list_lookup_singleton_Some in Hi as [Hi <-].
    rewrite lookup_insert_eq. eexists _, file. split; [reflexivity|]. simpl.
    repeat split; [f_equal; lia | | done].
    eapply prefix_elem; [exact G7|]. done.
Qed.

Lemma find_repo_None (h : gmap nat GitRepoSource) (l : list nat) (urn : string) :
  find_repo h l urn = Some None ->
  forall p, p ∈ l -> exists g, h !! p = Some g /\ URN g <> urn.
Proof.
  induction l as [|x l IH]; cbn; intros H p Hp.
  - by apply elem_of_nil in Hp.
  - destruct (h !! x) as [g|] eqn:Hx; cbn in H; [|discriminate].
    destruct (String.eqb_spec (URN g) urn); [discriminate|].
    apply elem_of_cons in Hp as [->|Hp]; eauto.
Qed.

Lemma PutGitSource_Inv (w w' : World) (r res : nat) :
  Inv w -> PutGitSource w r = Some (res, w') -> Inv w'.
Proof.
  intros HI H. unfold PutGitSource in H.
  destruct (repos (heap w) !! r) as [g|] eqn:Hg; cbn in H; [|discriminate].
  destruct (find_repo _ _ _) as [[ex|]|] eqn:Hfind; cbn in H; [| |discriminate].
  { by injection H as <- <-. }
  destruct (PutFiles w (Repo_Files g)) as [[rs w1]|] eqn:H1; cbn in H; [|discriminate].
  destruct (PutFiles_Inv _ _ _ _ HI H1) as [HI1 Hrs].
  destruct (PutFiles_frame _ _ _ _ H1) as (G1 & G2 & G3 & G4 & G5 & G6 & G7).
  injection H as <- <-.
  apply (Inv_change_repos w1); try done.
  assert (Hnew : r ∉ GitRepoSources (store w1)).
  { intros Hin. rewrite G3 in Hin.
    destruct (find_repo_None _ _ _ Hfind r Hin) as (g' & Hg' & Hne).
    rewrite Hg in Hg'. injection Hg' as <-. by apply Hne. }
  intros i p Hi. simpl in *.
  apply lookup_app_Some in Hi as [Hi|[Hlen Hi]].
  - destruct (decide (p = r)) as [->|Hne].
    { exfalso. apply Hnew. by eapply list_elem_of_lookup_2. }
    rewrite lookup_insert_ne by done.
    destruct HI1 as (_ & _ & _ & R1 & _). by apply R1.
  - apply list_lookup_singleton_Some in Hi as [Hi <-].
    rewrite lookup_insert_eq. eexists. split; [reflexivity|]. simpl.
    split; [f_equal; lia | done].
Qed.

Lemma fresh_world_Inv (hashes : digest -> list nat) (h : Heap) :
  nothing_cached h -> Inv (fresh_world hashes h).
Proof.
  intros (N1 & N2 & N3 & N4). unfold fresh_world, newInMemoryCache.
  split; [|split; [|split; [|split]]].
  - split; [|split]; simpl.
    + intros i p Hi. by rewrite lookup_nil in Hi.
    + intros p f Hp Hid. rewrite (N1 p f Hp) in Hid. discriminate.
    + intros g i Hi. by rewrite lookup_empty in Hi.
  - split; simpl.
    + intros i p Hi. by rewrite lookup_nil in Hi.
    + intros p f Hp Hid. rewrite (N2 p f Hp) in Hid. discriminate.
  - intros i p Hi. simpl in Hi. by rewrite lookup_nil in Hi.
  - intros i p Hi. simpl in Hi. by rewrite lookup_nil in Hi.
  - intros k p Hk. simpl in Hk. by rewrite lookup_empty in Hk.
Qed.

Lemma PutStatFingerprint_Inv (w : World) (stat : FileInfo) (fp : nat) :
  Inv w -> fp ∈ Fingerprints (store w) -> Inv (PutStatFingerprint w stat fp).
Proof.
  intros (Hf & Hl & Ha & Hr & Hs) Hin. unfold PutStatFingerprint.
  split; [by apply (fps_ok_same w)|].
  split; [by apply (files_ok_mono w)|].
  split; [by apply (archives_ok_mono w)|].
  split; [by apply (repos_ok_mono w)|].
  intros k p. simpl.
  destruct (decide (k = newCachedStatFingerprintKey stat)) as [->|Hne].
  - rewrite lookup_insert_eq. by intros [= <-].
  - rewrite lookup_insert_ne by done. apply Hs.
Qed.

Lemma new_Fingerprint_Inv (w : World) (p : nat) (f : Fingerprint) :
  Inv w -> fps (heap w) !! p = None -> hasID (fp_cache f) = false ->
  Inv (with_fps (<[p := f]> (fps (heap w))) w).
Proof.
  intros ((F1 & F2 & F3) & Hl & Ha & Hr & Hs) Hp Hid.
  split; [|split; [by apply (files_ok_mono w)|
           split; [by apply (archives_ok_mono w)|
           split; [by apply (repos_ok_mono w) | by apply (stat_ok_mono w)]]]].
  split; [|split]; simpl.
  - intros i q Hi. destruct (F1 i q Hi) as (g & Hg & Hc).
    destruct (decide (q = p)) as [->|Hne]; [congruence|].
    rewrite lookup_insert_ne by done. eauto.
  - intros q g. destruct (decide (q = p)) as [->|Hne].
    + rewrite lookup_insert_eq. intros [= <-]. congruence.
    + rewrite lookup_insert_ne by done. apply F2.
  - exact F3.
Qed.

Lemma fill_Fingerprint_Inv (w : World) (p : nat) (f f' : Fingerprint) :
  Inv w -> fps (heap w) !! p = Some f -> fp_cache f' = fp_cache f ->
  Inv (with_fps (<[p := f']> (fps (heap w))) w).
Proof.
  intros ((F1 & F2 & F3) & Hl & Ha & Hr & Hs) Hp Hc.
  split; [|split; [by apply (files_ok_mono w)|
           split; [by apply (archives_ok_mono w)|
           split; [by apply (repos_ok_mono w) | by apply (stat_ok_mono w)]]]].
  split; [|split]; simpl.
  - intros i q Hi. destruct (F1 i q Hi) as (g & Hg & Hcache).
    destruct (decide (q = p)) as [->|Hne].
    + rewrite lookup_insert_eq. exists f'. split; [done|]. congruence.
    + rewrite lookup_insert_ne by done. eauto.
  - intros q g. destruct (decide (q = p)) as [->|Hne].
    + rewrite lookup_insert_eq. intros [= <-]. rewrite Hc. by apply F2.
    + rewrite lookup_insert_ne by done. apply F2.
  - exact F3.
Qed.

Lemma new_File_Inv (w : World) (p : nat) (f : File) :
  Inv w -> files (heap w) !! p = None -> hasID (file_cache f) = false ->
  Inv (with_files (<[p := f]> (files (heap w))) w).
Proof.
  intros (Hf & [L1 L2] & Ha & Hr & Hs) Hp Hid.
  split; [by apply (fps_ok_same w)|].
  split; [|split; [by apply (archives_ok_mono w)|
           split; [by apply (repos_ok_mono w) | by apply (stat_ok_mono w)]]].
  split; simpl.
  - intros i q Hi. destruct (L1 i q Hi) as (g & x & Hg & Hc & Hx).
    destruct (decide (q = p)) as [->|Hne]; [congruence|].
    rewrite lookup_insert_ne by done. eauto.
  - intros q g. destruct (decide (q = p)) as [->|Hne].
    + rewrite lookup_insert_eq. intros [= <-]. congruence.
    + rewrite lookup_insert_ne by done. apply L2.
Qed.

Lemma new_ArchiveFile_Inv (w : World) (p : nat) (a : ArchiveFile) :
  Inv w -> archives (heap w) !! p = None ->
  Inv (with_archives (<[p := a]> (archives (heap w))) w).
Proof.
  intros HI Hp. apply (Inv_change_archives w); try done.
  destruct HI as (_ & _ & A1 & _).
  intros i q Hi. destruct (A1 i q Hi) as (a' & x & Ha' & Hrest). simpl.
  destruct (decide (q = p)) as [->|Hne]; [congruence|].
  rewrite lookup_insert_ne by done. eauto.
Qed.

Lemma new_GitRepoSource_Inv (w : World) (p : nat) (g : GitRepoSource) :
  Inv w -> repos (heap w) !! p = None ->
  Inv (with_repos (<[p := g]> (repos (heap w))) w).
Proof.
  intros HI Hp. apply (Inv_change_repos w); try done.
  destruct HI as (_ & _ & _ & R1 & _).
  intros i q Hi. destruct (R1 i q Hi) as (g' & Hg' & Hrest). simpl.
  destruct (decide (q = p)) as [->|Hne]; [congruence|].
  rewrite lookup_insert_ne by done. eauto.
Qed.

(** Every reachable state satisfies the invariant. *)
Lemma reachable_Inv (w : World) : reachable w -> Inv w.
Proof.
  induction 1;
    eauto using fresh_world_Inv, PutArchiveFile_Inv, PutGitSource_Inv,
      PutStatFingerprint_Inv, new_Fingerprint_Inv, fill_Fingerprint_Inv, new_File_Inv,
      new_ArchiveFile_Inv, new_GitRepoSource_Inv.
  - by destruct (PutFingerprint_Inv _ _ _ _ IHreachable H0).
  - by destruct (PutFile_Inv _ _ _ _ IHreachable H0).
Qed.

(** ** [Verify] and persistence *)

Lemma verify_ids_ok (mk : nat -> nat -> VerifyError) (id : nat) (ids : list (option nat)) :
  verify_ids mk id ids = Some None <->
  forall k c, ids !! k = Some c -> c = Some (id + k)%nat.
Proof.
  revert id. induction ids as [|c ids IH]; intros id; simpl.
  - split; [intros _ k c Hk; by rewrite lookup_nil in Hk | done].
  - destruct c as [c|]; simpl.
    + destruct (decide (c = id)) as [->|Hne].
      * rewrite IH. split.
        -- intros H [|k] c Hk; simpl in Hk.
           ++ injection Hk as <-. f_equal. lia.
           ++ rewrite (H k c Hk). f_equal. lia.
        -- intros H k c Hk. rewrite (H (S k) c Hk). f_equal. lia.
      * split; [discriminate|]. intros H.
        specialize (H 0%nat (Some c) eq_refl). injection H as ->. lia.
    + split; [discriminate|]. intros H. by specialize (H 0%nat None eq_refl).
Qed.

Lemma verify_files_ok (h : gmap nat File) (id : nat) (l : list nat) :
  verify_files h id l = Some None <->
  forall k p, l !! k = Some p ->
    exists f, h !! p = Some f /\ CacheID (file_cache f) = (id + k)%nat.
Proof.
  revert id. induction l as [|p l IH]; intros id; simpl.
  - split; [intros _ k c Hk; by rewrite lookup_nil in Hk | done].
  - destruct (h !! p) as [f|] eqn:Hp; simpl.
    + destruct (decide (CacheID (file_cache f) = id)) as [He|Hne].
      * rewrite IH. split.
        -- intros H [|k] q Hk; simpl in Hk.
           ++ injection Hk as <-. exists f. split; [done|]. lia.
           ++ destruct (H k q Hk) as (g & Hg & Hc). exists g. split; [done|]. lia.
        -- intros H k q Hk. destruct (H (S k) q Hk) as (g & Hg & Hc).
           exists g. split; [done|]. lia.
      * split; [discriminate|]. intros H.
        destruct (H 0%nat p eq_refl) as (g & Hg & Hc).
        rewrite Hp in Hg. injection Hg as <-. lia.
    + split; [discriminate|]. intros H.
      destruct (H 0%nat p eq_refl) as (g & Hg & _). congruence.
Qed.

Lemma verify_ids_map {A : Type} (mk : nat -> nat -> VerifyError) (h : gmap nat A)
    (c : A -> embeddedCacheID) (l : list nat) :
  verify_ids mk 0 (map (fun p => (fun a => CacheID (c a)) <$> h !! p) l) = Some None <->
  forall id p, l !! id = Some p -> exists a, h !! p = Some a /\ CacheID (c a) = id.
Proof.
  rewrite verify_ids_ok. split.
  - intros H id p Hp.
    specialize (H id ((fun a => CacheID (c a)) <$> h !! p)).
    rewrite list_lookup_fmap, Hp in H. specialize (H eq_refl).
    destruct (h !! p) as [a|]; simpl in H; [|discriminate].
    injection H as H. eauto.
  - intros H k x Hk. rewrite list_lookup_fmap in Hk.
    destruct (l !! k) as [p|] eqn:Hp; simpl in Hk; [|discriminate].
    injection Hk as <-. destruct (H k p Hp) as (a & -> & <-). reflexivity.
Qed.

(** [Verify] returns nil exactly on the id-consistent states. *)
Lemma Verify_ok_iff (w : World) : Verify w = Some None <-> ids_consistent w.
Proof.
  unfold Verify, ids_consistent.
  rewrite <- (verify_ids_map IncorrectFingerprintKey (fps (heap w)) fp_cache).
  rewrite <- (verify_ids_map IncorrectArchiveKey (archives (heap w)) archive_cache).
  rewrite <- (verify_ids_map IncorrectRepoKey (repos (heap w)) repo_cache).
  pose proof (verify_files_ok (files (heap w)) 0 (Files (store w))) as Hfiles.
  simpl in Hfiles. rewrite <- Hfiles. clear Hfiles.
  destruct (verify_ids IncorrectFingerprintKey _ _) as [[e|]|]; simpl;
    [by split; [|intros [? _]] | | by split; [|intros [? _]]].
  destruct (verify_files _ _ _) as [[e|]|]; simpl;
    [by split; [|intros (_ & ? & _)] | | by split; [|intros (_ & ? & _)]].
  destruct (verify_ids IncorrectArchiveKey _ _) as [[e|]|]; simpl;
    [by split; [|intros (_ & _ & ? & _)] | | by split; [|intros (_ & _ & ? & _)]].
  split; [by repeat split | by intros (_ & _ & _ & ?)].
Qed.

Lemma Inv_ids_consistent (w : World) : Inv w -> ids_consistent w.
Proof.
  intros ((F1 & _) & (L1 & _) & A1 & R1 & _).
  split; [|split; [|split]].
  - intros i p Hi. destruct (F1 i p Hi) as (f & Hf & Hc). exists f. by rewrite Hc.
  - intros i p Hi. destruct (L1 i p Hi) as (f & q & Hf & Hc & _). exists f. by rewrite Hc.
  - intros i p Hi. destruct (A1 i p Hi) as (a & q & Ha & Hc & _). exists a. by rewrite Hc.
  - intros i p Hi. destruct (R1 i p Hi) as (g & Hg & Hc & _). exists g. by rewrite Hc.
Qed.

Lemma Persist_skipped_unless_verified (c : Codec) (can_create : string -> bool) (w : World)
    (disk disk' : gmap string (wire c)) :
  Verify w <> Some None ->
  PersistRememberedObjects c can_create w disk = Some disk' -> disk' = disk.
Proof.
  unfold PersistRememberedObjects. intros Hv.
  destruct (Verify w) as [[e|]|]; simpl; [by intros [= <-] | done | discriminate].
Qed.

(** C5: [Verify] succeeds exactly when, in each of the four slices, the
    object at index [id] carries cache id [id]; every state reached from a
    fresh store by put operations is id-consistent; and when [Verify] does
    not succeed, [PersistRememberedObjects] leaves the directory as it
    was. *)
Theorem Verify_ids_consistent_and_gates_persistence :
  (forall w, Verify w = Some None <-> ids_consistent w) /\
  (forall w, reachable w -> ids_consistent w /\ Verify w = Some None) /\
  (forall (c : Codec) can_create w (disk disk' : gmap string (wire c)),
     Verify w <> Some None ->
     PersistRememberedObjects c can_create w disk = Some disk' -> disk' = disk).
Proof.
  split; [exact Verify_ok_iff|]. split.
  - intros w Hw. pose proof (Inv_ids_consistent w (reachable_Inv w Hw)) as H.
    split; [exact H | by apply Verify_ok_iff].
  - exact Persist_skipped_unless_verified.
Qed.

(** ** The example states are reachable *)

Lemma sample_heap_nothing_cached : nothing_cached sample_heap.
Proof.
  unfold nothing_cached, sample_heap. simpl.
  repeat split;
    repeat (apply map_Forall_insert_2; [reflexivity|]); apply map_Forall_empty.
Qed.

Lemma reachable_after_PutFingerprint (w : World) (fp : nat) :
  reachable w -> reachable (after w (PutFingerprint w fp)).
Proof.
  intros Hw. destruct (PutFingerprint w fp) as [[r w']|] eqn:E; simpl; [|done].
  by eapply reach_PutFingerprint.
Qed.

Lemma reachable_after_PutArchiveFile (w : World) (a : nat) :
  reachable w -> reachable (after w (PutArchiveFile w a)).
Proof.
  intros Hw. destruct (PutArchiveFile w a) as [[r w']|] eqn:E; simpl; [|done].
  by eapply reach_PutArchiveFile.
Qed.

Lemma reachable_after_PutGitSource (w : World) (g : nat) :
  reachable w -> reachable (after w (PutGitSource w g)).
Proof.
  intros Hw. destruct (PutGitSource w g) as [[r w']|] eqn:E; simpl; [|done].
  by eapply reach_PutGitSource.
Qed.

Lemma reachable_world1 : reachable world1.
Proof.
  apply reachable_after_PutArchiveFile, reach_fresh, sample_heap_nothing_cached.
Qed.

Lemma reachable_world2 : reachable world2.
Proof. apply reachable_after_PutGitSource, reachable_world1. Qed.

Lemma reachable_world3 : reachable world3.
Proof.
  apply reach_PutStatFingerprint; [exact reachable_world2|].
  vm_compute. apply list_elem_of_here.
Qed.

Example world3_contents :
  Fingerprints (store world3) = [0; 1]%nat /\ Files (store world3) = [0; 1]%nat /\
  ArchiveFiles (store world3) = [0%nat] /\ GitRepoSources (store world3) = [0%nat] /\
  statCache (store world3) !! newCachedStatFingerprintKey sample_stat = Some 0%nat /\
  newCachedStatFingerprintKey sample_stat = "3,16,rs"%string.
Proof. vm_compute. repeat split; reflexivity. Qed.

Lemma Verify_ids_consistent_and_gates_persistence_witness :
  ids_consistent world3 /\ Verify world3 = Some None /\
  Verify broken_world = Some (Some (IncorrectFingerprintKey 7 0)) /\
  PersistRememberedObjects sample_codec (fun _ => true) broken_world ∅ = Some ∅.
Proof.
  destruct Verify_ids_consistent_and_gates_persistence as (_ & Hreach & Hgate).
  destruct (Hreach world3 reachable_world3) as [H1 H2].
  split; [exact H1|]. split; [exact H2|]. split; [reflexivity|].
  destruct (PersistRememberedObjects sample_codec (fun _ => true) broken_world ∅)
    as [d|] eqn:E; [|vm_compute in E; discriminate E].
  f_equal. apply (Hgate sample_codec (fun _ => true) broken_world ∅ d);
    [vm_compute; discriminate | exact E].
Defined.

(** ** Queries by fingerprint *)

(** C10: a fingerprint whose git-sha is not in the git-sha index finds no
    files (nil) and no archives (the empty list), whatever its other
    digests are. *)
Theorem unindexed_git_sha_finds_nothing (w : World) (fp : nat) (f : Fingerprint) :
  fps (heap w) !! fp = Some f ->
  gitSHAIndex (store w) !! GitSHA f = None ->
  FindFilesWithFingerprint w fp = Some None /\
  FindArchiveFilesContainingFingerprint w fp = Some (Some []).
Proof.
  intros Hf Hix.
  assert (H : FindFilesWithFingerprint w fp = Some None).
  { unfold FindFilesWithFingerprint. rewrite Hf. simpl.
    by rewrite (GetFingerprintByGitSHA_unindexed _ _ Hix). }
  split; [exact H|].
  unfold FindArchiveFilesContainingFingerprint. by rewrite H.
Qed.

(** Fingerprint 2 carries the md5 and sha256 of the stored fingerprint 0,
    whose file a.tar is stored, and no git-sha. *)
Lemma unindexed_git_sha_finds_nothing_witness :
  (exists f0 f2, fps (heap world3) !! 0%nat = Some f0 /\ fps (heap world3) !! 2%nat = Some f2 /\
                 MD5 f2 = MD5 f0 /\ SHA256 f2 = SHA256 f0 /\ IsZero (MD5 f2) = false) /\
  FindFilesWithFingerprint world3 0 = Some (Some [0%nat]) /\
  FindFilesWithFingerprint world3 2 = Some None /\
  FindArchiveFilesContainingFingerprint world3 2 = Some (Some []).
Proof.
  split; [eexists _, _; vm_compute; repeat split; reflexivity|].
  split; [vm_compute; reflexivity|].
  apply (unindexed_git_sha_finds_nothing world3 2
           (partial_fp no_git sample_md5 sample_sha256 3));
    vm_compute; reflexivity.
Defined.

(** ** [PutFingerprint] *)

Lemma digest_eqb_true (a b : digest) : digest_eqb a b = true <-> a = b.
Proof. unfold digest_eqb. apply bool_decide_eq_true. Qed.

Lemma populated_and_equal (a b : digest) :
  negb (IsZero a) && digest_eqb a b = true <-> IsZero a = false /\ a = b.
Proof.
  rewrite andb_true_iff, negb_true_iff, digest_eqb_true. reflexivity.
Qed.

Ltac Is_step k :=
  match goal with
  | |- (if ?c then true else _) = true -> _ =>
      destruct c eqn:?;
      [intros _; exists k; by apply populated_and_equal|]
  end.

(** [Is] on two distinct objects: compatible sizes and a shared populated
    digest. *)
Lemma Is_values_equivalent (a b : Fingerprint) : Is_values a b = true <-> equivalent a b.
Proof.
  unfold equivalent, sizes_compatible, Is_values. split.
  - destruct (Z.eqb_spec (Size a) 0) as [?|Ha]; simpl;
      [|destruct (Z.eqb_spec (Size b) 0) as [?|Hb]; simpl;
        [|destruct (Z.eqb_spec (Size a) (Size b)) as [?|Hab]; simpl; [|discriminate]]].
    all: intros H; split; [tauto|]; revert H; unfold shares_digest.
    all: Is_step KGit; Is_step KMD5; Is_step KHwy64; Is_step KHwy128; Is_step KHwy256;
      Is_step KSHA1; Is_step KSHA256; Is_step KSHA384; Is_step KSHA512; discriminate.
  - intros [Hs (k & Hz & He)].
    assert (Hg : negb (Size a =? 0) && negb (Size b =? 0) && negb (Size a =? Size b) = false).
    { destruct (Z.eqb_spec (Size a) 0); [done|].
      destruct (Z.eqb_spec (Size b) 0); [done|].
      destruct (Z.eqb_spec (Size a) (Size b)); [done|]. simpl. tauto. }
    rewrite Hg.
    assert (Hk : negb (IsZero (digest_of k a)) && digest_eqb (digest_of k a) (digest_of k b)
                 = true) by by apply populated_and_equal.
    destruct k; simpl in Hk; rewrite ?Hk;
      repeat match goal with
             | |- (if ?c then true else _) = true => destruct c; [reflexivity|]
             end; try reflexivity; rewrite Hk; reflexivity.
Qed.

(** [UpdateWith] fills the zero digests and the zero size, and nothing
    else. *)
Lemma UpdateWith_fills_only_missing (ef f : Fingerprint) :
  (forall k, digest_of k (UpdateWith ef f).1 =
             if IsZero (digest_of k ef) then digest_of k f else digest_of k ef) /\
  Size (UpdateWith ef f).1 = (if Size ef =? 0 then Size f else Size ef) /\
  fp_cache (UpdateWith ef f).1 = fp_cache ef.
Proof.
  split; [|split; [|reflexivity]].
  - intros k. destruct k; simpl; unfold pick, fill; simpl.
    all: match goal with
         | |- (if IsZero ?d && negb (digest_eqb ?d ?e) then _ else _) = _ =>
             destruct (IsZero d); simpl; [|reflexivity];
             destruct (digest_eqb d e) eqn:E; simpl; [|reflexivity];
             by apply digest_eqb_true in E
         end.
  - simpl. destruct (Z.eqb_spec (Size ef) 0) as [E|E]; simpl; [|reflexivity].
    destruct (Z.eqb_spec (Size f) 0) as [E'|E']; simpl; congruence.
Qed.

Lemma stored_is_not_new (w : World) (fp x : nat) (f : Fingerprint) :
  fps_ok w -> fps (heap w) !! fp = Some f -> hasID (fp_cache f) = false ->
  x ∈ Fingerprints (store w) ->
  x <> fp /\ exists xf, fps (heap w) !! x = Some xf.
Proof.
  intros (F1 & _) Hf Hid Hx.
  apply list_elem_of_lookup in Hx as [i Hi].
  destruct (F1 i x Hi) as (xf & Hxf & Hc).
  split; [|eauto]. intros ->. rewrite Hf in Hxf. injection Hxf as <-.
  rewrite Hc in Hid. discriminate.
Qed.

Lemma Fingerprint_Is_stored (w : World) (fp x : nat) (f xf : Fingerprint) :
  fps_ok w -> fps (heap w) !! fp = Some f -> hasID (fp_cache f) = false ->
  x ∈ Fingerprints (store w) -> fps (heap w) !! x = Some xf ->
  Fingerprint_Is (fps (heap w)) x fp = Some (Is_values xf f).
Proof.
  intros Hok Hf Hid Hx Hxf.
  destruct (stored_is_not_new w fp x f Hok Hf Hid Hx) as [Hne _].
  unfold Fingerprint_Is. rewrite Hxf, Hf. simpl. by rewrite decide_False.
Qed.

(** The git-sha of [fp] is indexed: the indexed entry absorbs [fp]. *)
Lemma PutFingerprint_indexed (w : World) (fp i e : nat) (f : Fingerprint) :
  fps_ok w -> fps (heap w) !! fp = Some f -> hasID (fp_cache f) = false ->
  gitSHAIndex (store w) !! GitSHA f = Some i ->
  Fingerprints (store w) !! i = Some e ->
  exists ef, fps (heap w) !! e = Some ef /\
             PutFingerprint w fp = Some (e, merged_into w e ef f).
Proof.
  intros Hok Hf Hid Hix He. pose proof Hok as (F1 & _ & F3).
  destruct (F1 i e He) as (ef & Hef & _). exists ef. split; [done|].
  destruct (F3 _ _ Hix) as [_ Hb].
  unfold PutFingerprint. rewrite Hf. simpl. unfold IsCached. rewrite Hid.
  rewrite (GetFingerprintByGitSHA_indexed _ _ _ _ Hb Hix He). simpl.
  by rewrite Hef.
Qed.

(** The git-sha of [fp] is not indexed and [e] is the first stored entry
    equivalent to [fp]: [e] absorbs [fp]. *)
Lemma PutFingerprint_scanned (w : World) (fp e : nat) (f ef : Fingerprint) (l1 l2 : list nat) :
  fps_ok w -> fps (heap w) !! fp = Some f -> hasID (fp_cache f) = false ->
  gitSHAIndex (store w) !! GitSHA f = None ->
  Fingerprints (store w) = l1 ++ e :: l2 ->
  fps (heap w) !! e = Some ef -> equivalent ef f ->
  (forall x xf, x ∈ l1 -> fps (heap w) !! x = Some xf -> ~ equivalent xf f) ->
  PutFingerprint w fp = Some (e, merged_into w e ef f).
Proof.
  intros Hok Hf Hid Hix Hl Hef Heq Hfirst.
  unfold PutFingerprint. rewrite Hf. simpl. unfold IsCached. rewrite Hid.
  rewrite (GetFingerprintByGitSHA_unindexed _ _ Hix). simpl.
  assert (Hfind : find_Is (fps (heap w)) (Fingerprints (store w)) fp = Some (Some e)).
  { apply find_Is_Some. exists l1, l2. split; [done|]. split.
    - rewrite (Fingerprint_Is_stored w fp e f ef) by (try done; rewrite Hl; set_solver).
      f_equal. by apply Is_values_equivalent.
    - apply Forall_forall. intros x Hx.
      assert (Hin : x ∈ Fingerprints (store w)) by (rewrite Hl; set_solver).
      destruct (stored_is_not_new w fp x f Hok Hf Hid Hin) as [_ [xf Hxf]].
      rewrite (Fingerprint_Is_stored w fp x f xf) by done.
      f_equal. apply not_true_is_false. rewrite Is_values_equivalent. by eapply Hfirst. }
  rewrite Hfind. simpl. by rewrite Hef.
Qed.

(** The git-sha of [fp] is not indexed and no stored entry is equivalent
    to [fp]: [fp] becomes the next entry. *)
Lemma PutFingerprint_inserted (w : World) (fp : nat) (f : Fingerprint) :
  fps_ok w -> fps (heap w) !! fp = Some f -> hasID (fp_cache f) = false ->
  gitSHAIndex (store w) !! GitSHA f = None ->
  (forall x xf, x ∈ Fingerprints (store w) -> fps (heap w) !! x = Some xf ->
                ~ equivalent xf f) ->
  exists w', PutFingerprint w fp = Some (fp, w') /\
    Fingerprints (store w') = Fingerprints (store w) ++ [fp] /\
    fps (heap w') = <[fp := fp_SetCacheID f (length (Fingerprints (store w)))]> (fps (heap w)) /\
    gitSHAIndex (store w') !! GitSHA f = Some (length (Fingerprints (store w))) /\
    bloom_Contains (gitSHAFilter (store w')) (GitSHA f) = true.
Proof.
  intros Hok Hf Hid Hix Hnone.
  unfold PutFingerprint. rewrite Hf. simpl. unfold IsCached. rewrite Hid.
  rewrite (GetFingerprintByGitSHA_unindexed _ _ Hix). simpl.
  assert (Hfind : find_Is (fps (heap w)) (Fingerprints (store w)) fp = Some None).
  { apply find_Is_None, Forall_forall. intros x Hx.
    destruct (stored_is_not_new w fp x f Hok Hf Hid Hx) as [_ [xf Hxf]].
    rewrite (Fingerprint_Is_stored w fp x f xf) by done.
    f_equal. apply not_true_is_false. rewrite Is_values_equivalent. by eapply Hnone. }
  rewrite Hfind. simpl. eexists. split; [reflexivity|]. simpl.
  split; [done|]. split; [done|]. split; [apply lookup_insert_eq|].
  apply bloom_Contains_Add_same.
Qed.

(** C1, as the code has it, for a fingerprint [fp] that is not interned
    yet, on a state reached by put operations:
    - when the git-sha of [fp] is non-zero and in the git-sha index, the
      indexed entry absorbs [fp] and is returned;
    - when the git-sha of [fp] is not in the index, the first stored entry
      that shares a populated digest with [fp] and whose size is compatible
      with that of [fp] absorbs [fp] and is returned;
    - when the git-sha is not in the index and there is no such entry, [fp]
      gets the next id, is appended, indexed under its git-sha and added to
      the Bloom filter, and is returned;
    - absorbing fills the zero digests (and a zero size) of the entry and
      leaves every populated digest as it was. *)
Theorem PutFingerprint_merges_or_inserts (w : World) (fp : nat) (f : Fingerprint) :
  reachable w -> fps (heap w) !! fp = Some f -> hasID (fp_cache f) = false ->
  (IsZero (GitSHA f) = false ->
   forall i e, gitSHAIndex (store w) !! GitSHA f = Some i ->
               Fingerprints (store w) !! i = Some e ->
     exists ef, fps (heap w) !! e = Some ef /\
                PutFingerprint w fp = Some (e, merged_into w e ef f)) /\
  (gitSHAIndex (store w) !! GitSHA f = None ->
   forall l1 e l2 ef,
     Fingerprints (store w) = l1 ++ e :: l2 ->
     fps (heap w) !! e = Some ef -> equivalent ef f ->
     (forall x xf, x ∈ l1 -> fps (heap w) !! x = Some xf -> ~ equivalent xf f) ->
     PutFingerprint w fp = Some (e, merged_into w e ef f)) /\
  (gitSHAIndex (store w) !! GitSHA f = None ->
   (forall x xf, x ∈ Fingerprints (store w) -> fps (heap w) !! x = Some xf ->
                 ~ equivalent xf f) ->
   exists w', PutFingerprint w fp = Some (fp, w') /\
     Fingerprints (store w') = Fingerprints (store w) ++ [fp] /\
     fps (heap w') = <[fp := fp_SetCacheID f (length (Fingerprints (store w)))]> (fps (heap w)) /\
     gitSHAIndex (store w') !! GitSHA f = Some (length (Fingerprints (store w))) /\
     bloom_Contains (gitSHAFilter (store w')) (GitSHA f) = true) /\
  (forall ef,
     (forall k, digest_of k (UpdateWith ef f).1 =
                if IsZero (digest_of k ef) then digest_of k f else digest_of k ef) /\
     Size (UpdateWith ef f).1 = (if Size ef =? 0 then Size f else Size ef) /\
     fp_cache (UpdateWith ef f).1 = fp_cache ef).
Proof.
  intros Hw Hf Hid. destruct (reachable_Inv w Hw) as (Hok & _).
  split; [|split; [|split]].
  - intros _ i e. by apply PutFingerprint_indexed.
  - intros Hix l1 e l2 ef. by apply PutFingerprint_scanned.
  - by apply PutFingerprint_inserted.
  - intros ef. apply UpdateWith_fills_only_missing.
Qed.

Example world1_before_put :
  Fingerprints (store world1) = [0; 1]%nat /\
  fps (heap world1) !! 0%nat = Some (fp_SetCacheID (partial_fp sample_git sample_md5 sample_sha256 3) 0) /\
  gitSHAIndex (store world1) !! no_git = None /\
  gitSHAIndex (store world1) !! sample_git = Some 0%nat.
Proof. vm_compute. repeat split; reflexivity. Qed.

(** On the example state: fingerprint 5 is absorbed through the index,
    fingerprint 2 through the scan, fingerprint 4 is inserted. *)
Lemma PutFingerprint_merges_or_inserts_witness :
  let e0 := fp_SetCacheID (partial_fp sample_git sample_md5 sample_sha256 3) 0 in
  PutFingerprint world1 5 =
    Some (0%nat, merged_into world1 0 e0 (partial_fp sample_git no_md5 no_sha256 0)) /\
  PutFingerprint world1 2 =
    Some (0%nat, merged_into world1 0 e0 (partial_fp no_git sample_md5 sample_sha256 3)) /\
  (exists w', PutFingerprint world1 4 = Some (4%nat, w') /\
              Fingerprints (store w') = [0; 1; 4]%nat).
Proof.
  intros e0. split; [|split].
  - destruct (PutFingerprint_merges_or_inserts world1 5
                (partial_fp sample_git no_md5 no_sha256 0) reachable_world1)
      as (Ha & _); [vm_compute; reflexivity | reflexivity |].
    destruct (Ha eq_refl 0%nat 0%nat) as (ef & Hef & Hput);
      [vm_compute; reflexivity | vm_compute; reflexivity |].
    assert (ef = e0) as -> by (vm_compute in Hef; by injection Hef as <-).
    exact Hput.
  - destruct (PutFingerprint_merges_or_inserts world1 2
                (partial_fp no_git sample_md5 sample_sha256 3) reachable_world1)
      as (_ & Hb & _); [vm_compute; reflexivity | reflexivity |].
    apply (Hb ltac:(vm_compute; reflexivity) [] 0%nat [1%nat] e0);
      [vm_compute; reflexivity | vm_compute; reflexivity | |].
    + split; [right; right; reflexivity | exists KMD5; split; reflexivity].
    + intros x xf Hx. by apply elem_of_nil in Hx.
  - destruct (PutFingerprint_merges_or_inserts world1 4
                (partial_fp no_git (replicate 16 99) no_sha256 0) reachable_world1)
      as (_ & _ & Hc & _); [vm_compute; reflexivity | reflexivity |].
    destruct Hc as (w' & Hput & Hl & _); [vm_compute; reflexivity | |].
    + intros x xf Hx Hxf [_ (k & Hz & He)].
      change (Fingerprints (store world1)) with [0%nat; 1%nat] in Hx.
      apply elem_of_cons in Hx as [->|Hx];
        [|apply elem_of_cons in Hx as [->|Hx]; [|by apply elem_of_nil in Hx]].
      all: vm_compute in Hxf; injection Hxf as <-.
      all: destruct k; vm_compute in Hz; vm_compute in He; congruence.
    + exists w'. split; [exact Hput|]. rewrite Hl. reflexivity.
Defined.

(** C1 as stated fails: fingerprint 3 has a zero git-sha and the populated
    md5 of the stored fingerprint 0, and the index has no entry for the zero
    git-sha; the sizes are 5 and 3, so the store appends fingerprint 3 as a
    new entry and leaves fingerprint 0 as it was. *)
Lemma PutFingerprint_inserts_despite_shared_digest :
  exists e0 f3 w',
    fps (heap world1) !! 0%nat = Some e0 /\ 0%nat ∈ Fingerprints (store world1) /\
    fps (heap world1) !! 3%nat = Some f3 /\
    IsZero (GitSHA f3) = true /\ IsZero (MD5 f3) = false /\ MD5 f3 = MD5 e0 /\
    gitSHAIndex (store world1) !! GitSHA f3 = None /\
    PutFingerprint world1 3 = Some (3%nat, w') /\
    Fingerprints (store w') = [0; 1; 3]%nat /\
    fps (heap w') !! 0%nat = Some e0.
Proof.
  destruct (PutFingerprint world1 3) as [[r w']|] eqn:E; [|vm_compute in E; discriminate E].
  exists (fp_SetCacheID (partial_fp sample_git sample_md5 sample_sha256 3) 0),
    (partial_fp no_git sample_md5 no_sha256 5), w'.
  vm_compute in E. injection E as <- <-.
  vm_compute. repeat split; try reflexivity. apply list_elem_of_here.
Qed.

(** The case the theorem above leaves out: once an entry with a zero git-sha
    is stored (fingerprint 3), the index has an entry for the zero git-sha,
    and a fingerprint with a zero git-sha that shares nothing with it
    (fingerprint 4) is absorbed by that entry. *)
Example zero_git_sha_is_indexed :
  let w := after world1 (PutFingerprint world1 3) in
  gitSHAIndex (store w) !! no_git = Some 2%nat /\
  fst <$> PutFingerprint w 4 = Some 3%nat /\
  Fingerprints (store (after w (PutFingerprint w 4))) = [0; 1; 3]%nat.
Proof. vm_compute. repeat split; reflexivity. Qed.

(** ** Serialization: generic facts about [mapM] *)

Lemma mapM_lookup_inv {A B : Type} (f : A -> option B) (l : list A) (k : list B)
    (i : nat) (y : B) :
  mapM f l = Some k -> k !! i = Some y -> exists x, l !! i = Some x /\ f x = Some y.
Proof.
  intros H Hk. apply mapM_Some_1 in H.
  destruct (Forall2_lookup_r _ _ _ _ _ H Hk) as (x & Hx & Hfx). eauto.
Qed.

Lemma mapM_Some_length {A B : Type} (f : A -> option B) (l : list A) (k : list B) :
  mapM f l = Some k -> length k = length l.
Proof. intros H. apply mapM_Some_1, Forall2_length in H. done. Qed.

Lemma mapM_defined {A B : Type} (f : A -> option B) (l : list A) :
  (forall i x, l !! i = Some x -> is_Some (f x)) -> exists k, mapM f l = Some k.
Proof.
  intros H. apply mapM_is_Some_2, Forall_lookup. intros i x Hx. by apply (H i).
Qed.

Lemma mapM_transfer {A B C : Type} (f : A -> option B) (g : A -> option C) (pi : B -> C)
    (l : list A) (k : list B) :
  mapM f l = Some k ->
  (forall i x y, l !! i = Some x -> f x = Some y -> g x = Some (pi y)) ->
  mapM g l = Some (map pi k).
Proof.
  intros H Hfg. apply mapM_Some_1 in H.
  apply mapM_Some_2, Forall2_fmap_r, Forall2_same_length_lookup.
  split; [by eapply Forall2_length|].
  intros i x y Hx Hy. apply (Hfg i); [done|].
  by apply (Forall2_lookup_lr _ _ _ _ _ _ H Hx Hy).
Qed.

Lemma mapM_imap_transfer {A B C : Type} (f : nat * A -> option B) (g : A -> option C)
    (pi : B -> C) (l : list A) (k : list B) :
  mapM f (imap pair l) = Some k ->
  (forall i x y, l !! i = Some x -> f (i, x) = Some y -> g x = Some (pi y)) ->
  mapM g l = Some (map pi k).
Proof.
  intros H Hfg. apply mapM_Some_1 in H.
  apply mapM_Some_2, Forall2_fmap_r, Forall2_same_length_lookup.
  split; [apply Forall2_length in H; by rewrite length_imap in H|].
  intros i x y Hx Hy. apply (Hfg i); [done|].
  assert (Hi : imap pair l !! i = Some (i, x)) by (by rewrite list_lookup_imap, Hx).
  by apply (Forall2_lookup_lr _ _ _ _ _ _ H Hi Hy).
Qed.

Lemma map_mapM_defined {A B : Type} (f : A -> option B) (m : gmap string A) :
  (forall k a, m !! k = Some a -> is_Some (f a)) -> map_mapM f m = Some (omap f m).
Proof.
  unfold map_mapM.
  apply (map_fold_weak_ind
           (fun r m => (forall k a, m !! k = Some a -> is_Some (f a)) -> r = Some (omap f m))).
  - intros _. by rewrite omap_empty.
  - intros i x m' r Hi IH Hall.
    rewrite IH; simpl.
    + destruct (Hall i x (lookup_insert_eq _ _ _)) as [b Hb].
      rewrite Hb. simpl. by rewrite omap_insert, Hb.
    + intros k a Hk. apply (Hall k). rewrite lookup_insert_ne; [done|congruence].
Qed.

Lemma omap_agree {A B : Type} (f g : A -> option B) (m : gmap string A) :
  (forall k a, m !! k = Some a -> f a = g a) -> omap f m = omap g m.
Proof.
  intros H. apply map_eq. intros k. rewrite !lookup_omap.
  destruct (m !! k) as [a|] eqn:Hk; simpl; [by apply (H k)|done].
Qed.

Lemma omap_Some_id {A : Type} (f : A -> option A) (m : gmap string A) :
  (forall k a, m !! k = Some a -> f a = Some a) -> omap f m = m.
Proof.
  intros H. apply map_eq. intros k. rewrite lookup_omap.
  destruct (m !! k) as [a|] eqn:Hk; simpl; [by apply (H k)|done].
Qed.

(** ** Serialization: pointers, positions and cache ids agree *)

Lemma index_of_unique (l : list nat) (p j : nat) :
  l !! j = Some p -> (forall i, l !! i = Some p -> i = j) -> index_of p l = Some j.
Proof.
  intros Hj Huniq. unfold index_of.
  destruct (list_find (fun q => q = p) l) as [[i x]|] eqn:E; simpl.
  - apply list_find_Some in E as (Hi & -> & _). f_equal. by apply Huniq.
  - apply list_find_None in E. rewrite Forall_forall in E.
    exfalso. apply (E p); [by eapply list_elem_of_lookup_2 | done].
Qed.

Lemma stored_fingerprint_position (w : World) (q : nat) :
  fps_ok w -> q ∈ Fingerprints (store w) ->
  exists j, Fingerprints (store w) !! j = Some q /\
            index_of q (Fingerprints (store w)) = Some j /\
            fingerprint_id_of (heap w) (Some q) = Some j.
Proof.
  intros (F1 & _) Hq. apply list_elem_of_lookup in Hq as [j Hj].
  destruct (F1 j q Hj) as (f & Hf & Hc).
  exists j. split; [done|]. split.
  - apply index_of_unique; [done|]. intros i Hi.
    destruct (F1 i q Hi) as (f' & Hf' & Hc'). congruence.
  - unfold fingerprint_id_of. simpl. rewrite Hf. simpl. by rewrite Hc.
Qed.

Lemma stored_file_position (w : World) (q : nat) :
  files_ok w -> q ∈ Files (store w) ->
  exists j, Files (store w) !! j = Some q /\
            index_of q (Files (store w)) = Some j /\
            file_id_of (heap w) (Some q) = Some j.
Proof.
  intros (L1 & _) Hq. apply list_elem_of_lookup in Hq as [j Hj].
  destruct (L1 j q Hj) as (f & x & Hf & Hc & _).
  exists j. split; [done|]. split.
  - apply index_of_unique; [done|]. intros i Hi.
    destruct (L1 i q Hi) as (f' & x' & Hf' & Hc' & _). congruence.
  - unfold file_id_of. simpl. rewrite Hf. simpl. by rewrite Hc.
Qed.

Lemma interned_files_positions (w : World) (l : list (option nat)) :
  files_ok w -> interned_files (store w) l ->
  exists js, mapM (file_id_of (heap w)) l = Some js /\
             mapM (index_of_ptr (Files (store w))) l = Some js /\
             Forall (fun e => (e < length (Files (store w)))%nat) js.
Proof.
  intros Hok. induction 1 as [|e l (q & -> & Hq) _ (js & H1 & H2 & H3)].
  - exists []. by repeat split.
  - destruct (stored_file_position w q Hok Hq) as (j & Hj & Hix & Hid).
    exists (j :: js). split; [|split].
    + apply mapM_Some_2. apply mapM_Some_1 in H1. by constructor.
    + apply mapM_Some_2. apply mapM_Some_1 in H2. by constructor.
    + constructor; [by eapply lookup_lt_Some | done].
Qed.

(** ** Serialization: what [NewSerializedCache] writes *)

Lemma save_fingerprints (w : World) :
  fps_ok w ->
  exists k, mapM (ser_fingerprint (heap w)) (imap pair (Fingerprints (store w))) = Some k /\
    length k = length (Fingerprints (store w)) /\
    (forall i sf, k !! i = Some sf -> sf_ID sf = i) /\
    mapM (node_fingerprint (heap w)) (Fingerprints (store w)) =
      Some (map (fun sf => exported (sf_Fingerprint sf)) k).
Proof.
  intros (F1 & _).
  destruct (mapM_defined (ser_fingerprint (heap w)) (imap pair (Fingerprints (store w))))
    as [k Hk].
  { intros i [j p] Hx. rewrite list_lookup_imap in Hx.
    destruct (Fingerprints (store w) !! i) as [q|] eqn:E; simpl in Hx; [|discriminate].
    injection Hx as <- <-. destruct (F1 i q E) as (f & Hf & _).
    unfold ser_fingerprint. simpl. rewrite Hf. simpl. eauto. }
  exists k. split; [done|]. split; [|split].
  - rewrite (mapM_Some_length _ _ _ Hk). apply length_imap.
  - intros i sf Hsf. destruct (mapM_lookup_inv _ _ _ _ _ Hk Hsf) as ([j p] & Hx & Hfx).
    rewrite list_lookup_imap in Hx.
    destruct (Fingerprints (store w) !! i) as [q|]; simpl in Hx; [|discriminate].
    injection Hx as <- <-. unfold ser_fingerprint in Hfx. simpl in Hfx.
    destruct (fps (heap w) !! q); simpl in Hfx; [|discriminate]. by injection Hfx as <-.
  - eapply mapM_imap_transfer; [exact Hk|].
    intros i x y Hx Hfx. unfold ser_fingerprint in Hfx. unfold node_fingerprint.
    simpl in Hfx. destruct (fps (heap w) !! x); simpl in *; [|discriminate].
    by injection Hfx as <-.
Qed.

Lemma save_files (w : World) :
  fps_ok w -> files_ok w ->
  exists k, mapM (ser_file (heap w)) (Files (store w)) = Some k /\
    length k = length (Files (store w)) /\
    (forall i sf, k !! i = Some sf ->
       sfile_ID sf = i /\ (sfile_Fingerprint sf < length (Fingerprints (store w)))%nat) /\
    mapM (node_file (heap w) (store w)) (Files (store w)) =
      Some (map (fun sf => (sfile_Path sf, sfile_Fingerprint sf)) k).
Proof.
  intros Hfp (L1 & L2).
  assert (Hpt : forall i p, Files (store w) !! i = Some p ->
            exists f q j, files (heap w) !! p = Some f /\ CacheID (file_cache f) = i /\
              File_Fingerprint f = Some q /\ (j < length (Fingerprints (store w)))%nat /\
              index_of_ptr (Fingerprints (store w)) (Some q) = Some j /\
              fingerprint_id_of (heap w) (Some q) = Some j).
  { intros i p Hi. destruct (L1 i p Hi) as (f & q & Hf & Hc & Hq & Hin).
    destruct (stored_fingerprint_position w q Hfp Hin) as (j & Hj & Hix & Hid).
    exists f, q, j. rewrite Hc. repeat split; try done. by eapply lookup_lt_Some. }
  destruct (mapM_defined (ser_file (heap w)) (Files (store w))) as [k Hk].
  { intros i p Hi. destruct (Hpt i p Hi) as (f & q & j & Hf & Hc & Hq & Hlt & Hix & Hid).
    unfold ser_file. rewrite Hf. simpl. rewrite Hq, Hid. simpl. eauto. }
  exists k. split; [done|]. split; [by apply mapM_Some_length in Hk|]. split.
  - intros i sf Hsf. destruct (mapM_lookup_inv _ _ _ _ _ Hk Hsf) as (p & Hi & Hfx).
    destruct (Hpt i p Hi) as (f & q & j & Hf & Hc & Hq & Hlt & Hix & Hid).
    unfold ser_file in Hfx. rewrite Hf in Hfx. simpl in Hfx. rewrite Hq, Hid in Hfx.
    simpl in Hfx. injection Hfx as <-. simpl. done.
  - eapply mapM_transfer; [exact Hk|].
    intros i p y Hi Hfx.
    destruct (Hpt i p Hi) as (f & q & j & Hf & Hc & Hq & Hlt & Hix & Hid).
    unfold ser_file in Hfx. unfold node_file. rewrite Hf in *. simpl in *.
    rewrite Hq in *. rewrite Hid in Hfx. simpl in *. rewrite Hix. simpl.
    by injection Hfx as <-.
Qed.

Lemma save_archives (w : World) :
  files_ok w -> archives_ok w ->
  exists k, mapM (ser_archive (heap w)) (imap pair (ArchiveFiles (store w))) = Some k /\
    length k = length (ArchiveFiles (store w)) /\
    (forall i sa, k !! i = Some sa ->
       sa_ID sa = i /\ (sa_File sa < length (Files (store w)))%nat /\
       Forall (fun e => (e < length (Files (store w)))%nat) (sa_Entries sa)) /\
    mapM (node_archive (heap w) (store w)) (ArchiveFiles (store w)) =
      Some (map (fun sa => (sa_File sa, sa_Entries sa)) k).
Proof.
  intros Hfl A1.
  assert (Hpt : forall i p, ArchiveFiles (store w) !! i = Some p ->
            exists a j js, archives (heap w) !! p = Some a /\
              (j < length (Files (store w)))%nat /\
              index_of_ptr (Files (store w)) (Archive_File a) = Some j /\
              file_id_of (heap w) (Archive_File a) = Some j /\
              mapM (file_id_of (heap w)) (Entries a) = Some js /\
              mapM (index_of_ptr (Files (store w))) (Entries a) = Some js /\
              Forall (fun e => (e < length (Files (store w)))%nat) js).
  { intros i p Hi. destruct (A1 i p Hi) as (a & q & Ha & Hc & Hq & Hin & Hent).
    destruct (stored_file_position w q Hfl Hin) as (j & Hj & Hix & Hid).
    destruct (interned_files_positions w _ Hfl Hent) as (js & H1 & H2 & H3).
    exists a, j, js. rewrite Hq. simpl. repeat split; try done. by eapply lookup_lt_Some. }
  destruct (mapM_defined (ser_archive (heap w)) (imap pair (ArchiveFiles (store w))))
    as [k Hk].
  { intros i [j p] Hx. rewrite list_lookup_imap in Hx.
    destruct (ArchiveFiles (store w) !! i) as [q|] eqn:E; simpl in Hx; [|discriminate].
    injection Hx as <- <-.
    destruct (Hpt i q E) as (a & j & js & Ha & Hlt & Hix & Hid & H1 & H2 & H3).
    unfold ser_archive. simpl. rewrite Ha. simpl. rewrite Hid. simpl. rewrite H1. simpl.
    eauto. }
  exists k. split; [done|]. split; [|split].
  - rewrite (mapM_Some_length _ _ _ Hk). apply length_imap.
  - intros i sa Hsa. destruct (mapM_lookup_inv _ _ _ _ _ Hk Hsa) as ([j' p] & Hx & Hfx).
    rewrite list_lookup_imap in Hx.
    destruct (ArchiveFiles (store w) !! i) as [q|] eqn:E; simpl in Hx; [|discriminate].
    injection Hx as <- <-.
    destruct (Hpt i q E) as (a & j & js & Ha & Hlt & Hix & Hid & H1 & H2 & H3).
    unfold ser_archive in Hfx. simpl in Hfx. rewrite Ha in Hfx. simpl in Hfx.
    rewrite Hid in Hfx. simpl in Hfx. rewrite H1 in Hfx. simpl in Hfx.
    injection Hfx as <-. simpl. done.
  - eapply mapM_imap_transfer; [exact Hk|].
    intros i p y Hi Hfx.
    destruct (Hpt i p Hi) as (a & j & js & Ha & Hlt & Hix & Hid & H1 & H2 & H3).
    unfold ser_archive in Hfx. unfold node_archive. simpl in Hfx. rewrite Ha in *.
    simpl in *. rewrite Hid in Hfx. simpl in Hfx. rewrite H1 in Hfx. simpl in Hfx.
    rewrite Hix. simpl. rewrite H2. simpl. by injection Hfx as <-.
Qed.

Lemma save_repos (w : World) :
  files_ok w -> repos_ok w ->
  exists k, mapM (ser_repo (heap w)) (GitRepoSources (store w)) = Some k /\
    (forall i sr, k !! i = Some sr ->
       Forall (fun e => (e < length (Files (store w)))%nat) (sr_Files sr)) /\
    mapM (node_repo (heap w) (store w)) (GitRepoSources (store w)) =
      Some (map (fun sr => (sr_Commit sr, sr_Tag sr, sr_Branch sr, sr_URL sr, sr_Files sr)) k).
Proof.
  intros Hfl R1.
  assert (Hpt : forall i p, GitRepoSources (store w) !! i = Some p ->
            exists g js, repos (heap w) !! p = Some g /\
              mapM (file_id_of (heap w)) (Repo_Files g) = Some js /\
              mapM (index_of_ptr (Files (store w))) (Repo_Files g) = Some js /\
              Forall (fun e => (e < length (Files (store w)))%nat) js).
  { intros i p Hi. destruct (R1 i p Hi) as (g & Hg & Hc & Hent).
    destruct (interned_files_positions w _ Hfl Hent) as (js & H1 & H2 & H3).
    exists g, js. by repeat split. }
  destruct (mapM_defined (ser_repo (heap w)) (GitRepoSources (store w))) as [k Hk].
  { intros i p Hi. destruct (Hpt i p Hi) as (g & js & Hg & H1 & H2 & H3).
    unfold ser_repo. rewrite Hg. simpl. rewrite H1. simpl. eauto. }
  exists k. split; [done|]. split.
  - intros i sr Hsr. destruct (mapM_lookup_inv _ _ _ _ _ Hk Hsr) as (p & Hi & Hfx).
    destruct (Hpt i p Hi) as (g & js & Hg & H1 & H2 & H3).
    unfold ser_repo in Hfx. rewrite Hg in Hfx. simpl in Hfx. rewrite H1 in Hfx.
    simpl in Hfx. by injection Hfx as <-.
  - eapply mapM_transfer; [exact Hk|].
    intros i p y Hi Hfx. destruct (Hpt i p Hi) as (g & js & Hg & H1 & H2 & H3).
    unfold ser_repo in Hfx. unfold node_repo. rewrite Hg in *. simpl in *.
    rewrite H1 in Hfx. rewrite H2. simpl in *. by injection Hfx as <-.
Qed.

Lemma save_stat (w : World) :
  fps_ok w -> stat_ok w ->
  exists m, map_mapM (fun p => fingerprint_id_of (heap w) (Some p)) (statCache (store w))
              = Some m /\
    (forall k id, m !! k = Some id -> (id < length (Fingerprints (store w)))%nat) /\
    map_mapM (fun p => index_of p (Fingerprints (store w))) (statCache (store w)) = Some m.
Proof.
  intros Hfp S1.
  assert (Hpt : forall k p, statCache (store w) !! k = Some p ->
            exists j, (j < length (Fingerprints (store w)))%nat /\
              index_of p (Fingerprints (store w)) = Some j /\
              fingerprint_id_of (heap w) (Some p) = Some j).
  { intros k p Hk. destruct (stored_fingerprint_position w p Hfp (S1 k p Hk))
      as (j & Hj & Hix & Hid). exists j. repeat split; try done. by eapply lookup_lt_Some. }
  exists (omap (fun p => fingerprint_id_of (heap w) (Some p)) (statCache (store w))).
  split; [|split].
  - apply map_mapM_defined. intros k p Hk.
    destruct (Hpt k p Hk) as (j & _ & _ & ->). eauto.
  - intros k id. rewrite lookup_omap.
    destruct (statCache (store w) !! k) as [p|] eqn:Hk; simpl; [|discriminate].
    destruct (Hpt k p Hk) as (j & Hlt & _ & ->). by intros [= <-].
  - rewrite map_mapM_defined.
    + f_equal. apply omap_agree. intros k p Hk.
      destruct (Hpt k p Hk) as (j & _ & -> & ->). done.
    + intros k p Hk. destruct (Hpt k p Hk) as (j & _ & -> & _). eauto.
Qed.

(** On a state that satisfies the invariant, [NewSerializedCache] succeeds,
    its result is well formed, and it spells out the graph of the state. *)
Lemma NewSerializedCache_graph (w : World) :
  Inv w ->
  exists onDisk, NewSerializedCache w = Some onDisk /\ serialized_ok onDisk /\
                 graph_of w = Some (graph_of_serialized onDisk).
Proof.
  intros (Hfp & Hfl & Har & Hre & Hst).
  destruct (save_fingerprints w Hfp) as (k1 & E1 & N1 & W1 & G1).
  destruct (save_files w Hfp Hfl) as (k2 & E2 & N2 & W2 & G2).
  destruct (save_archives w Hfl Har) as (k3 & E3 & N3 & W3 & G3).
  destruct (save_repos w Hfl Hre) as (k4 & E4 & W4 & G4).
  destruct (save_stat w Hfp Hst) as (k5 & E5 & W5 & G5).
  exists (mkSerializedCache k1 k2 k3 k4 k5). split; [|split].
  - unfold NewSerializedCache. simpl. rewrite E1. simpl. rewrite E2. simpl.
    rewrite E3. simpl. rewrite E4. simpl. rewrite E5. reflexivity.
  - unfold serialized_ok. simpl. rewrite N1, N2.
    exact (conj W1 (conj W2 (conj W3 (conj W4 W5)))).
  - unfold graph_of. simpl. rewrite G1. simpl. rewrite G2. simpl.
    rewrite G3. simpl. rewrite G4. simpl. rewrite G5. reflexivity.
Qed.

(** ** Serialization: what [loadSerializedCache] builds *)

Lemma load_fingerprints_ok (id : nat) (l : list SerializedFingerprint) :
  (forall k sf, l !! k = Some sf -> sf_ID sf = (id + k)%nat) ->
  load_fingerprints id l =
  LoadOk (imap (fun k sf => fp_SetCacheID (sf_Fingerprint sf) (id + k)) l).
Proof.
  revert id. induction l as [|sf l IH]; intros id H; simpl; [reflexivity|].
  rewrite decide_True by (rewrite (H 0%nat sf eq_refl); lia).
  rewrite (IH (S id)) by (intros k sf' Hk; rewrite (H (S k) sf' Hk); lia).
  rewrite Nat.add_0_r. do 2 f_equal.
  apply imap_ext. intros k x _. simpl. f_equal. lia.
Qed.

Lemma load_files_ok (n id : nat) (l : list SerializedFile) :
  (forall k sf, l !! k = Some sf ->
     sfile_ID sf = (id + k)%nat /\ (sfile_Fingerprint sf < n)%nat) ->
  load_files (seq 0 n) id l =
  LoadOk (imap (fun k sf => mkFile (sfile_Path sf) (Some (sfile_Fingerprint sf))
                              (mkCacheID (id + k) true)) l).
Proof.
  revert id. induction l as [|sf l IH]; intros id H; simpl; [reflexivity|].
  destruct (H 0%nat sf eq_refl) as [Hid Hlt].
  rewrite decide_True by lia. rewrite lookup_seq_lt by done. simpl.
  rewrite (IH (S id)).
  - rewrite Nat.add_0_r. do 2 f_equal.
    apply imap_ext. intros k x _. simpl. do 2 f_equal. lia.
  - intros k sf' Hk. destruct (H (S k) sf' Hk). split; [lia|done].
Qed.

Lemma mapM_lookup_seq (m : nat) (es : list nat) :
  Forall (fun e => (e < m)%nat) es -> mapM (fun e => seq 0 m !! e) es = Some es.
Proof.
  intros H. apply mapM_Some_2. induction H as [|e es He _ IH]; constructor; [|done].
  by rewrite lookup_seq_lt.
Qed.

Lemma load_archives_ok (m id : nat) (l : list SerializedArchiveFile) :
  (forall k sa, l !! k = Some sa ->
     sa_ID sa = (id + k)%nat /\ (sa_File sa < m)%nat /\
     Forall (fun e => (e < m)%nat) (sa_Entries sa)) ->
  load_archives (seq 0 m) id l =
  LoadOk (imap (fun k sa => mkArchiveFile (Some (sa_File sa)) (map Some (sa_Entries sa))
                              (mkCacheID (id + k) true)) l).
Proof.
  revert id. induction l as [|sa l IH]; intros id H; simpl; [reflexivity|].
  destruct (H 0%nat sa eq_refl) as (Hid & Hlt & Hent).
  rewrite decide_True by lia. rewrite (mapM_lookup_seq _ _ Hent).
  rewrite lookup_seq_lt by done. simpl.
  rewrite (IH (S id)).
  - rewrite Nat.add_0_r. do 2 f_equal.
    apply imap_ext. intros k x _. simpl. do 2 f_equal. lia.
  - intros k sa' Hk. destruct (H (S k) sa' Hk) as (? & ? & ?). split; [lia|done].
Qed.

Lemma load_repos_ok (m id : nat) (l : list SerializedGitRepo) :
  (forall k sr, l !! k = Some sr -> Forall (fun e => (e < m)%nat) (sr_Files sr)) ->
  load_repos (seq 0 m) id l =
  LoadOk (imap (fun k sr => mkGitRepoSource (sr_Commit sr) (sr_Tag sr) (sr_Branch sr)
                              (sr_URL sr) (map Some (sr_Files sr))
                              (mkCacheID (id + k) true)) l).
Proof.
  revert id. induction l as [|sr l IH]; intros id H; simpl; [reflexivity|].
  rewrite (mapM_lookup_seq _ _ (H 0%nat sr eq_refl)).
  rewrite (IH (S id)) by (intros k sr' Hk; apply (H (S k) sr' Hk)).
  rewrite Nat.add_0_r. do 2 f_equal.
  apply imap_ext. intros k x _. simpl. do 2 f_equal. lia.
Qed.

Lemma index_of_seq (n q : nat) : (q < n)%nat -> index_of q (seq 0 n) = Some q.
Proof.
  intros H. apply index_of_unique; [by rewrite lookup_seq_lt|].
  intros i Hi. apply lookup_seq in Hi as [-> _]. done.
Qed.

Lemma mapM_index_of_seq (m : nat) (es : list nat) :
  Forall (fun e => (e < m)%nat) es ->
  mapM (index_of_ptr (seq 0 m)) (map Some es) = Some es.
Proof.
  intros H. apply mapM_Some_2. induction H as [|e es He _ IH]; constructor; [|done].
  by apply index_of_seq.
Qed.

(** A [mapM] over the slice of a loaded store reads the objects in
    allocation order. *)
Lemma mapM_over_objects {A B : Type} (objs : list A) (F : A -> option B)
    (G : nat -> option B) (k : list B) :
  (forall p, G p = (map_seq 0 objs : gmap nat A) !! p ≫= F) ->
  Forall2 (fun a b => F a = Some b) objs k ->
  mapM G (seq 0 (length objs)) = Some k.
Proof.
  intros HG H. apply mapM_Some_2, Forall2_same_length_lookup.
  split; [rewrite length_seq; by eapply Forall2_length|].
  intros i x y Hx Hy. apply lookup_seq in Hx as [-> Hlt]. simpl.
  rewrite HG, lookup_map_seq_0.
  destruct (lookup_lt_is_Some_2 objs i Hlt) as [a Ha]. rewrite Ha. simpl.
  by apply (Forall2_lookup_lr _ _ _ _ _ _ H Ha Hy).
Qed.

Lemma Forall2_imap_map {A B C : Type} (F : B -> option C) (f : nat -> A -> B) (g : A -> C)
    (l : list A) :
  (forall i x, l !! i = Some x -> F (f i x) = Some (g x)) ->
  Forall2 (fun a b => F a = Some b) (imap f l) (map g l).
Proof.
  intros H. apply Forall2_same_length_lookup.
  split; [by rewrite length_imap, length_map|].
  intros i a b Ha Hb. rewrite list_lookup_imap in Ha. rewrite list_lookup_fmap in Hb.
  destruct (l !! i) as [x|] eqn:Hx; simpl in *; [|discriminate].
  injection Ha as <-. injection Hb as <-. by apply (H i).
Qed.

Lemma loaded_ids (A : Type) (c : A -> embeddedCacheID) (objs : list A) :
  (forall i a, objs !! i = Some a -> CacheID (c a) = i) ->
  forall id p, seq 0 (length objs) !! id = Some p ->
    exists a, (map_seq 0 objs : gmap nat A) !! p = Some a /\ CacheID (c a) = id.
Proof.
  intros H id p Hp. apply lookup_seq in Hp as [-> Hlt]. simpl.
  rewrite lookup_map_seq_0.
  destruct (lookup_lt_is_Some_2 objs id Hlt) as [a Ha]. eauto.
Qed.

Lemma imap_ids {A B : Type} (c : B -> embeddedCacheID) (f : nat -> A -> B) (l : list A) :
  (forall i x, CacheID (c (f i x)) = i) ->
  forall i b, imap f l !! i = Some b -> CacheID (c b) = i.
Proof.
  intros H i b Hb. rewrite list_lookup_imap in Hb.
  destruct (l !! i) as [x|]; simpl in Hb; [|discriminate]. by injection Hb as <-.
Qed.

(** Loading a well-formed serialized cache succeeds; the loaded store
    denotes the graph the serialized cache spells out, and [Verify]
    accepts it. *)
Lemma loadSerializedCache_graph (hashes : digest -> list nat) (onDisk : SerializedCache) :
  serialized_ok onDisk ->
  exists w', loadSerializedCache hashes onDisk = LoadOk w' /\
             graph_of w' = Some (graph_of_serialized onDisk) /\
             Verify w' = Some None.
Proof.
  intros (W1 & W2 & W3 & W4 & W5).
  unfold loadSerializedCache.
  rewrite load_fingerprints_ok by (intros k sf Hk; by rewrite (W1 k sf Hk)).
  rewrite !length_imap.
  rewrite load_files_ok by (intros k sf Hk; by destruct (W2 k sf Hk)).
  rewrite !length_imap.
  rewrite load_archives_ok by (intros k sa Hk; by destruct (W3 k sa Hk) as (? & ? & ?)).
  rewrite load_repos_ok by exact W4.
  rewrite !length_imap.
  rewrite (map_mapM_defined (fun id => seq 0 (length (sc_Fingerprints onDisk)) !! id))
    by (intros k id Hk; rewrite lookup_seq_lt by (by eapply W5); eauto).
  rewrite (omap_Some_id (fun id => seq 0 (length (sc_Fingerprints onDisk)) !! id))
    by (intros k id Hk; by rewrite lookup_seq_lt by (by eapply W5)).
  eexists. split; [reflexivity|]. split.
  - unfold graph_of, graph_of_serialized. simpl.
    set (fobjs := imap _ (sc_Fingerprints onDisk)).
    set (flobjs := imap _ (sc_Files onDisk)).
    set (aobjs := imap _ (sc_Archives onDisk)).
    set (robjs := imap _ (sc_Repos onDisk)).
    set (h := mkHeap _ _ _ _). set (v := mkCache _ _ _ _ _ _ _).
    assert (E1 : mapM (node_fingerprint h) (seq 0 (length (sc_Fingerprints onDisk))) =
                 Some (map (fun sf => exported (sf_Fingerprint sf)) (sc_Fingerprints onDisk))).
    { replace (length (sc_Fingerprints onDisk)) with (length fobjs)
        by apply length_imap.
      eapply mapM_over_objects; [intros p; reflexivity|].
      apply Forall2_imap_map. intros i x Hx. reflexivity. }
    assert (E2 : mapM (node_file h v) (seq 0 (length (sc_Files onDisk))) =
                 Some (map (fun sf => (sfile_Path sf, sfile_Fingerprint sf))
                         (sc_Files onDisk))).
    { replace (length (sc_Files onDisk)) with (length flobjs) by apply length_imap.
      eapply mapM_over_objects; [intros p; reflexivity|].
      apply Forall2_imap_map. intros i x Hx. simpl.
      destruct (W2 i x Hx) as [_ Hlt].
      change (index_of_ptr ?l (Some ?q)) with (index_of q l).
      by rewrite index_of_seq. }
    assert (E3 : mapM (node_archive h v) (seq 0 (length (sc_Archives onDisk))) =
                 Some (map (fun sa => (sa_File sa, sa_Entries sa)) (sc_Archives onDisk))).
    { replace (length (sc_Archives onDisk)) with (length aobjs) by apply length_imap.
      eapply mapM_over_objects; [intros p; reflexivity|].
      apply Forall2_imap_map. intros i x Hx. simpl.
      destruct (W3 i x Hx) as (_ & Hlt & Hent).
      change (index_of_ptr ?l (Some ?q)) with (index_of q l).
      rewrite index_of_seq by done. simpl.
      by rewrite mapM_index_of_seq. }
    assert (E4 : mapM (node_repo h v) (seq 0 (length (sc_Repos onDisk))) =
                 Some (map (fun sr => (sr_Commit sr, sr_Tag sr, sr_Branch sr, sr_URL sr,
                                       sr_Files sr)) (sc_Repos onDisk))).
    { replace (length (sc_Repos onDisk)) with (length robjs) by apply length_imap.
      eapply mapM_over_objects; [intros p; reflexivity|].
      apply Forall2_imap_map. intros i x Hx. simpl.
      by rewrite (mapM_index_of_seq _ _ (W4 i x Hx)). }
    rewrite E1. simpl. rewrite E2. simpl. rewrite E3. simpl. rewrite E4. simpl.
    rewrite (map_mapM_defined (fun p => index_of p (seq 0 (length (sc_Fingerprints onDisk)))))
      by (intros k id Hk; rewrite index_of_seq by (by eapply W5); eauto).
    rewrite (omap_Some_id (fun p => index_of p (seq 0 (length (sc_Fingerprints onDisk)))))
      by (intros k id Hk; by rewrite index_of_seq by (by eapply W5)).
    reflexivity.
  - apply Verify_ok_iff. unfold ids_consistent. simpl.
    split; [|split; [|split]].
    + intros id p Hp.
      rewrite <- (length_imap (fun k sf => fp_SetCacheID (sf_Fingerprint sf) (0 + k))) in Hp.
      revert id p Hp. apply (loaded_ids _ fp_cache).
      by apply (imap_ids fp_cache).
    + intros id p Hp.
      rewrite <- (length_imap (fun k sf => mkFile (sfile_Path sf) (Some (sfile_Fingerprint sf))
                                             (mkCacheID (0 + k) true))) in Hp.
      revert id p Hp. apply (loaded_ids _ file_cache).
      by apply (imap_ids file_cache).
    + intros id p Hp.
      rewrite <- (length_imap (fun k sa => mkArchiveFile (Some (sa_File sa))
                                  (map Some (sa_Entries sa)) (mkCacheID (0 + k) true))) in Hp.
      revert id p Hp. apply (loaded_ids _ archive_cache).
      by apply (imap_ids archive_cache).
    + intros id p Hp.
      rewrite <- (length_imap (fun k sr => mkGitRepoSource (sr_Commit sr) (sr_Tag sr)
                                  (sr_Branch sr) (sr_URL sr) (map Some (sr_Files sr))
                                  (mkCacheID (0 + k) true))) in Hp.
      revert id p Hp. apply (loaded_ids _ repo_cache).
      by apply (imap_ids repo_cache).
Qed.

Lemma exported_cache_ok (onDisk : SerializedCache) :
  serialized_ok onDisk ->
  serialized_ok (exported_cache onDisk) /\
  graph_of_serialized (exported_cache onDisk) = graph_of_serialized onDisk.
Proof.
  intros (W1 & W2 & W3 & W4 & W5). split.
  - unfold serialized_ok, exported_cache. simpl. rewrite length_map.
    split; [|done].
    intros i sf Hsf. rewrite list_lookup_fmap in Hsf.
    destruct (sc_Fingerprints onDisk !! i) as [x|] eqn:Hx; simpl in Hsf; [|discriminate].
    injection Hsf as <-. simpl. by apply W1.
  - unfold graph_of_serialized, exported_cache. simpl. f_equal.
    rewrite map_map. reflexivity.
Qed.

(** C2: a state reached by put operations is written out and read back
    (through the gob encoding in a Snappy stream or through YAML, given that
    the codec returns what it was handed up to the fields it skips and that
    both files can be created): the restored store denotes the same
    id-addressed graph as the original (the same fingerprints, files with
    the position of their fingerprint, archives with the positions of their
    file and of their entries in order, repositories, and stat-cache
    entries), and [Verify] accepts both. *)
Theorem persist_restore_roundtrip (c : Codec) (useGob : bool) (hashes : digest -> list nat)
    (can_create : string -> bool) (w : World) (disk : gmap string (wire c)) :
  codec_roundtrip c ->
  can_create "fingerprint.gob" = true -> can_create "fingerprint.yaml" = true ->
  reachable w ->
  exists disk' w',
    PersistRememberedObjects c can_create w disk = Some disk' /\
    RestoreRememberedObjects c useGob hashes disk' = Some (Some w') /\
    is_Some (graph_of w) /\ graph_of w' = graph_of w /\
    Verify w = Some None /\ Verify w' = Some None.
Proof.
  intros Hc Hgob Hyaml Hw.
  pose proof (reachable_Inv w Hw) as HI.
  assert (Hv : Verify w = Some None) by apply Verify_ok_iff, Inv_ids_consistent, HI.
  destruct (NewSerializedCache_graph w HI) as (onDisk & Hsave & Hok & Hgraph).
  destruct (exported_cache_ok onDisk Hok) as [Hok' Hsame].
  destruct (loadSerializedCache_graph hashes _ Hok') as (w' & Hload & Hgraph' & Hv').
  destruct (Hc onDisk) as [Hg Hy].
  eexists _, w'. split; [|split; [|split; [|split; [|split]]]].
  - unfold PersistRememberedObjects. rewrite Hv. simpl. rewrite Hsave. simpl.
    rewrite Hgob, Hyaml. reflexivity.
  - unfold RestoreRememberedObjects. destruct useGob.
    + rewrite lookup_insert_ne by done. rewrite lookup_insert_eq. simpl.
      rewrite Hg, Hload, Hv'. reflexivity.
    + rewrite lookup_insert_eq. simpl. rewrite Hy, Hload, Hv'. reflexivity.
  - rewrite Hgraph. eauto.
  - by rewrite Hgraph, Hgraph', Hsame.
  - exact Hv.
  - exact Hv'.
Qed.

Lemma sample_codec_roundtrip : codec_roundtrip sample_codec.
Proof. intros onDisk. split; reflexivity. Qed.

(** The example state with two fingerprints, two files, an archive, a
    repository and a stat-cache entry survives both encodings. *)
Lemma persist_restore_roundtrip_witness :
  (exists disk' w',
     PersistRememberedObjects sample_codec (fun _ => true) world3 ∅ = Some disk' /\
     RestoreRememberedObjects sample_codec true sample_hashes disk' = Some (Some w') /\
     is_Some (graph_of world3) /\ graph_of w' = graph_of world3 /\
     Verify world3 = Some None /\ Verify w' = Some None) /\
  (exists disk' w',
     PersistRememberedObjects sample_codec (fun _ => true) world3 ∅ = Some disk' /\
     RestoreRememberedObjects sample_codec false sample_hashes disk' = Some (Some w') /\
     is_Some (graph_of world3) /\ graph_of w' = graph_of world3 /\
     Verify world3 = Some None /\ Verify w' = Some None).
Proof.
  split.
  - exact (persist_restore_roundtrip sample_codec true sample_hashes (fun _ => true)
             world3 ∅ sample_codec_roundtrip eq_refl eq_refl reachable_world3).
  - exact (persist_restore_roundtrip sample_codec false sample_hashes (fun _ => true)
             world3 ∅ sample_codec_roundtrip eq_refl eq_refl reachable_world3).
Defined.

Example world3_graph :
  graph_of world3 =
  Some (mkGraph
          [partial_fp sample_git sample_md5 sample_sha256 3;
           partial_fp other_git other_md5 no_sha256 5]
          [("a.tar"%string, 0%nat); ("b.txt"%string, 1%nat)]
          [(0%nat, [1%nat])]
          [(sample_git, "v1"%string, ""%string, ""%string, [1%nat])]
          (<["3,16,rs"%string := 0%nat]> ∅)).
Proof. vm_compute. reflexivity. Qed.

(** ** Matchers and the hex form of a digest *)

Lemma fromHexChar_hexdigit (n : Z) : 0 <= n < 16 -> fromHexChar (hexdigit n) = Some n.
Proof.
  intros H. rewrite <- (Z2Nat.id n) by lia.
  assert (Z.to_nat n < 16)%nat as Hk by lia.
  revert Hk. generalize (Z.to_nat n) as k. intros k Hk.
  do 16 (destruct k as [|k]; [reflexivity|]). lia.
Qed.

Lemma hexdigit_not_upper (n : Z) : 0 <= n < 16 -> is_upper_hex (hexdigit n) = false.
Proof.
  intros H. rewrite <- (Z2Nat.id n) by lia.
  assert (Z.to_nat n < 16)%nat as Hk by lia.
  revert Hk. generalize (Z.to_nat n) as k. intros k Hk.
  do 16 (destruct k as [|k]; [reflexivity|]). lia.
Qed.

Lemma DecodeString_EncodeToString (d : digest) :
  is_bytes d -> DecodeString (EncodeToString d) = Some d.
Proof.
  induction 1 as [|b d Hb _ IH]; [reflexivity|].
  cbn [EncodeToString DecodeString].
  rewrite !fromHexChar_hexdigit, IH.
  - do 2 f_equal. pose proof (Z.div_mod b 16). lia.
  - apply Z.mod_pos_bound. lia.
  - split; [apply Z.div_pos; lia | apply Z.div_lt_upper_bound; lia].
Qed.

Lemma all_hex_EncodeToString (d : digest) : is_bytes d -> all_hex (EncodeToString d) = true.
Proof.
  induction 1 as [|b d Hb _ IH]; [reflexivity|].
  cbn [EncodeToString all_hex].
  rewrite !fromHexChar_hexdigit, IH.
  - reflexivity.
  - apply Z.mod_pos_bound. lia.
  - split; [apply Z.div_pos; lia | apply Z.div_lt_upper_bound; lia].
Qed.

Lemma bytesHasPrefix_prefix (s p : digest) : bytesHasPrefix s p = true <-> p `prefix_of` s.
Proof.
  revert s. induction p as [|x p IH]; intros s; simpl.
  - split; [intros _; apply prefix_nil | by destruct s].
  - destruct s as [|y s]; simpl.
    + split; [done | intros H; by apply prefix_nil_inv in H].
    + rewrite andb_true_iff, Z.eqb_eq, IH. split.
      * intros [-> H]. by apply prefix_cons.
      * intros H. split; [by apply prefix_cons_inv_1 in H | by apply prefix_cons_inv_2 in H].
Qed.

(** X1.  A matcher built from an algorithm and the hex form of some bytes
    is accepted, is compared byte by byte, and matches exactly the digests
    that start with those bytes; in particular the pattern made of a
    digest's own [String()] matches that digest. *)
Theorem matcher_of_hex_matches_prefix (algo : string) (b d : digest) :
  algo ∈ matcherTypes -> is_bytes b -> b <> [] ->
  exists m, NewDigestMatcher (algo ++ ":" ++ EncodeToString b) = Some m /\
            T m = algo /\ B m = Some b /\
            (DigestMatcher_Match m d = true <-> b `prefix_of` d).
Proof.
  intros Halgo Hb Hne.
  unfold NewDigestMatcher, FindStringSubmatch.
  rewrite (matcherTypes_cut _ _ Halgo).
  apply matcherTypes_existsb in Halgo. rewrite Halgo.
  rewrite (all_hex_EncodeToString _ Hb).
  assert (EncodeToString b <> EmptyString) as Hs by (destruct b; [done | discriminate]).
  destruct (String.eqb_spec (EncodeToString b) ""); [contradiction|].
  cbn [andb negb]. rewrite (DecodeString_EncodeToString _ Hb).
  eexists. split; [reflexivity|]. split; [reflexivity|]. split; [reflexivity|].
  unfold DigestMatcher_Match. cbn [B default from_option id].
  destruct (Nat.ltb_spec (length d) (length b)) as [Hlt|Hge].
  - split; [done|]. intros Hp. apply prefix_length in Hp. lia.
  - apply bytesHasPrefix_prefix.
Qed.

Lemma matcher_of_hex_matches_prefix_witness :
  exists m, NewDigestMatcher ("sha256" ++ ":" ++ EncodeToString sample_sha256) = Some m /\
            T m = "sha256"%string /\ B m = Some sample_sha256 /\
            (DigestMatcher_Match m sample_sha256 = true <-> sample_sha256 `prefix_of` sample_sha256).
Proof.
  apply (matcher_of_hex_matches_prefix "sha256" sample_sha256 sample_sha256).
  - unfold matcherTypes. set_solver.
  - unfold is_bytes, sample_sha256. repeat (constructor; [lia|]). constructor.
  - discriminate.
Defined.

Lemma prefix_chars (p s : string) (c : ascii) :
  String.prefix p s = true -> c ∈ list_ascii_of_string p -> c ∈ list_ascii_of_string s.
Proof.
  revert s. induction p as [|a p IH]; intros s Hp Hc.
  - by apply elem_of_nil in Hc.
  - destruct s as [|a' s]; simpl in *; [discriminate|].
    destruct (ascii_dec a a') as [->|Hne]; [|discriminate].
    apply elem_of_cons in Hc as [->|Hc]; [left | right; by apply IH].
Qed.

Lemma EncodeToString_lowercase (d : digest) (c : ascii) :
  is_bytes d -> c ∈ list_ascii_of_string (EncodeToString d) -> is_upper_hex c = false.
Proof.
  induction 1 as [|b d Hb _ IH]; simpl; intros Hc.
  - by apply elem_of_nil in Hc.
  - apply elem_of_cons in Hc as [->|Hc].
    { apply hexdigit_not_upper.
      split; [apply Z.div_pos; lia | apply Z.div_lt_upper_bound; lia]. }
    apply elem_of_cons in Hc as [->|Hc]; [|by apply IH].
    apply hexdigit_not_upper, Z.mod_pos_bound. lia.
Qed.

Lemma string_pairs_ind (Q : string -> Prop) :
  Q EmptyString -> (forall a, Q (String a EmptyString)) ->
  (forall a b s, Q s -> Q (String a (String b s))) -> forall s, Q s.
Proof.
  intros H0 H1 H2.
  assert (forall s, Q s /\ forall a, Q (String a s)) as H.
  { induction s as [|c s [IH1 IH2]]; [split; [exact H0 | exact H1]|].
    split; [apply IH2 | intros a; by apply H2]. }
  intros s. apply H.
Qed.

(** [hex.DecodeString] gives one byte for every two digits. *)
Lemma DecodeString_length (s : string) (b : digest) :
  DecodeString s = Some b -> String.length s = (2 * length b)%nat.
Proof.
  revert b. induction s as [|a|a c s IH] using string_pairs_ind; intros b H.
  - injection H as <-. reflexivity.
  - discriminate.
  - cbn [DecodeString] in H.
    destruct (fromHexChar a); [|discriminate].
    destruct (fromHexChar c); [|discriminate].
    destruct (DecodeString s) as [r|]; [|discriminate].
    injection H as <-. cbn [String.length length]. rewrite (IH r eq_refl). lia.
Qed.

(** An odd number of digits is [hex.ErrLength]. *)
Lemma DecodeString_odd (s : string) :
  Nat.odd (String.length s) = true -> DecodeString s = None.
Proof.
  intros Hodd. destruct (DecodeString s) as [b|] eqn:E; [|reflexivity].
  apply DecodeString_length in E. rewrite E in Hodd.
  rewrite Nat.odd_mul in Hodd. discriminate.
Qed.

(** The value of a hex digit of either case is the value of its
    lowercase form. *)
Lemma fromHexChar_lower (c : ascii) (x : Z) :
  fromHexChar c = Some x -> 0 <= x < 16 /\ hexdigit x = lower_hex c.
Proof.
  destruct c as [b0 b1 b2 b3 b4 b5 b6 b7].
  destruct b0, b1, b2, b3, b4, b5, b6, b7; intros H; vm_compute in H;
    try discriminate; injection H as <-; (split; [lia | reflexivity]).
Qed.

(** An even number of hex digits of either case decodes, to the bytes whose
    hex form is the lowercase form of the digits. *)
Lemma DecodeString_even (s : string) :
  all_hex s = true -> Nat.even (String.length s) = true ->
  exists b, DecodeString s = Some b /\ is_bytes b /\ EncodeToString b = lower_hex_string s.
Proof.
  induction s as [|a|a c s IH] using string_pairs_ind; intros Hh He.
  - exists []. split; [reflexivity|]. split; [constructor | reflexivity].
  - discriminate.
  - cbn [all_hex] in Hh. apply andb_true_iff in Hh as [Ha Hh].
    apply andb_true_iff in Hh as [Hc Hh].
    apply bool_decide_eq_true in Ha as [x Hx]. apply bool_decide_eq_true in Hc as [y Hy].
    destruct (IH Hh He) as (r & Hr & Hbr & Her).
    exists (x * 16 + y :: r). cbn [DecodeString]. rewrite Hx, Hy, Hr.
    apply fromHexChar_lower in Hx as [Hx Hlx]. apply fromHexChar_lower in Hy as [Hy Hly].
    split; [reflexivity|]. split; [constructor; [lia | exact Hbr]|].
    cbn [EncodeToString lower_hex_string].
    replace ((x * 16 + y) / 16) with x by (apply Z.div_unique with y; lia).
    replace ((x * 16 + y) mod 16) with y by (apply Z.mod_unique with x; lia).
    by rewrite Hlx, Hly, Her.
Qed.

(** X2.  The number of hex digits of an accepted pattern decides how it is
    compared.  A pattern with an odd number of digits cannot be decoded
    into bytes and is compared as a string with the lowercase hex form of
    the digest: as soon as it holds an uppercase letter it matches no
    digest at all.  A pattern with an even number of digits, of either
    case, is decoded into the bytes whose hex form is the lowercase form of
    the pattern, and matches exactly the digests that start with those
    bytes. *)
Theorem odd_uppercase_pattern_never_matches (algo p : string) :
  algo ∈ matcherTypes -> p <> EmptyString -> all_hex p = true ->
  exists m, NewDigestMatcher (algo ++ ":" ++ p) = Some m /\ T m = algo /\ P m = p /\
    (Nat.odd (String.length p) = true ->
       B m = None /\
       (forall d, DigestMatcher_Match m d = HasPrefix (EncodeToString d) p) /\
       (forall c d, c ∈ list_ascii_of_string p -> is_upper_hex c = true -> is_bytes d ->
                    DigestMatcher_Match m d = false)) /\
    (Nat.even (String.length p) = true ->
       exists b, B m = Some b /\ is_bytes b /\ b <> [] /\
                 EncodeToString b = lower_hex_string p /\
                 forall d, DigestMatcher_Match m d = true <-> b `prefix_of` d).
Proof.
  intros Halgo Hne Hhex.
  unfold NewDigestMatcher, FindStringSubmatch.
  rewrite (matcherTypes_cut _ _ Halgo).
  apply matcherTypes_existsb in Halgo. rewrite Halgo, Hhex.
  destruct (String.eqb_spec p ""); [contradiction|].
  cbn [andb negb].
  eexists. split; [reflexivity|]. split; [reflexivity|]. split; [reflexivity|].
  cbn [B P]. split.
  - intros Hodd. rewrite (DecodeString_odd p Hodd).
    split; [reflexivity|].
    assert (Hm : forall d, DigestMatcher_Match (mkDigestMatcher p algo None) d =
                           HasPrefix (EncodeToString d) p).
    { intros d. unfold DigestMatcher_Match. cbn [B P default from_option length].
      by destruct (Nat.ltb_spec (length d) 0); [lia|]. }
    split; [exact Hm|].
    intros c d Hc Hup Hd. rewrite Hm.
    destruct (HasPrefix (EncodeToString d) p) eqn:Hp; [|reflexivity].
    unfold HasPrefix in Hp.
    pose proof (EncodeToString_lowercase d c Hd (prefix_chars _ _ c Hp Hc)). congruence.
  - intros Heven. destruct (DecodeString_even p Hhex Heven) as (b & Hb & Hbytes & Henc).
    rewrite Hb. exists b. split; [reflexivity|]. split; [exact Hbytes|].
    split; [intros ->; destruct p; [contradiction | discriminate]|].
    split; [exact Henc|].
    intros d. unfold DigestMatcher_Match. cbn [B default from_option id].
    destruct (Nat.ltb_spec (length d) (length b)) as [Hlt|Hge].
    + split; [done|]. intros Hp. apply prefix_length in Hp. lia.
    + apply bytesHasPrefix_prefix.
Qed.

(** "9F8" against a sha256 that starts with 9f 86 is compared as a string
    and does not match; "9F86" is decoded to those two bytes and does. *)
Lemma odd_uppercase_pattern_never_matches_witness :
  (exists m, NewDigestMatcher "sha256:9F8" = Some m /\ B m = None /\
             DigestMatcher_Match m sample_sha256 = false) /\
  (exists m b, NewDigestMatcher "sha256:9F86" = Some m /\ B m = Some b /\
               EncodeToString b = "9f86"%string /\
               DigestMatcher_Match m sample_sha256 = true).
Proof.
  assert (Hs : "sha256"%string ∈ matcherTypes) by (unfold matcherTypes; set_solver).
  assert (Hd : is_bytes sample_sha256)
    by (unfold is_bytes, sample_sha256; repeat (constructor; [lia|]); constructor).
  split.
  - destruct (odd_uppercase_pattern_never_matches "sha256" "9F8" Hs ltac:(discriminate) eq_refl)
      as (m & Hm & _ & _ & Hodd & _).
    destruct (Hodd eq_refl) as (HB & _ & Hup).
    exists m. split; [exact Hm|]. split; [exact HB|].
    apply (Hup "F"%char sample_sha256); [|reflexivity | exact Hd].
    simpl. apply elem_of_cons. right. apply elem_of_cons. by left.
  - destruct (odd_uppercase_pattern_never_matches "sha256" "9F86" Hs ltac:(discriminate) eq_refl)
      as (m & Hm & _ & _ & _ & Heven).
    destruct (Heven eq_refl) as (b & HB & _ & _ & Henc & Hmatch).
    exists m, b. split; [exact Hm|]. split; [exact HB|]. split; [exact Henc|].
    apply Hmatch.
    assert (b = [159; 134]) as ->.
    { vm_compute in Hm. injection Hm as <-. by injection HB as <-. }
    by exists (drop 2 sample_sha256).
Defined.

(** ** The YAML form of a digest, [Is] and [UpdateWith] *)

(** X3.  The YAML form of a digest reads back as the same digest, whatever
    the array it is read into held before; a hex string of another length
    is not an error and the width never changes: a shorter string
    overwrites the first bytes of the array and leaves the rest as it was,
    a longer one is cut to the width of the array. *)
Theorem yaml_digest_roundtrip (d0 d : digest) :
  is_bytes d -> length d0 = length d ->
  unmarshalYAMLBytesHex d0 (marshalYAMLBytesHex d) = Some d /\
  (forall raw, is_bytes raw ->
     exists d', unmarshalYAMLBytesHex d0 (marshalYAMLBytesHex raw) = Some d' /\
                length d' = length d0 /\
                ((length raw <= length d0)%nat -> d' = raw ++ drop (length raw) d0) /\
                ((length d0 <= length raw)%nat -> d' = take (length d0) raw)).
Proof.
  intros Hd Hlen. unfold unmarshalYAMLBytesHex, marshalYAMLBytesHex, copy_bytes. split.
  - rewrite (DecodeString_EncodeToString _ Hd). simpl.
    rewrite take_ge, drop_ge by lia. by rewrite app_nil_r.
  - intros raw Hraw. rewrite (DecodeString_EncodeToString _ Hraw). simpl.
    eexists. split; [reflexivity|]. split; [|split].
    + rewrite length_app, length_take, length_drop. lia.
    + intros Hle. by rewrite take_ge by lia.
    + intros Hle. rewrite drop_ge by lia. by rewrite app_nil_r.
Qed.

(** A sha256 read into a zeroed array; the two bytes of "abcd" read into
    an array of four bytes leave the last two bytes in place. *)
Lemma yaml_digest_roundtrip_witness :
  unmarshalYAMLBytesHex (replicate 32 0) (marshalYAMLBytesHex sample_sha256) = Some sample_sha256 /\
  marshalYAMLBytesHex [171; 205] = "abcd"%string /\
  unmarshalYAMLBytesHex [1; 2; 3; 4] "abcd" = Some [171; 205; 3; 4] /\
  unmarshalYAMLBytesHex [1] "abcd" = Some [171].
Proof.
  assert (Hs : is_bytes sample_sha256)
    by (unfold is_bytes, sample_sha256; repeat (constructor; [lia|]); constructor).
  assert (Hr : is_bytes [171; 205]) by (repeat (constructor; [lia|]); constructor).
  split; [exact (proj1 (yaml_digest_roundtrip (replicate 32 0) sample_sha256 Hs eq_refl))|].
  split; [reflexivity|].
  destruct (proj2 (yaml_digest_roundtrip [1; 2; 3; 4] [5; 6; 7; 8]
                     ltac:(repeat (constructor; [lia|]); constructor) eq_refl)
              [171; 205] Hr) as (d' & Hd' & _ & Hshort & _).
  destruct (proj2 (yaml_digest_roundtrip [1] [5]
                     ltac:(repeat (constructor; [lia|]); constructor) eq_refl)
              [171; 205] Hr) as (d'' & Hd'' & _ & _ & Hlong).
  split.
  - change (unmarshalYAMLBytesHex [1; 2; 3; 4] (marshalYAMLBytesHex [171; 205]) =
            Some [171; 205; 3; 4]).
    rewrite Hd'. f_equal. apply Hshort. simpl. lia.
  - change (unmarshalYAMLBytesHex [1] (marshalYAMLBytesHex [171; 205]) = Some [171]).
    rewrite Hd''. f_equal. apply Hlong. simpl. lia.
Defined.

Lemma equivalent_sym (a b : Fingerprint) : equivalent a b -> equivalent b a.
Proof.
  intros [Hs (k & Hz & He)]. split.
  - unfold sizes_compatible in *. destruct Hs as [?|[?|?]]; auto.
  - exists k. rewrite <- He. auto.
Qed.

Lemma Is_values_sym (a b : Fingerprint) : Is_values a b = Is_values b a.
Proof.
  destruct (Is_values a b) eqn:E1, (Is_values b a) eqn:E2; try reflexivity.
  - apply Is_values_equivalent, equivalent_sym, Is_values_equivalent in E1. congruence.
  - apply Is_values_equivalent, equivalent_sym, Is_values_equivalent in E2. congruence.
Qed.

(** X4.  [Is] between two fingerprints is symmetric, although the code
    tests the digests of the receiver only: a shared digest that is
    populated on one side is populated on the other. *)
Theorem Fingerprint_Is_symmetric (h : gmap nat Fingerprint) (p q : nat) :
  Fingerprint_Is h p q = Fingerprint_Is h q p.
Proof.
  unfold Fingerprint_Is.
  destruct (h !! p) as [f|], (h !! q) as [o|]; simpl; try reflexivity.
  destruct (decide (p = q)) as [->|Hne].
  - by rewrite decide_True.
  - rewrite decide_False by congruence. by rewrite Is_values_sym.
Qed.

Lemma digest_of_UpdateWith (k : Kind) (f o : Fingerprint) :
  digest_of k (UpdateWith f o).1 = pick k f o.
Proof. by destruct k. Qed.

Lemma fill_after_UpdateWith (k : Kind) (f o : Fingerprint) :
  fill k (UpdateWith f o).1 o = false.
Proof.
  unfold fill. rewrite digest_of_UpdateWith. unfold pick.
  destruct (fill k f o) eqn:E.
  - unfold digest_eqb. rewrite bool_decide_eq_true_2 by reflexivity. apply andb_false_r.
  - exact E.
Qed.

Lemma no_fill_no_change (f o : Fingerprint) :
  (forall k, fill k f o = false) -> (Size f =? 0) && negb (Size o =? 0) = false ->
  UpdateWith f o = (f, 0%nat).
Proof.
  intros Hk Hs. unfold UpdateWith. rewrite Hs. unfold pick. rewrite !Hk.
  f_equal; [by destruct f|].
  unfold all_kinds. rewrite !filter_cons, filter_nil.
  repeat match goal with
         | |- context [decide (fill ?k f o = true)] =>
             rewrite (decide_False (P := fill k f o = true)) by (rewrite Hk; discriminate)
         end.
  reflexivity.
Qed.

(** X5.  Merging the same fingerprint a second time copies nothing and
    leaves the receiver as the first merge made it. *)
Theorem UpdateWith_idempotent (f o : Fingerprint) :
  UpdateWith (UpdateWith f o).1 o = ((UpdateWith f o).1, 0%nat).
Proof.
  apply no_fill_no_change.
  - intros k. apply fill_after_UpdateWith.
  - cbn [UpdateWith fst Size].
    destruct (Z.eqb_spec (Size f) 0) as [Hf|Hf], (Z.eqb_spec (Size o) 0) as [Ho|Ho]; simpl.
    + by rewrite Hf.
    + apply Z.eqb_neq in Ho. by rewrite Ho.
    + apply Z.eqb_neq in Hf. by rewrite Hf.
    + apply Z.eqb_neq in Hf. by rewrite Hf.
Qed.

(** X6.  The number [UpdateWith] returns is zero exactly when the receiver
    is left as it was. *)
Theorem UpdateWith_count_zero_iff_unchanged (f o : Fingerprint) :
  (UpdateWith f o).2 = 0%nat <-> (UpdateWith f o).1 = f.
Proof.
  split.
  - intros H. cbn [UpdateWith snd] in H.
    assert ((Size f =? 0) && negb (Size o =? 0) = false) as Hs.
    { destruct ((Size f =? 0) && negb (Size o =? 0)); [simpl in H; lia | reflexivity]. }
    rewrite Hs in H. simpl in H. apply length_zero_iff_nil in H.
    assert (forall k, fill k f o = false) as Hk.
    { intros k. destruct (fill k f o) eqn:E; [|reflexivity].
      exfalso. eapply (filter_nil_not_elem_of _ _ k H E).
      unfold all_kinds. destruct k; set_solver. }
    by rewrite (no_fill_no_change f o Hk Hs).
  - intros H.
    assert (forall k, fill k f o = false) as Hk.
    { intros k. destruct (fill k f o) eqn:E; [|reflexivity].
      pose proof (digest_of_UpdateWith k f o) as Hd. rewrite H in Hd.
      unfold pick in Hd. rewrite E in Hd.
      unfold fill in E. apply andb_true_iff in E as [_ E].
      apply negb_true_iff in E. unfold digest_eqb in E.
      apply bool_decide_eq_false in E. contradiction. }
    assert ((Size f =? 0) && negb (Size o =? 0) = false) as Hs.
    { destruct (Z.eqb_spec (Size f) 0) as [Hf|Hf]; [|reflexivity].
      destruct (Z.eqb_spec (Size o) 0) as [Ho|Ho]; [reflexivity|]. exfalso.
      apply (f_equal Size) in H. cbn [UpdateWith fst Size] in H.
      apply Z.eqb_eq in Hf as Hf'. apply Z.eqb_neq in Ho as Ho'.
      rewrite Hf', Ho' in H. simpl in H. congruence. }
    by rewrite (no_fill_no_change f o Hk Hs).
Qed.

(** X7.  A merge keeps the match: when the stored entry [Is] the new
    fingerprint, the entry still [Is] it after [UpdateWith], and it then
    carries every digest of the new fingerprint that it lacked before. *)
Theorem UpdateWith_keeps_Is (ef f : Fingerprint) :
  Is_values ef f = true ->
  Is_values (UpdateWith ef f).1 f = true /\
  forall k, IsZero (digest_of k ef) = true ->
            digest_of k (UpdateWith ef f).1 = digest_of k f.
Proof.
  intros H. destruct (UpdateWith_fills_only_missing ef f) as (Hd & Hsz & _). split.
  - apply Is_values_equivalent in H as [Hs (k & Hz & He)].
    apply Is_values_equivalent. split.
    + unfold sizes_compatible in *. rewrite Hsz.
      destruct (Z.eqb_spec (Size ef) 0); [right; right; reflexivity | exact Hs].
    + exists k. rewrite Hd, Hz. auto.
  - intros k Hz. by rewrite Hd, Hz.
Qed.

Lemma UpdateWith_keeps_Is_witness :
  let ef := partial_fp sample_git no_md5 sample_sha256 0 in
  let f := partial_fp no_git sample_md5 sample_sha256 3 in
  Is_values (UpdateWith ef f).1 f = true /\
  forall k, IsZero (digest_of k ef) = true ->
            digest_of k (UpdateWith ef f).1 = digest_of k f.
Proof.
  apply (UpdateWith_keeps_Is (partial_fp sample_git no_md5 sample_sha256 0)
           (partial_fp no_git sample_md5 sample_sha256 3)).
  reflexivity.
Defined.

(** ** [CalculateSums]: reader errors and what is filled in *)

Lemma hashers_for_nil (g : Fingerprint) (k : Kind) :
  hashers_for g = [] -> k <> KGit -> IsZero (digest_of k g) = false.
Proof.
  unfold hashers_for. intros H Hk.
  repeat match type of H with
         | _ ++ _ = [] => apply app_eq_nil in H as [? H]
         end.
  destruct k; [contradiction|..]; simpl;
    match goal with |- IsZero ?d = false => destruct (IsZero d); [discriminate | reflexivity] end.
Qed.

(** X8.  When the reader fails, [CalculateSums] stores no digest at all,
    not even those of the bytes read so far: the fingerprint is left with
    its digests as they were and with the declared size filled in.  The
    reader's error is returned whenever some digest other than the git-sha
    was missing. *)
Theorem CalculateSums_reader_error (pr : Primitives) (f : Fingerprint) (data : Reader)
    (size : Z) (e : string) :
  r_err data = Some e ->
  (CalculateSums pr f data size).1 = with_declared_size f size /\
  (forall k, digest_of k (CalculateSums pr f data size).1 = digest_of k f) /\
  (forall k, k <> KGit -> IsZero (digest_of k f) = true ->
             (CalculateSums pr f data size).2 = Some e).
Proof.
  intros He.
  assert ((CalculateSums pr f data size).1 = with_declared_size f size) as H1.
  { rewrite CalculateSums_fst, He. apply harvest_error. }
  split; [exact H1|]. split.
  - intros k. rewrite H1. apply with_declared_size_digest.
  - intros k Hk Hz. unfold CalculateSums. fold (with_declared_size f size).
    destruct (hashers_for (with_declared_size f size)) eqn:Hh; [|exact He].
    pose proof (hashers_for_nil _ k Hh Hk) as Hnz.
    rewrite with_declared_size_digest in Hnz. congruence.
Qed.

Lemma CalculateSums_reader_error_witness :
  let data := mkReader (T_other "*os.File") [1; 2; 3] (Some "unexpected EOF"%string) in
  (CalculateSums sample_primitives zeroFingerprint data 5).1 = set_Size 5 zeroFingerprint /\
  (CalculateSums sample_primitives zeroFingerprint data 5).2 = Some "unexpected EOF"%string.
Proof.
  pose proof (CalculateSums_reader_error sample_primitives zeroFingerprint
                (mkReader (T_other "*os.File") [1; 2; 3] (Some "unexpected EOF"%string)) 5
                "unexpected EOF" eq_refl) as (H1 & _ & H3).
  split; [exact H1|]. apply (H3 KMD5); [discriminate | reflexivity].
Defined.

(** X9.  When the reader ends without an error, [CalculateSums] leaves
    every populated digest as it was (nothing is recomputed or checked),
    stores the digest of the bytes read in every other missing digest, and
    stores the git blob id in a missing git-sha exactly when the bytes read
    are as many as the fingerprint's size says. *)
Theorem CalculateSums_fills_missing (pr : Primitives) (f : Fingerprint) (data : Reader)
    (size : Z) :
  r_err data = None ->
  let f' := (CalculateSums pr f data size).1 in
  (CalculateSums pr f data size).2 = None /\
  Size f' = (if (Size f =? 0) && negb (size =? 0) then size else Size f) /\
  GitSHA f' =
    (if IsZero (GitSHA f) && (Z.of_nat (length (r_bytes data)) =? Size f')
     then git_blob_id pr (Size f') (r_bytes data) else GitSHA f) /\
  forall k, k <> KGit ->
    digest_of k f' =
    if IsZero (digest_of k f) then digest_by pr k (r_bytes data) else digest_of k f.
Proof.
  intros Herr f'. subst f'.
  split; [by apply CalculateSums_no_error|].
  rewrite CalculateSums_fst, Herr, harvest_Size.
  set (g := with_declared_size f size).
  assert (Hd : forall k, digest_of k g = digest_of k f)
    by (intros k; apply with_declared_size_digest).
  split; [|split].
  - unfold g, with_declared_size. by destruct (_ && _).
  - change (digest_of KGit (fold_left (harvest pr None)
              (map (fun h => Write h (r_bytes data)) (hashers_for g)) g) =
            if IsZero (digest_of KGit f) && (Z.of_nat (length (r_bytes data)) =? Size g)
            then git_blob_id pr (Size g) (r_bytes data) else digest_of KGit f).
    rewrite harvest_digest_of. split_pieces.
    repeat (rewrite piece_other by discriminate).
    rewrite piece_same by reflexivity. rewrite Hd.
    pose proof (Hd KGit) as H0. simpl in H0. rewrite H0. simpl.
    destruct (IsZero (GitSHA f)); simpl; [|reflexivity].
    unfold Done, bytesHashed. simpl.
    destruct (Z.leb_spec 0 (Size g)) as [Hge|Hlt].
    + destruct (Z.eqb_spec (Z.of_nat (length (r_bytes data))) (Size g)); reflexivity.
    + destruct (Z.eqb_spec (Z.of_nat (length (r_bytes data))) (Size g)); [lia | reflexivity].
  - intros k Hk. rewrite harvest_digest_of.
    pose proof (Hd KMD5) as H1. pose proof (Hd KSHA1) as H2. pose proof (Hd KSHA256) as H3.
    pose proof (Hd KSHA384) as H4. pose proof (Hd KSHA512) as H5. pose proof (Hd KHwy64) as H6.
    pose proof (Hd KHwy128) as H7. pose proof (Hd KHwy256) as H8.
    simpl in H1, H2, H3, H4, H5, H6, H7, H8.
    destruct k; [contradiction|..]; split_pieces;
      rewrite ?H1, ?H2, ?H3, ?H4, ?H5, ?H6, ?H7, ?H8;
      repeat first [rewrite piece_other by discriminate | rewrite piece_same by reflexivity];
      rewrite Hd; simpl; reflexivity.
Qed.

Lemma CalculateSums_fills_missing_witness :
  let data := mkReader (T_other "*os.File") [1; 2; 3] None in
  let f := partial_fp no_git sample_md5 no_sha256 0 in
  let f' := (CalculateSums sample_primitives f data 3).1 in
  Size f' = 3 /\ GitSHA f' = git_blob_id sample_primitives 3 [1; 2; 3] /\
  MD5 f' = sample_md5 /\ SHA256 f' = digest_by sample_primitives KSHA256 [1; 2; 3].
Proof.
  pose proof (CalculateSums_fills_missing sample_primitives
                (partial_fp no_git sample_md5 no_sha256 0)
                (mkReader (T_other "*os.File") [1; 2; 3] None) 3 eq_refl) as (_ & H1 & H2 & H3).
  split; [exact H1|]. split; [exact H2|].
  split; [exact (H3 KMD5 ltac:(discriminate)) | exact (H3 KSHA256 ltac:(discriminate))].
Defined.

(** ** The store: lookups, interning and growth *)

(** X10.  The Bloom filter is transparent: on a store reached by put
    operations a lookup by git-sha is the lookup through the index alone,
    the filter never hides an indexed key, a false positive of the filter
    never produces a fingerprint, and the index never points outside the
    slice. *)
Theorem GetFingerprintByGitSHA_through_index (w : World) (g : digest) :
  reachable w ->
  GetFingerprintByGitSHA (store w) g =
  Some (gitSHAIndex (store w) !! g ≫= fun i => Fingerprints (store w) !! i).
Proof.
  intros Hr. apply reachable_Inv in Hr as ((_ & _ & F3) & _).
  destruct (gitSHAIndex (store w) !! g) as [i|] eqn:Hi.
  - destruct (F3 g i Hi) as [Hlt Hb].
    apply lookup_lt_is_Some in Hlt as [p Hp].
    rewrite (GetFingerprintByGitSHA_indexed _ _ _ _ Hb Hi Hp). simpl. by rewrite Hp.
  - by rewrite GetFingerprintByGitSHA_unindexed.
Qed.

Lemma GetFingerprintByGitSHA_through_index_witness :
  GetFingerprintByGitSHA (store world3) sample_git =
  Some (gitSHAIndex (store world3) !! sample_git ≫= fun i => Fingerprints (store world3) !! i).
Proof.
  apply (GetFingerprintByGitSHA_through_index world3 sample_git). exact reachable_world3.
Defined.

Lemma GetFingerprintByGitSHA_total (w : World) (g : digest) :
  fps_ok w -> exists r, GetFingerprintByGitSHA (store w) g = Some r.
Proof.
  intros (_ & _ & F3). unfold GetFingerprintByGitSHA.
  destruct (bloom_Contains _ _); simpl; [|eauto].
  destruct (gitSHAIndex (store w) !! g) as [i|] eqn:Hi; [|eauto].
  destruct (F3 g i Hi) as [Hlt _]. apply lookup_lt_is_Some in Hlt as [p Hp].
  rewrite Hp. simpl. eauto.
Qed.

Lemma find_Is_total (h : gmap nat Fingerprint) (l : list nat) (fp : nat) :
  Forall (fun x => is_Some (h !! x)) l -> is_Some (h !! fp) ->
  exists r, find_Is h l fp = Some r.
Proof.
  intros Hl [f Hf]. induction Hl as [|x l [xf Hx] _ IH]; simpl; [eauto|].
  unfold Fingerprint_Is. rewrite Hx, Hf. simpl.
  destruct (if decide (x = fp) then true else Is_values xf f); eauto.
Qed.

Lemma stored_fingerprints_allocated (w : World) :
  fps_ok w -> Forall (fun x => is_Some (fps (heap w) !! x)) (Fingerprints (store w)).
Proof.
  intros (F1 & _). apply Forall_lookup. intros i p Hi.
  destruct (F1 i p Hi) as (f & Hf & _). eauto.
Qed.

Lemma PutFingerprint_total (w : World) (fp : nat) :
  fps_ok w -> is_Some (fps (heap w) !! fp) -> is_Some (PutFingerprint w fp).
Proof.
  intros Hok [f Hf]. unfold PutFingerprint. rewrite Hf. simpl.
  destruct (IsCached (fp_cache f)); [eauto|].
  destruct (GetFingerprintByGitSHA_total w (GitSHA f) Hok) as [ex Hex]. rewrite Hex. simpl.
  pose proof (stored_fingerprints_allocated w Hok) as Hal.
  assert (forall e, e ∈ Fingerprints (store w) -> is_Some (fps (heap w) !! e)) as Hin.
  { intros e He. rewrite Forall_forall in Hal. by apply Hal. }
  destruct ex as [e|]; simpl.
  - apply GetFingerprintByGitSHA_Some in Hex as (i & _ & Hi).
    destruct (Hin e) as [ef Hef]; [by eapply list_elem_of_lookup_2|].
    rewrite Hef. simpl. eauto.
  - destruct (find_Is_total (fps (heap w)) (Fingerprints (store w)) fp Hal) as [r Hr]; [eauto|].
    rewrite Hr. simpl. destruct r as [e|]; [|eauto].
    destruct (Hin e) as [ef Hef]; [by eapply find_Is_elem|].
    rewrite Hef. simpl. eauto.
Qed.

Lemma PutFingerprint_cached (w : World) (r : nat) (rf : Fingerprint) :
  fps (heap w) !! r = Some rf -> IsCached (fp_cache rf) = true ->
  PutFingerprint w r = Some (r, w).
Proof. intros Hr Hc. unfold PutFingerprint. rewrite Hr. simpl. by rewrite Hc. Qed.

(** X11.  On a store reached by put operations [PutFingerprint] of an
    allocated fingerprint does not panic; the reference it returns is a
    stored fingerprint that carries a cache id, and handing that reference
    to [PutFingerprint] again returns it with the store as it is. *)
Theorem PutFingerprint_returns_interned (w : World) (fp : nat) :
  reachable w -> is_Some (fps (heap w) !! fp) ->
  exists r w', PutFingerprint w fp = Some (r, w') /\ reachable w' /\
    r ∈ Fingerprints (store w') /\
    (exists rf, fps (heap w') !! r = Some rf /\ IsCached (fp_cache rf) = true) /\
    PutFingerprint w' r = Some (r, w').
Proof.
  intros Hr Hfp. pose proof (reachable_Inv w Hr) as Hinv.
  destruct (PutFingerprint_total w fp (proj1 Hinv) Hfp) as [[r w'] Hput].
  exists r, w'. split; [exact Hput|].
  assert (reachable w') as Hr' by (eapply reach_PutFingerprint; eauto).
  split; [exact Hr'|].
  destruct (PutFingerprint_Inv w w' fp r Hinv Hput) as [((F1 & _) & _) Hin].
  split; [exact Hin|].
  apply list_elem_of_lookup in Hin as [i Hi].
  destruct (F1 i r Hi) as (rf & Hrf & Hc).
  assert (IsCached (fp_cache rf) = true) as Hc' by (by rewrite Hc).
  split; [eauto|]. by eapply PutFingerprint_cached.
Qed.

Lemma PutFingerprint_returns_interned_witness :
  exists r w', PutFingerprint world1 2 = Some (r, w') /\ reachable w' /\
    r ∈ Fingerprints (store w') /\
    (exists rf, fps (heap w') !! r = Some rf /\ IsCached (fp_cache rf) = true) /\
    PutFingerprint w' r = Some (r, w').
Proof.
  apply (PutFingerprint_returns_interned world1 2 reachable_world1).
  vm_compute. eauto.
Defined.

Lemma find_file_total (h : Heap) (l : list nat) (path : string) (fp : nat) :
  Forall (fun ex => exists e q, files h !! ex = Some e /\ File_Fingerprint e = Some q /\
                                is_Some (fps h !! q)) l ->
  is_Some (fps h !! fp) -> exists r, find_file h l path fp = Some r.
Proof.
  intros Hl [f Hf]. induction Hl as [|x l (e & q & He & Hq & [qf Hqf]) _ IH]; simpl; [eauto|].
  rewrite He. simpl. destruct (String.eqb (Path e) path); [|exact IH].
  destruct (decide (File_Fingerprint e = Some fp)); simpl; [eauto|].
  rewrite Hq. simpl. unfold Fingerprint_Is. rewrite Hqf, Hf. simpl.
  destruct (if decide (q = fp) then true else Is_values qf f); eauto.
Qed.

Lemma find_file_Some_path (h : Heap) (l : list nat) (path : string) (fp ex : nat) :
  find_file h l path fp = Some (Some ex) ->
  exists e, files h !! ex = Some e /\ Path e = path.
Proof.
  induction l as [|x l IH]; simpl; [discriminate|].
  destruct (files h !! x) as [e|] eqn:He; simpl; [|discriminate].
  destruct (String.eqb_spec (Path e) path) as [Hp|Hp]; [|exact IH].
  destruct (if decide (File_Fingerprint e = Some fp) then Some true else _) as [[|]|];
    simpl; [intros [= <-]; eauto | exact IH | discriminate].
Qed.

Lemma stored_files_allocated (w : World) :
  Inv w ->
  Forall (fun ex => exists e q, files (heap w) !! ex = Some e /\ File_Fingerprint e = Some q /\
                                is_Some (fps (heap w) !! q)) (Files (store w)).
Proof.
  intros ((F1 & _) & (L1 & _) & _). apply Forall_lookup. intros i p Hi.
  destruct (L1 i p Hi) as (e & q & He & _ & Hq & Hin).
  apply list_elem_of_lookup in Hin as [j Hj].
  destruct (F1 j q Hj) as (qf & Hqf & _). eauto 8.
Qed.

Lemma PutFile_total (w : World) (f fp : nat) (fl : File) :
  Inv w -> files (heap w) !! f = Some fl -> File_Fingerprint fl = Some fp ->
  is_Some (fps (heap w) !! fp) -> is_Some (PutFile w (Some f)).
Proof.
  intros HI Hfl Hfp Hal. unfold PutFile. simpl. rewrite Hfl. simpl. rewrite Hfp. simpl.
  destruct (IsCached (file_cache fl)); [eauto|].
  destruct (find_file_total (heap w) (Files (store w)) (Path fl) fp
              (stored_files_allocated w HI) Hal) as [r Hr].
  rewrite Hr. simpl. destruct r as [ex|]; [eauto|].
  destruct (PutFingerprint_total w fp (proj1 HI) Hal) as [[fp' w1] Hp].
  rewrite Hp. simpl. eauto.
Qed.

Lemma PutFile_path (w w' : World) (f r : nat) (fl : File) :
  PutFile w (Some f) = Some (r, w') -> files (heap w) !! f = Some fl ->
  exists rl, files (heap w') !! r = Some rl /\ Path rl = Path fl.
Proof.
  intros H Hfl. unfold PutFile in H. simpl in H. rewrite Hfl in H. simpl in H.
  destruct (File_Fingerprint fl) as [fp|]; simpl in H; [|discriminate].
  destruct (IsCached (file_cache fl)).
  { injection H as <- <-. eauto. }
  destruct (find_file _ _ _ _) as [[ex|]|] eqn:Hfind; simpl in H; [| |discriminate].
  { injection H as <- <-. by eapply find_file_Some_path. }
  destruct (PutFingerprint w fp) as [[fp' w1]|]; simpl in H; [|discriminate].
  injection H as <- <-. simpl. rewrite lookup_insert_eq. eauto.
Qed.

(** X12.  On a store reached by put operations [PutFile] of an allocated
    file with an allocated fingerprint does not panic; the reference it
    returns is a stored file with the path of the argument and a cache id,
    and handing that reference to [PutFile] again returns it with the store
    as it is. *)
Theorem PutFile_returns_interned (w : World) (f fp : nat) (fl : File) :
  reachable w -> files (heap w) !! f = Some fl -> File_Fingerprint fl = Some fp ->
  is_Some (fps (heap w) !! fp) ->
  exists r w', PutFile w (Some f) = Some (r, w') /\ reachable w' /\
    r ∈ Files (store w') /\
    (exists rl, files (heap w') !! r = Some rl /\ Path rl = Path fl /\
                IsCached (file_cache rl) = true) /\
    PutFile w' (Some r) = Some (r, w').
Proof.
  intros Hr Hfl Hfp Hal. pose proof (reachable_Inv w Hr) as HI.
  destruct (PutFile_total w f fp fl HI Hfl Hfp Hal) as [[r w'] Hput].
  exists r, w'. split; [exact Hput|].
  assert (reachable w') as Hr' by (eapply reach_PutFile; eauto).
  split; [exact Hr'|].
  destruct (PutFile_Inv w w' (Some f) r HI Hput) as [(_ & (L1 & _) & _) Hin].
  split; [exact Hin|].
  destruct (PutFile_path w w' f r fl Hput Hfl) as (rl & Hrl & Hpath).
  apply list_elem_of_lookup in Hin as [i Hi].
  destruct (L1 i r Hi) as (rl' & q & Hrl' & Hc & Hq & _).
  rewrite Hrl in Hrl'. injection Hrl' as <-.
  assert (IsCached (file_cache rl) = true) as Hc' by (by rewrite Hc).
  split; [eauto|].
  unfold PutFile. simpl. rewrite Hrl. simpl. rewrite Hq. simpl. by rewrite Hc'.
Qed.

Lemma PutFile_returns_interned_witness :
  exists r w', PutFile world0 (Some 1%nat) = Some (r, w') /\ reachable w' /\
    r ∈ Files (store w') /\
    (exists rl, files (heap w') !! r = Some rl /\ Path rl = "b.txt"%string /\
                IsCached (file_cache rl) = true) /\
    PutFile w' (Some r) = Some (r, w').
Proof.
  apply (PutFile_returns_interned world0 1 1 (mkFile "b.txt" (Some 1%nat) noCacheID)).
  - apply reach_fresh. exact sample_heap_nothing_cached.
  - reflexivity.
  - reflexivity.
  - vm_compute. eauto.
Defined.

#[local] Instance grows_preorder : PreOrder grows.
Proof.
  split.
  - intros w. by repeat split.
  - intros a b c (A1 & A2 & A3 & A4) (B1 & B2 & B3 & B4).
    repeat split; by etrans.
Qed.

Lemma PutArchiveFile_grows (w w' : World) (a r : nat) :
  PutArchiveFile w a = Some (r, w') -> grows w w'.
Proof.
  unfold PutArchiveFile. intros H.
  destruct (archives (heap w) !! a) as [ar|]; simpl in H; [|discriminate].
  destruct (PutFile w (Archive_File ar)) as [[file w1]|] eqn:H1; simpl in H; [|discriminate].
  destruct (PutFile_frame _ _ _ _ H1) as (_ & _ & A3 & A4 & _ & A6 & A7).
  match type of H with
  | context [find_archive ?h ?l ?x] => destruct (find_archive h l x) as [[ex|]|]
  end; simpl in H; [| |discriminate].
  { injection H as <- <-. unfold grows. simpl. rewrite A3, A4. by repeat split. }
  match type of H with
  | context [PutFiles ?x ?y] => destruct (PutFiles x y) as [[rs w3]|] eqn:H3
  end; simpl in H; [|discriminate].
  destruct (PutFiles_frame _ _ _ _ H3) as (_ & _ & B3 & B4 & _ & B6 & B7).
  simpl in B3, B4, B6, B7.
  injection H as <- <-. unfold grows. simpl. repeat split.
  - by etrans.
  - by etrans.
  - rewrite B4, A4. by apply prefix_app_r.
  - by rewrite B3, A3.
Qed.

Lemma PutGitSource_grows (w w' : World) (g r : nat) :
  PutGitSource w g = Some (r, w') -> grows w w'.
Proof.
  unfold PutGitSource. intros H.
  destruct (repos (heap w) !! g) as [gr|]; simpl in H; [|discriminate].
  destruct (find_repo _ _ _) as [[ex|]|]; simpl in H; [| |discriminate].
  { injection H as <- <-. reflexivity. }
  destruct (PutFiles w (Repo_Files gr)) as [[rs w1]|] eqn:H1; simpl in H; [|discriminate].
  destruct (PutFiles_frame _ _ _ _ H1) as (_ & _ & B3 & B4 & _ & B6 & B7).
  injection H as <- <-. unfold grows. simpl. repeat split; try done.
  - by rewrite B4.
  - rewrite B3. by apply prefix_app_r.
Qed.

(** X13.  Over any sequence of put operations the four slices of the
    store only grow at the end: nothing is removed or reordered, so an
    object keeps the slot, and with it the id, it was given. *)
Theorem store_only_grows (w w' : World) :
  rtc put_step w w' ->
  grows w w' /\
  (forall i p, Fingerprints (store w) !! i = Some p -> Fingerprints (store w') !! i = Some p) /\
  (forall i p, Files (store w) !! i = Some p -> Files (store w') !! i = Some p) /\
  (forall i p, ArchiveFiles (store w) !! i = Some p -> ArchiveFiles (store w') !! i = Some p) /\
  (forall i p, GitRepoSources (store w) !! i = Some p ->
               GitRepoSources (store w') !! i = Some p).
Proof.
  intros H.
  assert (grows w w') as Hg.
  { induction H as [w|w w1 w2 Hstep _ IH]; [reflexivity|].
    etrans; [|exact IH]. destruct Hstep as [fp r Hp|f r Hp|a r Hp|g r Hp].
    - destruct (PutFingerprint_frame _ _ _ _ Hp) as (_ & _ & _ & E4 & E5 & E6 & _ & E8).
      unfold grows. by rewrite E4, E5, E6.
    - destruct (PutFile_frame _ _ _ _ Hp) as (_ & _ & E3 & E4 & _ & E6 & E7).
      unfold grows. by rewrite E3, E4.
    - by eapply PutArchiveFile_grows.
    - by eapply PutGitSource_grows. }
  split; [exact Hg|]. destruct Hg as (G1 & G2 & G3 & G4).
  repeat split; intros i p Hi; by eapply prefix_lookup_Some.
Qed.

Lemma store_only_grows_witness :
  grows world0 world2 /\
  (forall i p, Fingerprints (store world0) !! i = Some p ->
               Fingerprints (store world2) !! i = Some p) /\
  (forall i p, Files (store world0) !! i = Some p -> Files (store world2) !! i = Some p) /\
  (forall i p, ArchiveFiles (store world0) !! i = Some p ->
               ArchiveFiles (store world2) !! i = Some p) /\
  (forall i p, GitRepoSources (store world0) !! i = Some p ->
               GitRepoSources (store world2) !! i = Some p).
Proof.
  apply (store_only_grows world0 world2).
  apply (rtc_l _ _ world1).
  - apply (step_PutArchiveFile world0 world1 0%nat 0%nat). vm_compute. reflexivity.
  - apply rtc_once. apply (step_PutGitSource world1 world2 0%nat 0%nat).
    vm_compute. reflexivity.
Defined.

Lemma PutFingerprint_merge (w w' : World) (fp r : nat) (f : Fingerprint) :
  fps_ok w -> fps (heap w) !! fp = Some f -> IsCached (fp_cache f) = false ->
  PutFingerprint w fp = Some (r, w') -> r <> fp ->
  exists ef, fps (heap w) !! r = Some ef /\ w' = merged_into w r ef f.
Proof.
  intros Hok Hf Hc H Hne. unfold PutFingerprint in H. rewrite Hf in H. simpl in H.
  rewrite Hc in H.
  destruct (GetFingerprintByGitSHA (store w) (GitSHA f)) as [ex|]; simpl in H; [|discriminate].
  destruct (match ex with Some e => Some (Some e) | None => _ end) as [[e|]|];
    simpl in H; [| |discriminate].
  - destruct (fps (heap w) !! e) as [ef|] eqn:Hef; simpl in H; [|discriminate].
    injection H as <- <-. eauto.
  - injection H as <- <-. contradiction.
Qed.

(** X14.  A merge does not touch the store's slices, index or filter.  So
    when a fingerprint with an unindexed git-sha is merged into an entry
    that had no git-sha, the entry now carries that git-sha but a lookup by
    it still finds nothing, and the query for the files of the returned
    entry answers nil. *)
Theorem merged_git_sha_is_not_indexed (w w' : World) (fp r : nat) (f ef : Fingerprint) :
  reachable w -> fps (heap w) !! fp = Some f -> IsCached (fp_cache f) = false ->
  gitSHAIndex (store w) !! GitSHA f = None ->
  PutFingerprint w fp = Some (r, w') -> r <> fp ->
  fps (heap w) !! r = Some ef -> IsZero (GitSHA ef) = true ->
  store w' = store w /\
  (exists rf, fps (heap w') !! r = Some rf /\ GitSHA rf = GitSHA f) /\
  GetFingerprintByGitSHA (store w') (GitSHA f) = Some None /\
  FindFilesWithFingerprint w' r = Some None.
Proof.
  intros Hr Hf Hc Hidx Hput Hne Hef Hz.
  pose proof (reachable_Inv w Hr) as [Hok _].
  destruct (PutFingerprint_merge w w' fp r f Hok Hf Hc Hput Hne) as (ef' & Hef' & ->).
  rewrite Hef in Hef'. injection Hef' as <-.
  assert (GitSHA (UpdateWith ef f).1 = GitSHA f) as Hg.
  { destruct (UpdateWith_fills_only_missing ef f) as (Hd & _).
    change (digest_of KGit (UpdateWith ef f).1 = digest_of KGit f).
    rewrite Hd. change (digest_of KGit ef) with (GitSHA ef). by rewrite Hz. }
  split; [reflexivity|]. split; [|split].
  - exists (UpdateWith ef f).1. split; [|exact Hg].
    unfold merged_into. simpl. by rewrite lookup_insert_eq.
  - by apply GetFingerprintByGitSHA_unindexed.
  - unfold FindFilesWithFingerprint, merged_into. simpl. rewrite lookup_insert_eq. simpl.
    simpl in Hg. rewrite Hg. by rewrite GetFingerprintByGitSHA_unindexed.
Qed.

Lemma merged_git_sha_is_not_indexed_witness :
  let w' := after world_no_git (PutFingerprint world_no_git 0) in
  store w' = store world_no_git /\
  (exists rf, fps (heap w') !! 2%nat = Some rf /\ GitSHA rf = sample_git) /\
  GetFingerprintByGitSHA (store w') sample_git = Some None /\
  FindFilesWithFingerprint w' 2 = Some None.
Proof.
  apply (merged_git_sha_is_not_indexed world_no_git
           (after world_no_git (PutFingerprint world_no_git 0)) 0 2
           (partial_fp sample_git sample_md5 sample_sha256 3)
           (fp_SetCacheID (partial_fp no_git sample_md5 sample_sha256 3) 0)).
  - apply reachable_after_PutFingerprint, reach_fresh. exact sample_heap_nothing_cached.
  - reflexivity.
  - reflexivity.
  - vm_compute. reflexivity.
  - vm_compute. reflexivity.
  - discriminate.
  - vm_compute. reflexivity.
  - reflexivity.
Defined.

(** ** The stat cache *)

Lemma hexdigit_36 (n : Z) :
  0 <= n < 36 ->
  digit36 (hexdigit n) = n /\ plain36 (String (hexdigit n) EmptyString) = true.
Proof.
  intros H. rewrite <- (Z2Nat.id n) by lia.
  assert (Z.to_nat n < 36)%nat as Hk by lia.
  revert Hk. generalize (Z.to_nat n) as k. intros k Hk.
  do 36 (destruct k as [|k]; [split; reflexivity|]). lia.
Qed.

Lemma append_assoc (a b c : string) : ((a ++ b) ++ c = a ++ (b ++ c))%string.
Proof.
  induction a as [|x a IH]; [reflexivity|].
  change (String x ((a ++ b) ++ c) = String x (a ++ (b ++ c)))%string. by rewrite IH.
Qed.

Lemma format36_acc (k : nat) (n : Z) (acc : string) :
  format36 k n acc = (format36 k n EmptyString ++ acc)%string.
Proof.
  revert n acc. induction k as [|k IH]; intros n acc; [reflexivity|].
  cbn [format36]. destruct (n / 36 =? 0); [reflexivity|].
  rewrite IH. rewrite (IH _ (String _ EmptyString)).
  by rewrite append_assoc.
Qed.

Lemma val36_app (v : Z) (s t : string) : val36 v (s ++ t) = val36 (val36 v s) t.
Proof. revert v. induction s as [|c s IH]; intros v; simpl; [reflexivity | apply IH]. Qed.

Lemma plain36_app (s t : string) : plain36 (s ++ t) = plain36 s && plain36 t.
Proof.
  induction s as [|c s IH]; simpl; [reflexivity|]. rewrite IH. by rewrite !andb_assoc.
Qed.

Lemma format36_value (k : nat) (n : Z) :
  0 <= n < 36 ^ Z.of_nat k ->
  val36 0 (format36 k n EmptyString) = n /\ plain36 (format36 k n EmptyString) = true.
Proof.
  revert n. induction k as [|k IH]; intros n Hn.
  - simpl in *. split; [lia | reflexivity].
  - cbn [format36].
    assert (0 <= n mod 36 < 36) as Hm by (apply Z.mod_pos_bound; lia).
    destruct (hexdigit_36 _ Hm) as [Hd Hp].
    destruct (Z.eqb_spec (n / 36) 0) as [Hq|Hq].
    + split; [|exact Hp]. simpl. rewrite Hd.
      pose proof (Z.div_mod n 36). lia.
    + rewrite format36_acc, val36_app, plain36_app.
      assert (0 <= n / 36 < 36 ^ Z.of_nat k) as Hn'.
      { split; [apply Z.div_pos; lia|]. apply Z.div_lt_upper_bound; [lia|].
        rewrite Nat2Z.inj_succ, Z.pow_succ_r in Hn by lia. lia. }
      destruct (IH _ Hn') as [-> ->]. split; [|exact Hp].
      simpl. rewrite Hd. pose proof (Z.div_mod n 36). lia.
Qed.

Lemma format36_nonempty (k : nat) (n : Z) (acc : string) :
  acc <> EmptyString -> format36 k n acc <> EmptyString.
Proof.
  revert n acc. induction k as [|k IH]; intros n acc Hacc; [exact Hacc|].
  cbn [format36]. destruct (n / 36 =? 0); [discriminate|]. by apply IH.
Qed.

Lemma FormatUint36_value (n : Z) :
  0 <= n <= 2 ^ 64 ->
  val36 0 (FormatUint36 n) = n /\ plain36 (FormatUint36 n) = true /\
  FormatUint36 n <> EmptyString.
Proof.
  intros Hn. unfold FormatUint36.
  destruct (format36_value 14 n) as [Hv Hp]; [simpl; lia|].
  split; [exact Hv|]. split; [exact Hp|].
  change (format36 14 n EmptyString) with
    (let acc' := String (hexdigit (n mod 36)) EmptyString in
     if n / 36 =? 0 then acc' else format36 13 (n / 36) acc').
  cbv zeta. destruct (n / 36 =? 0); [discriminate|]. by apply format36_nonempty.
Qed.

Lemma FormatInt36_plain (n : Z) :
  - 2 ^ 63 <= n < 2 ^ 63 ->
  forallb (fun c => negb (Ascii.eqb c ",")) (list_ascii_of_string (FormatInt36 n)) = true.
Proof.
  intros Hn. unfold FormatInt36.
  assert (forall s, plain36 s = true ->
            forallb (fun c => negb (Ascii.eqb c ",")) (list_ascii_of_string s) = true) as Hpl.
  { induction s as [|c s IH]; simpl; [done|].
    intros H. apply andb_true_iff in H as [H1 H2]. apply andb_true_iff in H1 as [H1 _].
    rewrite H1. by apply IH. }
  destruct (Z.ltb_spec n 0).
  - simpl. apply Hpl. apply FormatUint36_value. lia.
  - apply Hpl. apply FormatUint36_value. lia.
Qed.

Lemma FormatInt36_inj (a b : Z) :
  - 2 ^ 63 <= a < 2 ^ 63 -> - 2 ^ 63 <= b < 2 ^ 63 ->
  FormatInt36 a = FormatInt36 b -> a = b.
Proof.
  intros Ha Hb. unfold FormatInt36.
  assert (forall n, 0 <= n <= 2 ^ 64 ->
            forall s, (String "-" s) <> FormatUint36 n) as Hsign.
  { intros n Hn s Hs. destruct (FormatUint36_value n Hn) as (_ & Hp & _).
    rewrite <- Hs in Hp. simpl in Hp. discriminate. }
  destruct (Z.ltb_spec a 0) as [Ha0|Ha0], (Z.ltb_spec b 0) as [Hb0|Hb0]; intros H.
  - injection H as H. apply (f_equal (val36 0)) in H.
    destruct (FormatUint36_value (- a)) as [Hva _]; [lia|].
    destruct (FormatUint36_value (- b)) as [Hvb _]; [lia|].
    change (("" ++ FormatUint36 (- a))%string) with (FormatUint36 (- a)) in H.
    change (("" ++ FormatUint36 (- b))%string) with (FormatUint36 (- b)) in H. lia.
  - exfalso. apply (Hsign b ltac:(lia) _ H).
  - exfalso. symmetry in H. apply (Hsign a ltac:(lia) _ H).
  - apply (f_equal (val36 0)) in H.
    destruct (FormatUint36_value a) as [Hva _]; [lia|].
    destruct (FormatUint36_value b) as [Hvb _]; [lia|]. lia.
Qed.

Lemma cut_at_comma (s1 s2 r1 r2 : string) :
  forallb (fun c => negb (Ascii.eqb c ",")) (list_ascii_of_string s1) = true ->
  forallb (fun c => negb (Ascii.eqb c ",")) (list_ascii_of_string s2) = true ->
  (s1 ++ "," ++ r1 = s2 ++ "," ++ r2)%string -> s1 = s2 /\ r1 = r2.
Proof.
  revert s2. induction s1 as [|c s1 IH]; intros s2 H1 H2 H.
  - destruct s2 as [|c2 s2]; simpl in *.
    + injection H as H. by split.
    + injection H as <- _. simpl in H2. discriminate.
  - destruct s2 as [|c2 s2]; simpl in *.
    + injection H as -> _. simpl in H1. discriminate.
    + injection H as -> H.
      apply andb_true_iff in H1 as [_ H1]. apply andb_true_iff in H2 as [_ H2].
      destruct (IH s2 H1 H2 H) as [-> ->]. by split.
Qed.

Lemma FormatUint36_plain (n : Z) :
  0 <= n <= 2 ^ 64 ->
  forallb (fun c => negb (Ascii.eqb c ",")) (list_ascii_of_string (FormatUint36 n)) = true.
Proof.
  intros Hn. destruct (FormatUint36_value n Hn) as (_ & Hp & _).
  revert Hp. generalize (FormatUint36 n). induction s as [|c s IH]; simpl; [done|].
  intros H. apply andb_true_iff in H as [H1 H2]. apply andb_true_iff in H1 as [H1 _].
  rewrite H1. by apply IH.
Qed.

(** Two stat records in range with the same key are the same record. *)
Lemma stat_key_eq (s1 s2 : FileInfo) :
  stat_in_range s1 -> stat_in_range s2 ->
  newCachedStatFingerprintKey s1 = newCachedStatFingerprintKey s2 -> s1 = s2.
Proof.
  intros (A1 & A2 & A3) (B1 & B2 & B3) H. unfold newCachedStatFingerprintKey in H.
  apply cut_at_comma in H as [H1 H]; [|by apply FormatInt36_plain..].
  apply cut_at_comma in H as [H2 H3]; [|apply FormatUint36_plain; lia..].
  apply FormatInt36_inj in H1; [|done..]. apply FormatInt36_inj in H3; [|done..].
  apply (f_equal (val36 0)) in H2.
  destruct (FormatUint36_value (fi_Ino s1)) as [Hv1 _]; [lia|].
  destruct (FormatUint36_value (fi_Ino s2)) as [Hv2 _]; [lia|].
  rewrite Hv1, Hv2 in H2.
  destruct s1, s2; simpl in *; congruence.
Qed.

(** X15.  The key of the stat cache tells files apart: two stat records
    that differ in size, inode or modification time never get the same
    key. *)
Theorem stat_key_injective (s1 s2 : FileInfo) :
  stat_in_range s1 -> stat_in_range s2 -> s1 <> s2 ->
  newCachedStatFingerprintKey s1 <> newCachedStatFingerprintKey s2.
Proof. intros H1 H2 Hne Hk. apply Hne. by apply stat_key_eq. Qed.

Lemma stat_key_injective_witness :
  newCachedStatFingerprintKey (mkFileInfo 36 1 (-1)) <>
  newCachedStatFingerprintKey (mkFileInfo 1 0 (-1)).
Proof.
  apply (stat_key_injective (mkFileInfo 36 1 (-1)) (mkFileInfo 1 0 (-1))).
  - unfold stat_in_range. simpl. lia.
  - unfold stat_in_range. simpl. lia.
  - discriminate.
Defined.

(** X16.  While the stat cache holds fewer records than its capacity, so
    that adding one evicts none, it is a map on stat records: after
    [PutStatFingerprint] a lookup with the same record gives the fingerprint
    put, a lookup with any other record gives what it gave before, and the
    cache is not over its capacity. *)
Theorem stat_cache_put_get (w : World) (st st' : FileInfo) (fp : nat) :
  Z.of_nat (size (statCache (store w))) < statCacheSize ->
  stat_in_range st -> stat_in_range st' ->
  GetStatFingerprint (store (PutStatFingerprint w st fp)) st' =
    (if decide (st = st') then Some fp else GetStatFingerprint (store w) st') /\
  Z.of_nat (size (statCache (store (PutStatFingerprint w st fp)))) <= statCacheSize.
Proof.
  intros Hcap H1 H2. unfold GetStatFingerprint, PutStatFingerprint. simpl. split.
  - destruct (decide (st = st')) as [->|Hne].
    + by rewrite lookup_insert_eq.
    + rewrite lookup_insert_ne; [reflexivity|].
      intros Hk. apply Hne. by apply stat_key_eq.
  - rewrite map_size_insert. destruct (statCache (store w) !! _); simpl; lia.
Qed.

Lemma stat_cache_put_get_witness :
  GetStatFingerprint (store (PutStatFingerprint world2 sample_stat 0)) sample_stat = Some 0%nat /\
  GetStatFingerprint (store (PutStatFingerprint world2 sample_stat 0)) (mkFileInfo 3 42 1001) =
  GetStatFingerprint (store world2) (mkFileInfo 3 42 1001).
Proof.
  assert (Z.of_nat (size (statCache (store world2))) < statCacheSize) as H0
    by (vm_compute; reflexivity).
  assert (stat_in_range sample_stat) as H1 by (unfold stat_in_range; simpl; lia).
  assert (stat_in_range (mkFileInfo 3 42 1001)) as H2 by (unfold stat_in_range; simpl; lia).
  split.
  - exact (proj1 (stat_cache_put_get world2 sample_stat sample_stat 0 H0 H1 H1)).
  - exact (proj1 (stat_cache_put_get world2 sample_stat (mkFileInfo 3 42 1001) 0 H0 H1 H2)).
Defined.

(** ** Archives, repositories and files: what was put is found *)

Lemma find_archive_Some (h : gmap nat ArchiveFile) (l : list nat) (file : option nat)
    (e : nat) :
  find_archive h l file = Some (Some e) ->
  e ∈ l /\ exists a, h !! e = Some a /\ Archive_File a = file.
Proof.
  induction l as [|x l IH]; simpl; [discriminate|].
  destruct (h !! x) as [a|] eqn:Hx; simpl; [|discriminate].
  destruct (decide (Archive_File a = file)) as [Ha|Ha].
  - intros [= <-]. split; [left | eauto].
  - intros H. destruct (IH H) as [Hin Hex]. split; [by right | exact Hex].
Qed.

Lemma find_archive_ext (h h' : gmap nat ArchiveFile) (l : list nat) (file : option nat) :
  (forall p, p ∈ l -> h' !! p = h !! p) -> find_archive h' l file = find_archive h l file.
Proof.
  induction l as [|x l IH]; intros Hext; simpl; [reflexivity|].
  rewrite (Hext x) by left. destruct (h !! x) as [a|]; simpl; [|reflexivity].
  destruct (decide (Archive_File a = file)); [reflexivity|].
  apply IH. intros p Hp. apply Hext. by right.
Qed.

Lemma find_archive_snoc (h : gmap nat ArchiveFile) (l : list nat) (file : option nat)
    (r : nat) :
  find_archive h l file = Some None ->
  find_archive h (l ++ [r]) file = find_archive h [r] file.
Proof.
  induction l as [|x l IH]; simpl; [reflexivity|].
  destruct (h !! x) as [a|]; simpl; [|discriminate].
  destruct (decide (Archive_File a = file)); [discriminate | exact IH].
Qed.

(** X17.  What [PutArchiveFile] returns is what [GetArchiveFile] finds: on
    a store reached by put operations, the archive returned for an
    argument is a stored archive, and looking up the archive of its file
    gives back that same archive. *)
Theorem PutArchiveFile_then_GetArchiveFile (w w' : World) (a r : nat) :
  reachable w -> PutArchiveFile w a = Some (r, w') ->
  r ∈ ArchiveFiles (store w') /\
  exists ar file, archives (heap w') !! r = Some ar /\ Archive_File ar = Some file /\
                  GetArchiveFile w' file = Some (Some r).
Proof.
  intros Hr H. pose proof (reachable_Inv w Hr) as HI.
  assert (Inv w') as HI' by (by eapply PutArchiveFile_Inv).
  unfold PutArchiveFile in H.
  destruct (archives (heap w) !! a) as [a0|] eqn:Ha; simpl in H; [|discriminate].
  destruct (PutFile w (Archive_File a0)) as [[file w1]|] eqn:H1; simpl in H; [|discriminate].
  destruct (PutFile_Inv _ _ _ _ HI H1) as [HI1 Hfile].
  set (a1 := mkArchiveFile (Some file) (Entries a0) (archive_cache a0)) in *.
  set (w2 := with_archives (<[a := a1]> (archives (heap w1))) w1) in *.
  assert (forall w3, Files (store w1) `prefix_of` Files (store w3) -> Inv w3 ->
            GetArchiveFile w3 file =
            find_archive (archives (heap w3)) (ArchiveFiles (store w3)) (Some file))
    as Hget.
  { intros w3 Hpre (_ & (L1 & _) & _).
    pose proof (prefix_elem _ _ _ Hpre Hfile) as Hin.
    apply list_elem_of_lookup in Hin as [i Hi].
    destruct (L1 i file Hi) as (fl & q & Hfl & Hc & _).
    unfold GetArchiveFile. rewrite Hfl. simpl. unfold IsCached. by rewrite Hc. }
  match type of H with
  | context [find_archive ?h ?l ?x] => destruct (find_archive h l x) as [[ex|]|] eqn:Hfind
  end; simpl in H; [| |discriminate].
  all: match type of Hfind with
       | _ = ?res =>
           change (find_archive (archives (heap w2)) (ArchiveFiles (store w2)) (Some file)
                   = res) in Hfind
       end.
  - injection H as <- <-.
    destruct (find_archive_Some _ _ _ _ Hfind) as (Hin & ar & Har & Hfile').
    split; [exact Hin|]. exists ar, file. split; [exact Har|]. split; [exact Hfile'|].
    rewrite (Hget w2); [exact Hfind | done | exact HI'].
  - match type of H with
    | context [PutFiles ?x ?y] => destruct (PutFiles x y) as [[rs w3]|] eqn:H3
    end; simpl in H; [|discriminate].
    change (PutFiles w2 (Entries a1) = Some (rs, w3)) in H3.
    destruct (PutFiles_frame _ _ _ _ H3) as (G1 & G2 & G3 & G4 & G5 & G6 & G7).
    injection H as <- <-.
    split; [simpl; apply elem_of_app; right; by apply list_elem_of_singleton|].
    eexists _, file. split; [simpl; by rewrite lookup_insert_eq|]. split; [reflexivity|].
    rewrite Hget; [| exact G7 | exact HI']. simpl.
    assert (a ∉ ArchiveFiles (store w3)) as Hnew.
    { intros Hin. rewrite G4 in Hin.
      destruct (find_archive_None _ _ _ Hfind a Hin) as (a' & Ha' & Hne).
      subst w2. simpl in Ha'. rewrite lookup_insert_eq in Ha'. injection Ha' as <-.
      by apply Hne. }
    rewrite find_archive_snoc.
    + simpl. rewrite lookup_insert_eq. simpl. by rewrite decide_True.
    + rewrite <- Hfind, G4, G1.
      apply find_archive_ext. intros p Hp. rewrite G4 in Hnew.
      rewrite lookup_insert_ne; [reflexivity | intros ->; contradiction].
Qed.

Lemma PutArchiveFile_then_GetArchiveFile_witness :
  0%nat ∈ ArchiveFiles (store world1) /\
  exists ar file, archives (heap world1) !! 0%nat = Some ar /\ Archive_File ar = Some file /\
                  GetArchiveFile world1 file = Some (Some 0%nat).
Proof.
  apply (PutArchiveFile_then_GetArchiveFile world0 world1 0 0).
  - apply reach_fresh. exact sample_heap_nothing_cached.
  - vm_compute. reflexivity.
Defined.

Lemma find_repo_Some (h : gmap nat GitRepoSource) (l : list nat) (urn : string) (e : nat) :
  find_repo h l urn = Some (Some e) ->
  e ∈ l /\ exists g, h !! e = Some g /\ URN g = urn.
Proof.
  induction l as [|x l IH]; cbn; [discriminate|].
  destruct (h !! x) as [g|] eqn:Hx; cbn; [|discriminate].
  destruct (String.eqb_spec (URN g) urn) as [Hg|Hg].
  - intros [= <-]. split; [left | eauto].
  - intros H. destruct (IH H) as [Hin Hex]. split; [by right | exact Hex].
Qed.

Lemma find_repo_ext (h h' : gmap nat GitRepoSource) (l : list nat) (urn : string) :
  (forall p, p ∈ l -> h' !! p = h !! p) -> find_repo h' l urn = find_repo h l urn.
Proof.
  induction l as [|x l IH]; intros Hext; cbn; [reflexivity|].
  rewrite (Hext x) by left. destruct (h !! x) as [g|]; cbn; [|reflexivity].
  destruct (String.eqb (URN g) urn); [reflexivity|].
  apply IH. intros p Hp. apply Hext. by right.
Qed.

Lemma find_repo_snoc (h : gmap nat GitRepoSource) (l : list nat) (urn : string) (r : nat) :
  find_repo h l urn = Some None -> find_repo h (l ++ [r]) urn = find_repo h [r] urn.
Proof.
  induction l as [|x l IH]; cbn; [reflexivity|].
  destruct (h !! x) as [g|]; cbn; [|discriminate].
  destruct (String.eqb (URN g) urn); [discriminate | exact IH].
Qed.

Lemma PutGitSource_found (w : World) (g r : nat) (gr : GitRepoSource) :
  repos (heap w) !! g = Some gr -> FindGitSourceByURN w (URN gr) = Some (Some r) ->
  PutGitSource w g = Some (r, w).
Proof.
  intros Hg Hf. unfold PutGitSource. rewrite Hg. cbn.
  unfold FindGitSourceByURN in Hf. by rewrite Hf.
Qed.

(** X18.  One repository per URN: after [PutGitSource] the repository it
    returned is the one [FindGitSourceByURN] finds for the argument's URN,
    and putting any repository with that URN afterwards returns the same
    one and changes nothing. *)
Theorem PutGitSource_then_FindGitSourceByURN (w w' : World) (g r : nat) (gr : GitRepoSource) :
  repos (heap w) !! g = Some gr -> PutGitSource w g = Some (r, w') ->
  FindGitSourceByURN w' (URN gr) = Some (Some r) /\
  forall g2 gr2, repos (heap w') !! g2 = Some gr2 -> URN gr2 = URN gr ->
                 PutGitSource w' g2 = Some (r, w').
Proof.
  intros Hg H.
  assert (FindGitSourceByURN w' (URN gr) = Some (Some r)) as Hfind'.
  { unfold PutGitSource in H. rewrite Hg in H. cbn in H.
    destruct (find_repo (repos (heap w)) (GitRepoSources (store w)) (URN gr))
      as [[ex|]|] eqn:Hfind; cbn in H; [| |discriminate].
    { by injection H as <- <-. }
    destruct (PutFiles w (Repo_Files gr)) as [[rs w1]|] eqn:H1; cbn in H; [|discriminate].
    destruct (PutFiles_frame _ _ _ _ H1) as (_ & B2 & B3 & _).
    injection H as <- <-. unfold FindGitSourceByURN. cbn.
    assert (g ∉ GitRepoSources (store w)) as Hnew.
    { intros Hin. destruct (find_repo_None _ _ _ Hfind g Hin) as (g' & Hg' & Hne).
      rewrite Hg in Hg'. injection Hg' as <-. by apply Hne. }
    rewrite B3, find_repo_snoc.
    - cbn. rewrite lookup_insert_eq. cbn.
      change (URN (mkGitRepoSource (Commit gr) (Tag gr) (Branch gr) (URL gr)
                     (map Some rs) (mkCacheID (length (GitRepoSources (store w))) true)))
        with (URN gr).
      by rewrite String.eqb_refl.
    - rewrite <- Hfind, B2. apply find_repo_ext. intros p Hp.
      rewrite lookup_insert_ne; [reflexivity | intros ->; contradiction]. }
  split; [exact Hfind'|].
  intros g2 gr2 Hg2 Hurn. apply (PutGitSource_found w' g2 r gr2 Hg2). by rewrite Hurn.
Qed.

Lemma PutGitSource_then_FindGitSourceByURN_witness :
  FindGitSourceByURN world2 (URN (mkGitRepoSource sample_git "v1" "" "" [Some 1%nat] noCacheID))
    = Some (Some 0%nat) /\
  forall g2 gr2, repos (heap world2) !! g2 = Some gr2 ->
                 URN gr2 = URN (mkGitRepoSource sample_git "v1" "" "" [Some 1%nat] noCacheID) ->
                 PutGitSource world2 g2 = Some (0%nat, world2).
Proof.
  apply (PutGitSource_then_FindGitSourceByURN world1 world2 0 0).
  - vm_compute. reflexivity.
  - vm_compute. reflexivity.
Defined.

Lemma get_file_finds (h : Heap) (l : list nat) (path : string) (g : digest) (e q : nat)
    (el : File) (qf : Fingerprint) :
  Forall (fun ex => exists x p, files h !! ex = Some x /\ File_Fingerprint x = Some p /\
                                is_Some (fps h !! p)) l ->
  e ∈ l -> files h !! e = Some el -> Path el = path -> File_Fingerprint el = Some q ->
  fps h !! q = Some qf -> GitSHA qf = g ->
  exists x xl p pf, get_file h l path g = Some (Some x) /\ x ∈ l /\
    files h !! x = Some xl /\ Path xl = path /\ File_Fingerprint xl = Some p /\
    fps h !! p = Some pf /\ GitSHA pf = g.
Proof.
  intros Hl He Hel Hpath Hq Hqf Hg.
  induction Hl as [|y l (yl & p & Hy & Hp & [pf Hpf]) _ IH]; simpl.
  - by apply elem_of_nil in He.
  - rewrite Hy. simpl. destruct (String.eqb_spec (Path yl) path) as [Hyp|Hyp].
    + rewrite Hp. simpl. rewrite Hpf. simpl.
      destruct (digest_eqb (GitSHA pf) g) eqn:Hd.
      * apply digest_eqb_true in Hd. exists y, yl, p, pf. repeat split; [left | done..].
      * apply elem_of_cons in He as [->|He].
        { rewrite Hy in Hel. injection Hel as <-. rewrite Hp in Hq. injection Hq as <-.
          rewrite Hpf in Hqf. injection Hqf as <-.
          apply (proj2 (digest_eqb_true _ _)) in Hg. congruence. }
        destruct (IH He) as (x & xl & p' & pf' & Hx & Hin & Hrest).
        exists x, xl, p', pf'. split; [exact Hx|]. split; [by right | exact Hrest].
    + apply elem_of_cons in He as [->|He].
      { rewrite Hy in Hel. injection Hel as <-. contradiction. }
      destruct (IH He) as (x & xl & p' & pf' & Hx & Hin & Hrest).
      exists x, xl, p', pf'. split; [exact Hx|]. split; [by right | exact Hrest].
Qed.

(** X19.  After [PutFile] the lookup by the path and the git-sha of the
    file it returned does not panic and finds a stored file with that path
    and that git-sha (the first one; it need not be the file returned). *)
Theorem PutFile_then_GetFileByNameAndGitSHA (w w' : World) (f r : nat) (fl : File) :
  reachable w -> files (heap w) !! f = Some fl -> PutFile w (Some f) = Some (r, w') ->
  exists rl q qf,
    files (heap w') !! r = Some rl /\ Path rl = Path fl /\ File_Fingerprint rl = Some q /\
    fps (heap w') !! q = Some qf /\
    exists x xl p pf,
      GetFileByNameAndGitSHA w' (Path fl) (GitSHA qf) = Some (Some x) /\
      x ∈ Files (store w') /\ files (heap w') !! x = Some xl /\ Path xl = Path fl /\
      File_Fingerprint xl = Some p /\ fps (heap w') !! p = Some pf /\ GitSHA pf = GitSHA qf.
Proof.
  intros Hr Hfl Hput. pose proof (reachable_Inv w Hr) as HI.
  destruct (PutFile_Inv w w' (Some f) r HI Hput) as [HI' Hin].
  destruct (PutFile_path w w' f r fl Hput Hfl) as (rl & Hrl & Hpath).
  pose proof HI' as ((F1 & _) & (L1 & _) & _).
  pose proof Hin as Hin'. apply list_elem_of_lookup in Hin' as [i Hi].
  destruct (L1 i r Hi) as (rl' & q & Hrl' & _ & Hq & Hqin).
  rewrite Hrl in Hrl'. injection Hrl' as <-.
  apply list_elem_of_lookup in Hqin as [j Hj].
  destruct (F1 j q Hj) as (qf & Hqf & _).
  exists rl, q, qf. split; [exact Hrl|]. split; [exact Hpath|]. split; [exact Hq|].
  split; [exact Hqf|].
  apply (get_file_finds (heap w') (Files (store w')) (Path fl) (GitSHA qf) r q rl qf);
    [by apply stored_files_allocated | done..].
Qed.

Lemma PutFile_then_GetFileByNameAndGitSHA_witness :
  exists w', PutFile world0 (Some 1%nat) = Some (1%nat, w') /\
  exists rl q qf,
    files (heap w') !! 1%nat = Some rl /\ Path rl = "b.txt"%string /\
    File_Fingerprint rl = Some q /\ fps (heap w') !! q = Some qf /\
    exists x xl p pf,
      GetFileByNameAndGitSHA w' "b.txt" (GitSHA qf) = Some (Some x) /\
      x ∈ Files (store w') /\ files (heap w') !! x = Some xl /\ Path xl = "b.txt"%string /\
      File_Fingerprint xl = Some p /\ fps (heap w') !! p = Some pf /\ GitSHA pf = GitSHA qf.
Proof.
  exists (after world0 (PutFile world0 (Some 1%nat))).
  assert (PutFile world0 (Some 1%nat) =
          Some (1%nat, after world0 (PutFile world0 (Some 1%nat)))) as Hput
    by (vm_compute; reflexivity).
  split; [exact Hput|].
  apply (PutFile_then_GetFileByNameAndGitSHA world0 _ 1 1
           (mkFile "b.txt" (Some 1%nat) noCacheID)).
  - apply reach_fresh. exact sample_heap_nothing_cached.
  - reflexivity.
  - exact Hput.
Defined.

(** ** Searching by matcher *)

Lemma NewDigestMatcher_hex (algo : string) (b : digest) :
  algo ∈ matcherTypes -> is_bytes b -> b <> [] ->
  NewDigestMatcher (algo ++ ":" ++ EncodeToString b) =
  Some (mkDigestMatcher (EncodeToString b) algo (Some b)).
Proof.
  intros Halgo Hb Hne.
  unfold NewDigestMatcher, FindStringSubmatch.
  rewrite (matcherTypes_cut _ _ Halgo).
  apply matcherTypes_existsb in Halgo. rewrite Halgo.
  rewrite (all_hex_EncodeToString _ Hb).
  assert (EncodeToString b <> EmptyString) as Hs by (destruct b; [done | discriminate]).
  destruct (String.eqb_spec (EncodeToString b) ""); [contradiction|].
  cbn [andb negb]. by rewrite (DecodeString_EncodeToString _ Hb).
Qed.

Lemma find_matching_none (h : gmap nat Fingerprint) (l : list nat)
    (matcher : Fingerprint -> bool) :
  Forall (fun x => is_Some (h !! x)) l -> (forall f, matcher f = false) ->
  find_matching h l matcher = Some None.
Proof.
  intros Hl Hm. induction Hl as [|x l [f Hf] _ IH]; simpl; [reflexivity|].
  rewrite Hf. simpl. by rewrite Hm.
Qed.

Lemma find_matching_finds (h : gmap nat Fingerprint) (l : list nat)
    (matcher : Fingerprint -> bool) (e : nat) (ef : Fingerprint) :
  Forall (fun x => is_Some (h !! x)) l -> e ∈ l -> h !! e = Some ef -> matcher ef = true ->
  exists x xf, find_matching h l matcher = Some (Some x) /\ x ∈ l /\ h !! x = Some xf /\
               matcher xf = true.
Proof.
  intros Hl He Hef Hm. induction Hl as [|y l [yf Hy] _ IH]; simpl.
  - by apply elem_of_nil in He.
  - rewrite Hy. simpl. destruct (matcher yf) eqn:Hmy.
    + exists y, yf. repeat split; [left | done..].
    + apply elem_of_cons in He as [->|He]; [congruence|].
      destruct (IH He) as (x & xf & Hx & Hin & Hxf & Hmx).
      exists x, xf. repeat split; [done | by right | done..].
Qed.

(** X20.  A wildcard matcher finds nothing: on a store reached by put
    operations the search for a matcher whose algorithm is the wildcard
    scans the whole store without a panic and returns nil, whatever the
    store holds. *)
Theorem wildcard_matcher_finds_nothing (w : World) (m : DigestMatcher) :
  reachable w -> T m = "*"%string -> FindMatchingFingerprint w m = Some None.
Proof.
  intros Hr HT. apply reachable_Inv in Hr as [Hok _].
  unfold FindMatchingFingerprint, cache_FindMatchingFingerprint. rewrite HT. simpl.
  apply find_matching_none; [by apply stored_fingerprints_allocated|].
  intros f. unfold FingerprintMatcher_Match. by rewrite HT.
Qed.

Lemma wildcard_matcher_finds_nothing_witness :
  exists m, NewDigestMatcher "*:11" = Some m /\
            (exists f, fps (heap world3) !! 0%nat = Some f /\ 0%nat ∈ Fingerprints (store world3) /\
                       DigestMatcher_Match m (GitSHA f) = true) /\
            FindMatchingFingerprint world3 m = Some None.
Proof.
  eexists. split; [reflexivity|]. split.
  - eexists. split; [reflexivity|]. split; [|reflexivity].
    vm_compute. set_solver.
  - apply (wildcard_matcher_finds_nothing world3 _ reachable_world3). reflexivity.
Defined.

(** X21.  The pattern made of the whole git-sha of a stored fingerprint
    is answered from the git-sha index, every shorter pattern by the scan.
    So for a stored fingerprint whose git-sha the index does not hold, the
    full pattern finds nothing, while every proper non-empty prefix of it
    finds a stored fingerprint whose git-sha starts with that prefix. *)
Theorem full_git_pattern_misses_unindexed (w : World) (e : nat) (ef : Fingerprint) :
  reachable w -> e ∈ Fingerprints (store w) -> fps (heap w) !! e = Some ef ->
  is_bytes (GitSHA ef) -> length (GitSHA ef) = 20%nat ->
  gitSHAIndex (store w) !! GitSHA ef = None ->
  (exists m, NewDigestMatcher ("git" ++ ":" ++ EncodeToString (GitSHA ef)) = Some m /\
             FindMatchingFingerprint w m = Some None) /\
  (forall n, (0 < n < 20)%nat ->
     exists m x xf,
       NewDigestMatcher ("git" ++ ":" ++ EncodeToString (take n (GitSHA ef))) = Some m /\
       FindMatchingFingerprint w m = Some (Some x) /\ x ∈ Fingerprints (store w) /\
       fps (heap w) !! x = Some xf /\ take n (GitSHA ef) `prefix_of` GitSHA xf).
Proof.
  intros Hr He Hef Hb Hlen Hidx. apply reachable_Inv in Hr as [Hok _].
  assert ("git"%string ∈ matcherTypes) as Hgit by (unfold matcherTypes; set_solver).
  split.
  - eexists. split.
    + apply NewDigestMatcher_hex; [done..|]. intros E. by rewrite E in Hlen.
    + unfold FindMatchingFingerprint. cbn [T B default from_option id]. rewrite Hlen. simpl.
      by apply GetFingerprintByGitSHA_unindexed.
  - intros n Hn. set (b := take n (GitSHA ef)).
    assert (length b = n) as Hbl by (unfold b; rewrite length_take; lia).
    assert (is_bytes b) as Hbb by (by apply Forall_take).
    assert (b <> []) as Hbne by (intros E; rewrite E in Hbl; simpl in Hbl; lia).
    set (m := mkDigestMatcher (EncodeToString b) "git" (Some b)).
    assert (forall f, FingerprintMatcher_Match m f = true <-> b `prefix_of` GitSHA f) as Hmatch.
    { intros f. unfold FingerprintMatcher_Match, DigestMatcher_Match. simpl.
      destruct (Nat.ltb_spec (length (GitSHA f)) (length b)) as [Hlt|Hge].
      - split; [done|]. intros Hp. apply prefix_length in Hp. lia.
      - apply bytesHasPrefix_prefix. }
    destruct (find_matching_finds (fps (heap w)) (Fingerprints (store w))
                (FingerprintMatcher_Match m) e ef) as (x & xf & Hx & Hin & Hxf & Hmx).
    { by apply stored_fingerprints_allocated. }
    { exact He. }
    { exact Hef. }
    { apply Hmatch. apply prefix_take. }
    exists m, x, xf. split; [by apply NewDigestMatcher_hex|].
    split; [|split; [exact Hin | split; [exact Hxf | by apply Hmatch]]].
    unfold FindMatchingFingerprint. cbn [T B default from_option id m]. rewrite Hbl.
    destruct (Nat.eqb_spec n 20) as [->|_]; [lia|]. exact Hx.
Qed.

Lemma full_git_pattern_misses_unindexed_witness :
  (exists m, NewDigestMatcher ("git" ++ ":" ++ EncodeToString sample_git) = Some m /\
             FindMatchingFingerprint world_merged m = Some None) /\
  (forall n, (0 < n < 20)%nat ->
     exists m x xf,
       NewDigestMatcher ("git" ++ ":" ++ EncodeToString (take n sample_git)) = Some m /\
       FindMatchingFingerprint world_merged m = Some (Some x) /\
       x ∈ Fingerprints (store world_merged) /\
       fps (heap world_merged) !! x = Some xf /\ take n sample_git `prefix_of` GitSHA xf).
Proof.
  apply (full_git_pattern_misses_unindexed world_merged 2
           (fp_SetCacheID (partial_fp sample_git sample_md5 sample_sha256 3) 0)).
  - apply reachable_after_PutFingerprint, reachable_after_PutFingerprint, reach_fresh.
    exact sample_heap_nothing_cached.
  - vm_compute. set_solver.
  - vm_compute. reflexivity.
  - unfold is_bytes. simpl. unfold sample_git. simpl. repeat (constructor; [lia|]). constructor.
  - reflexivity.
  - vm_compute. reflexivity.
Defined.

(** ** Restoring a store *)

Lemma load_fingerprints_inv (id : nat) (l : list SerializedFingerprint) (r : list Fingerprint) :
  load_fingerprints id l = LoadOk r ->
  forall k f, r !! k = Some f -> fp_cache f = mkCacheID (id + k) true.
Proof.
  revert id r. induction l as [|sf l IH]; intros id r H; simpl in H.
  - injection H as <-. intros k f Hk. by rewrite lookup_nil in Hk.
  - destruct (decide (id = sf_ID sf)); [|discriminate].
    destruct (load_fingerprints (S id) l) as [|?|r'] eqn:Hl; try discriminate.
    injection H as <-. intros [|k] f Hk; simpl in Hk.
    + injection Hk as <-. simpl. by rewrite Nat.add_0_r.
    + rewrite (IH _ _ Hl k f Hk). f_equal. lia.
Qed.

Lemma load_files_inv (Fps : list nat) (id : nat) (l : list SerializedFile) (r : list File) :
  load_files Fps id l = LoadOk r ->
  forall k f, r !! k = Some f ->
    file_cache f = mkCacheID (id + k) true /\
    exists q, File_Fingerprint f = Some q /\ q ∈ Fps.
Proof.
  revert id r. induction l as [|sf l IH]; intros id r H; simpl in H.
  - injection H as <-. intros k f Hk. by rewrite lookup_nil in Hk.
  - destruct (decide (id = sfile_ID sf)); [|discriminate].
    destruct (Fps !! sfile_Fingerprint sf) as [fp|] eqn:Hfp; [|discriminate].
    destruct (load_files Fps (S id) l) as [|?|r'] eqn:Hl; try discriminate.
    injection H as <-. intros [|k] f Hk; simpl in Hk.
    + injection Hk as <-. simpl. rewrite Nat.add_0_r. split; [done|].
      exists fp. split; [done|]. by eapply list_elem_of_lookup_2.
    + destruct (IH _ _ Hl k f Hk) as [Hc Hq]. split; [|exact Hq].
      rewrite Hc. f_equal. lia.
Qed.

Lemma mapM_lookup_elems (Fls : list nat) (es entries : list nat) :
  mapM (fun e => Fls !! e) es = Some entries ->
  Forall (fun e => exists x, e = Some x /\ x ∈ Fls) (map Some entries).
Proof.
  intros H. apply Forall_lookup. intros i e Hi.
  rewrite list_lookup_fmap in Hi.
  destruct (entries !! i) as [y|] eqn:Hy; simpl in Hi; [|discriminate].
  injection Hi as <-.
  destruct (mapM_lookup_inv _ _ _ _ _ H Hy) as (x & _ & Hx).
  exists y. split; [done|]. by eapply list_elem_of_lookup_2.
Qed.

Lemma load_archives_inv (Fls : list nat) (id : nat) (l : list SerializedArchiveFile)
    (r : list ArchiveFile) :
  load_archives Fls id l = LoadOk r ->
  forall k a, r !! k = Some a ->
    archive_cache a = mkCacheID (id + k) true /\
    (exists q, Archive_File a = Some q /\ q ∈ Fls) /\
    Forall (fun e => exists x, e = Some x /\ x ∈ Fls) (Entries a).
Proof.
  revert id r. induction l as [|sa l IH]; intros id r H; simpl in H.
  - injection H as <-. intros k a Hk. by rewrite lookup_nil in Hk.
  - destruct (decide (id = sa_ID sa)); [|discriminate].
    destruct (mapM (fun e => Fls !! e) (sa_Entries sa)) as [entries|] eqn:He; [|discriminate].
    destruct (Fls !! sa_File sa) as [file|] eqn:Hf; [|discriminate].
    destruct (load_archives Fls (S id) l) as [|?|r'] eqn:Hl; try discriminate.
    injection H as <-. intros [|k] a Hk; simpl in Hk.
    + injection Hk as <-. simpl. rewrite Nat.add_0_r. split; [done|]. split.
      * exists file. split; [done|]. by eapply list_elem_of_lookup_2.
      * by eapply mapM_lookup_elems.
    + destruct (IH _ _ Hl k a Hk) as [Hc Hq]. split; [|exact Hq].
      rewrite Hc. f_equal. lia.
Qed.

Lemma load_repos_inv (Fls : list nat) (id : nat) (l : list SerializedGitRepo)
    (r : list GitRepoSource) :
  load_repos Fls id l = LoadOk r ->
  forall k g, r !! k = Some g ->
    repo_cache g = mkCacheID (id + k) true /\
    Forall (fun e => exists x, e = Some x /\ x ∈ Fls) (Repo_Files g).
Proof.
  revert id r. induction l as [|sr l IH]; intros id r H; simpl in H.
  - injection H as <-. intros k g Hk. by rewrite lookup_nil in Hk.
  - destruct (mapM (fun e => Fls !! e) (sr_Files sr)) as [entries|] eqn:He; [|discriminate].
    destruct (load_repos Fls (S id) l) as [|?|r'] eqn:Hl; try discriminate.
    injection H as <-. intros [|k] g Hk; simpl in Hk.
    + injection Hk as <-. simpl. rewrite Nat.add_0_r. split; [done|].
      by eapply mapM_lookup_elems.
    + destruct (IH _ _ Hl k g Hk) as [Hc Hq]. split; [|exact Hq].
      rewrite Hc. f_equal. lia.
Qed.

Lemma map_mapM_inv {A B : Type} (f : A -> option B) (m : gmap string A) (m' : gmap string B) :
  map_mapM f m = Some m' ->
  forall k b, m' !! k = Some b -> exists a, m !! k = Some a /\ f a = Some b.
Proof.
  unfold map_mapM. revert m'.
  apply (map_fold_weak_ind
           (fun r m => forall m', r = Some m' ->
              forall k b, m' !! k = Some b -> exists a, m !! k = Some a /\ f a = Some b)).
  - intros m' [= <-] k b Hk. by rewrite lookup_empty in Hk.
  - intros i x m0 r Hi IH m' H k b Hk.
    destruct r as [acc|]; simpl in H; [|discriminate].
    destruct (f x) as [y|] eqn:Hy; simpl in H; [|discriminate].
    injection H as <-. destruct (decide (k = i)) as [->|Hne].
    + rewrite lookup_insert_eq in Hk. injection Hk as <-.
      exists x. by rewrite lookup_insert_eq.
    + rewrite lookup_insert_ne in Hk by done.
      destruct (IH acc eq_refl k b Hk) as (a & Ha & Hfa).
      exists a. by rewrite lookup_insert_ne.
Qed.

Lemma loaded_index (hashes : digest -> list nat) (fobjs : list Fingerprint) (n : nat)
    (ix : gmap (list Z) nat) (b : bloomFilter) :
  Forall (fun f => (CacheID (fp_cache f) < n)%nat) fobjs ->
  (forall g i, ix !! g = Some i -> (i < n)%nat /\ bloom_Contains b g = true) ->
  forall g i,
    fold_left (fun ix f => <[GitSHA f := CacheID (fp_cache f)]> ix) fobjs ix !! g = Some i ->
    (i < n)%nat /\
    bloom_Contains (fold_left (fun b f => bloom_Add b (GitSHA f)) fobjs b) g = true.
Proof.
  intros Hall. revert ix b. induction Hall as [|f fobjs Hf _ IH]; intros ix b Hix g i; simpl.
  - apply Hix.
  - apply IH. intros g' i' Hg'. destruct (decide (g' = GitSHA f)) as [->|Hne].
    + rewrite lookup_insert_eq in Hg'. injection Hg' as <-.
      split; [exact Hf | apply bloom_Contains_Add_same].
    + rewrite lookup_insert_ne in Hg' by done.
      destruct (Hix g' i' Hg') as [Hlt Hb]. split; [exact Hlt | by apply bloom_Contains_Add].
Qed.

(** A store that was loaded satisfies the invariant of the stores built by
    put operations. *)
Lemma loadSerializedCache_Inv (hashes : digest -> list nat) (onDisk : SerializedCache)
    (w : World) :
  loadSerializedCache hashes onDisk = LoadOk w -> Inv w.
Proof.
  unfold loadSerializedCache. intros H.
  destruct (load_fingerprints 0 (sc_Fingerprints onDisk)) as [|?|fobjs] eqn:H1;
    try discriminate.
  destruct (load_files _ 0 (sc_Files onDisk)) as [|?|flobjs] eqn:H2; try discriminate.
  destruct (load_archives _ 0 (sc_Archives onDisk)) as [|?|aobjs] eqn:H3; try discriminate.
  destruct (load_repos _ 0 (sc_Repos onDisk)) as [|?|robjs] eqn:H4; try discriminate.
  destruct (map_mapM _ (sc_StatCache onDisk)) as [stat|] eqn:H5; [|discriminate].
  injection H as <-.
  pose proof (load_fingerprints_inv _ _ _ H1) as I1.
  pose proof (load_files_inv _ _ _ _ H2) as I2.
  pose proof (load_archives_inv _ _ _ _ H3) as I3.
  pose proof (load_repos_inv _ _ _ _ H4) as I4.
  pose proof (map_mapM_inv _ _ _ H5) as I5.
  assert (forall (A : Type) (objs : list A) i p,
            seq 0 (length objs) !! i = Some p -> p = i /\ exists a, objs !! i = Some a) as Hseq.
  { intros A objs i p Hi. apply lookup_seq in Hi as [-> Hlt].
    split; [done|]. by apply lookup_lt_is_Some. }
  split; [|split; [|split; [|split]]].
  - split; [|split]; simpl.
    + intros i p Hi. destruct (Hseq _ _ _ _ Hi) as [-> [f Hf]].
      exists f. rewrite lookup_map_seq_0. split; [done|]. by apply (I1 i f).
    + intros p f Hp Hid. rewrite lookup_map_seq_0 in Hp.
      rewrite (I1 p f Hp). simpl. apply lookup_seq. split; [done|].
      by eapply lookup_lt_Some.
    + apply (loaded_index hashes fobjs (length (seq 0 (length fobjs)))).
      * apply Forall_lookup. intros k f Hk. rewrite (I1 k f Hk). simpl.
        rewrite length_seq. by eapply lookup_lt_Some.
      * intros g i Hg. by rewrite lookup_empty in Hg.
  - split; simpl.
    + intros i p Hi. destruct (Hseq _ _ _ _ Hi) as [-> [f Hf]].
      destruct (I2 i f Hf) as [Hc (q & Hq & Hin)].
      exists f, q. rewrite lookup_map_seq_0. by repeat split.
    + intros p f Hp Hid. rewrite lookup_map_seq_0 in Hp.
      destruct (I2 p f Hp) as [Hc _]. rewrite Hc. simpl. apply lookup_seq.
      split; [done|]. by eapply lookup_lt_Some.
  - intros i p Hi. simpl in *. destruct (Hseq _ _ _ _ Hi) as [-> [a Ha]].
    destruct (I3 i a Ha) as (Hc & (q & Hq & Hin) & Hent).
    exists a, q. rewrite lookup_map_seq_0. by repeat split.
  - intros i p Hi. simpl in *. destruct (Hseq _ _ _ _ Hi) as [-> [g Hg]].
    destruct (I4 i g Hg) as (Hc & Hent).
    exists g. rewrite lookup_map_seq_0. by repeat split.
  - intros k p Hk. simpl in *. destruct (I5 k p Hk) as (a & _ & Ha).
    by eapply list_elem_of_lookup_2.
Qed.

(** X22.  [RestoreRememberedObjects] returns nil when the file is missing
    or cannot be decoded.  When the decoded cache loads without an error,
    the loaded store satisfies the invariant of the stores built by put
    operations and passes [Verify], so the inconsistency branch of the
    source is not taken and the loaded store is returned. *)
Theorem restore_outcomes (c : Codec) (useGob : bool) (hashes : digest -> list nat)
    (disk : gmap string (wire c)) :
  let decoded := if useGob then disk !! "fingerprint.gob"%string ≫= gob_snappy_decode c
                 else disk !! "fingerprint.yaml"%string ≫= yaml_decode c in
  (decoded = None -> RestoreRememberedObjects c useGob hashes disk = Some None) /\
  (forall onDisk w, decoded = Some onDisk -> loadSerializedCache hashes onDisk = LoadOk w ->
     RestoreRememberedObjects c useGob hashes disk = Some (Some w) /\ Inv w /\
     Verify w = Some None).
Proof.
  intros decoded. unfold RestoreRememberedObjects. fold decoded.
  split.
  - intros ->. reflexivity.
  - intros onDisk w -> Hl. rewrite Hl.
    pose proof (loadSerializedCache_Inv _ _ _ Hl) as HI.
    assert (Verify w = Some None) as HV by (by apply Verify_ok_iff, Inv_ids_consistent).
    rewrite HV. simpl. done.
Qed.

Lemma restore_outcomes_witness :
  RestoreRememberedObjects sample_codec true sample_hashes ∅ = Some None /\
  RestoreRememberedObjects sample_codec true sample_hashes sample_disk =
    Some (Some sample_restored) /\
  Inv sample_restored /\ Verify sample_restored = Some None /\
  Fingerprints (store sample_restored) = [0; 1]%nat.
Proof.
  split; [|split; [|split; [|split]]].
  - apply (proj1 (restore_outcomes sample_codec true sample_hashes ∅)). reflexivity.
  - apply (proj2 (restore_outcomes sample_codec true sample_hashes sample_disk)
             sample_onDisk sample_restored); vm_compute; reflexivity.
  - apply (proj2 (restore_outcomes sample_codec true sample_hashes sample_disk)
             sample_onDisk sample_restored); vm_compute; reflexivity.
  - apply (proj2 (restore_outcomes sample_codec true sample_hashes sample_disk)
             sample_onDisk sample_restored); vm_compute; reflexivity.
  - vm_compute. reflexivity.
Defined.

(** ** The passthrough tee and [IdentifyFileWithStat] *)

Lemma harvest_cache (pr : Primitives) (err : option string) (hs : list AsyncHash)
    (f : Fingerprint) :
  fp_cache (fold_left (harvest pr err) hs f) = fp_cache f.
Proof.
  revert f. induction hs as [|h hs IH]; intros f; simpl; [reflexivity|].
  rewrite IH. unfold harvest. destruct err; [reflexivity|].
  destruct (Done pr h) as [[k d]|]; [by destruct k | reflexivity].
Qed.

Lemma CalculateSums_cache (pr : Primitives) (f : Fingerprint) (data : Reader) (size : Z) :
  fp_cache (CalculateSums pr f data size).1 = fp_cache f.
Proof.
  rewrite CalculateSums_fst, harvest_cache. unfold with_declared_size.
  by destruct (_ && _).
Qed.

Lemma fresh_fingerprint (w : World) : fps (heap w) !! fresh (dom (fps (heap w))) = None.
Proof. apply not_elem_of_dom. apply is_fresh. Qed.

Lemma fresh_file (w : World) : files (heap w) !! fresh (dom (files (heap w))) = None.
Proof. apply not_elem_of_dom. apply is_fresh. Qed.

(** Hashing a new fingerprint and putting it: no panic, and the result is
    a stored fingerprint. *)
Lemma put_new_fingerprint (pr : Primitives) (w : World) (data : Reader) (size : Z) :
  reachable w ->
  let result := fresh (dom (fps (heap w))) in
  let sums := (CalculateSums pr zeroFingerprint data size).1 in
  exists fp w1,
    PutFingerprint (with_fps (<[result := sums]> (fps (heap w))) w) result = Some (fp, w1) /\
    reachable w1 /\ fp ∈ Fingerprints (store w1).
Proof.
  intros Hr result sums.
  assert (reachable (with_fps (<[result := sums]> (fps (heap w))) w)) as Hr0.
  { apply reach_new_Fingerprint; [done | apply fresh_fingerprint|].
    unfold sums. by rewrite CalculateSums_cache. }
  pose proof (reachable_Inv _ Hr0) as HI0.
  destruct (PutFingerprint_total _ result (proj1 HI0)) as [[fp w1] Hput].
  { simpl. rewrite lookup_insert_eq. eauto. }
  exists fp, w1. split; [exact Hput|]. split; [by eapply reach_PutFingerprint|].
  by destruct (PutFingerprint_Inv _ _ _ _ HI0 Hput).
Qed.

(** X23.  On a store reached by put operations the passthrough tee around
    a reader that is not a [passthroughHasher] value does not panic: it hands
    back a reader of the same bytes and a stored fingerprint, leaves a store
    of the same kind, and, when a stat record was given, a lookup of that
    record in the stat cache afterwards gives this fingerprint. *)
Theorem fingerprintPassthrough_interns (pr : Primitives) (w : World) (r : Reader) (size : Z)
    (stat : option FileInfo) :
  reachable w -> r_type r <> T_passthroughHasher ->
  exists r' fp w',
    fingerprintPassthrough pr w (Some r) size stat = PassOk r' fp w' /\
    reachable w' /\ fp ∈ Fingerprints (store w') /\ r_bytes r' = r_bytes r /\
    (forall st, stat = Some st -> GetStatFingerprint (store w') st = Some fp).
Proof.
  intros Hr Hty. unfold fingerprintPassthrough.
  assert (forall X Y : PassResult,
            match r_type r with T_passthroughHasher => X | _ => Y end = Y) as Hsel
    by (intros X Y; destruct (r_type r); [contradiction | reflexivity..]).
  rewrite Hsel. clear Hsel.
  destruct (stat ≫= GetStatFingerprint (store w)) as [cfp|] eqn:Hhit.
  - exists r, cfp, w. split; [reflexivity|]. split; [exact Hr|].
    destruct stat as [st|]; [|discriminate]. simpl in Hhit.
    apply reachable_Inv in Hr as (_ & _ & _ & _ & Hs).
    split; [by eapply Hs|]. split; [reflexivity|]. by intros st' [= <-].
  - set (rd := mkReader (T_other "*io.PipeReader") (r_bytes r) None).
    pose proof (CalculateSums_no_error pr zeroFingerprint rd size eq_refl) as Hnone.
    destruct (put_new_fingerprint pr w rd size Hr) as (fp & w1 & Hput & Hr1 & Hin).
    destruct (CalculateSums pr zeroFingerprint rd size) as [f [err|]] eqn:HC;
      [discriminate|].
    simpl in Hput. rewrite Hput.
    eexists _, fp, _. split; [reflexivity|].
    destruct stat as [st|]; simpl.
    + split; [by apply reach_PutStatFingerprint|]. split; [exact Hin|].
      split; [reflexivity|]. intros st' [= <-].
      unfold GetStatFingerprint. simpl. by rewrite lookup_insert_eq.
    + split; [exact Hr1|]. split; [exact Hin|]. split; [reflexivity|]. discriminate.
Qed.

Lemma fingerprintPassthrough_interns_witness :
  exists r' fp w',
    fingerprintPassthrough sample_primitives world2 (Some (mkReader (T_other "*os.File") [1; 2] None))
      2 (Some sample_stat) = PassOk r' fp w' /\
    reachable w' /\ fp ∈ Fingerprints (store w') /\ r_bytes r' = [1; 2] /\
    (forall st, Some sample_stat = Some st -> GetStatFingerprint (store w') st = Some fp).
Proof.
  apply (fingerprintPassthrough_interns sample_primitives world2
           (mkReader (T_other "*os.File") [1; 2] None) 2 (Some sample_stat)).
  - exact reachable_world2.
  - discriminate.
Defined.

Lemma find_file_ext (h h' : Heap) (l : list nat) (path : string) (fp : nat) :
  fps h' = fps h -> (forall p, p ∈ l -> files h' !! p = files h !! p) ->
  find_file h' l path fp = find_file h l path fp.
Proof.
  intros Hfps. induction l as [|x l IH]; intros Hext; simpl; [reflexivity|].
  rewrite (Hext x) by left. rewrite Hfps.
  rewrite IH by (intros p Hp; apply Hext; by right). reflexivity.
Qed.

Lemma find_file_snoc (h : Heap) (l : list nat) (path : string) (fp f : nat) :
  find_file h l path fp = Some None ->
  find_file h (l ++ [f]) path fp = find_file h [f] path fp.
Proof.
  induction l as [|x l IH]; simpl; [reflexivity|].
  destruct (files h !! x) as [e|]; simpl; [|discriminate].
  destruct (String.eqb (Path e) path); [|exact IH].
  destruct (if decide (File_Fingerprint e = Some fp) then Some true else _) as [[|]|];
    simpl; [discriminate | exact IH | discriminate].
Qed.

Lemma stored_fingerprint_cached (w : World) (fp : nat) :
  Inv w -> fp ∈ Fingerprints (store w) ->
  exists f, fps (heap w) !! fp = Some f /\ IsCached (fp_cache f) = true.
Proof.
  intros ((F1 & _) & _) Hin. apply list_elem_of_lookup in Hin as [i Hi].
  destruct (F1 i fp Hi) as (f & Hf & Hc). exists f. split; [done|].
  unfold IsCached. by rewrite Hc.
Qed.

Lemma stored_file_allocated (w : World) (p : nat) :
  Inv w -> p ∈ Files (store w) -> is_Some (files (heap w) !! p).
Proof.
  intros (_ & (L1 & _) & _) Hin. apply list_elem_of_lookup in Hin as [i Hi].
  destruct (L1 i p Hi) as (f & q & Hf & _). eauto.
Qed.

(** A new file record for a stored fingerprint: [PutFile] does not panic,
    touches neither the fingerprints nor the stat cache, and the file it
    returns is the one its scan finds from then on. *)
Lemma PutNewFile_spec (w : World) (name : string) (fp : nat) :
  reachable w -> fp ∈ Fingerprints (store w) ->
  exists r w', PutNewFile w name fp = Some (r, w') /\ reachable w' /\
    r ∈ Files (store w') /\
    (exists rl, files (heap w') !! r = Some rl /\ Path rl = name) /\
    Fingerprints (store w') = Fingerprints (store w) /\
    statCache (store w') = statCache (store w) /\
    find_file (heap w') (Files (store w')) name fp = Some (Some r).
Proof.
  intros Hr Hfp. unfold PutNewFile.
  set (f := fresh (dom (files (heap w)))).
  set (fobj := mkFile name (Some fp) noCacheID).
  set (wf := with_files (<[f := fobj]> (files (heap w))) w).
  assert (reachable wf) as Hrf by (apply reach_new_File; [done | apply fresh_file | done]).
  pose proof (reachable_Inv _ Hrf) as HIf.
  destruct (stored_fingerprint_cached wf fp HIf Hfp) as (fpo & Hfpo & Hfpc).
  assert (f ∉ Files (store w)) as Hnew.
  { intros Hin. destruct (stored_file_allocated w f (reachable_Inv _ Hr) Hin) as [x Hx].
    pose proof (fresh_file w) as Hnone. fold f in Hnone. congruence. }
  destruct (PutFile wf (Some f)) as [[r w']|] eqn:Hput.
  2:{ exfalso. destruct (PutFile_total wf f fp fobj HIf) as [x Hx];
        [subst wf; simpl; by rewrite lookup_insert_eq | done | eauto | congruence]. }
  exists r, w'. split; [reflexivity|].
  split; [by eapply reach_PutFile|].
  destruct (PutFile_Inv _ _ _ _ HIf Hput) as [HI' Hin]. split; [exact Hin|].
  split.
  { destruct (PutFile_path wf w' f r fobj Hput) as (rl & Hrl & Hp);
      [subst wf; simpl; by rewrite lookup_insert_eq|]. eauto. }
  unfold PutFile in Hput. simpl in Hput. rewrite lookup_insert_eq in Hput. simpl in Hput.
  match type of Hput with
  | context [find_file ?h ?l ?p ?q] =>
      destruct (find_file h l p q) as [[ex|]|] eqn:Hfind
  end; simpl in Hput; [| |discriminate].
  all: match type of Hfind with
       | _ = ?res => change (find_file (heap wf) (Files (store w)) name fp = res) in Hfind
       end.
  - injection Hput as <- <-. by repeat split.
  - rewrite (PutFingerprint_cached wf fp fpo Hfpo Hfpc) in Hput. simpl in Hput.
    injection Hput as <- <-. simpl. split; [done|]. split; [done|].
    rewrite find_file_snoc.
    + simpl. rewrite lookup_insert_eq. simpl. rewrite String.eqb_refl.
      by rewrite decide_True.
    + rewrite <- Hfind. apply find_file_ext; [reflexivity|]. intros p Hp. simpl.
      rewrite lookup_insert_ne; [reflexivity | intros ->; contradiction].
Qed.

Lemma PutNewFile_again (w : World) (name : string) (fp r : nat) :
  reachable w -> find_file (heap w) (Files (store w)) name fp = Some (Some r) ->
  exists w', PutNewFile w name fp = Some (r, w') /\ store w' = store w.
Proof.
  intros Hr Hfind. unfold PutNewFile.
  set (f := fresh (dom (files (heap w)))).
  exists (with_files (<[f := mkFile name (Some fp) noCacheID]> (files (heap w))) w).
  split; [|reflexivity].
  unfold PutFile. simpl. rewrite lookup_insert_eq. simpl.
  rewrite (find_file_ext (heap w)), Hfind; [reflexivity | reflexivity |].
  intros p Hp. simpl. rewrite lookup_insert_ne; [reflexivity|]. intros <-.
  destruct (stored_file_allocated w f (reachable_Inv _ Hr) Hp) as [x Hx].
  pose proof (fresh_file w) as Hnone. fold f in Hnone. congruence.
Qed.

(** X24.  [IdentifyFileWithStat] on a store reached by put operations,
    for a file that can be opened or whose stat record is cached: it does
    not panic, whether or not reading fails, and returns a stored file with
    the given name; the stat record is cached from then on, so identifying
    the same name with the same stat record again returns the same file
    without opening it (even if it can no longer be opened) and leaves the
    store as it is. *)
Theorem IdentifyFileWithStat_rescan (pr : Primitives) (w : World) (name : string)
    (stat : FileInfo) (content : option Reader) :
  reachable w -> is_Some (GetStatFingerprint (store w) stat) \/ is_Some content ->
  exists r w', IdentifyFileWithStat pr w name stat content = Some (r, w') /\
    reachable w' /\ r ∈ Files (store w') /\
    (exists rl, files (heap w') !! r = Some rl /\ Path rl = name) /\
    is_Some (GetStatFingerprint (store w') stat) /\
    forall content', exists w'',
      IdentifyFileWithStat pr w' name stat content' = Some (r, w'') /\ store w'' = store w'.
Proof.
  intros Hr Hopen.
  assert (forall w2 fp, reachable w2 -> fp ∈ Fingerprints (store w2) ->
            GetStatFingerprint (store w2) stat = Some fp ->
            exists r w', PutNewFile w2 name fp = Some (r, w') /\
              reachable w' /\ r ∈ Files (store w') /\
              (exists rl, files (heap w') !! r = Some rl /\ Path rl = name) /\
              is_Some (GetStatFingerprint (store w') stat) /\
              forall content', exists w'',
                IdentifyFileWithStat pr w' name stat content' = Some (r, w'') /\
                store w'' = store w') as Htail.
  { intros w2 fp Hr2 Hfp Hstat.
    destruct (PutNewFile_spec w2 name fp Hr2 Hfp)
      as (r & w' & Hput & Hr' & Hin & Hpath & HF & HS & Hfind).
    exists r, w'. split; [exact Hput|]. split; [exact Hr'|]. split; [exact Hin|].
    split; [exact Hpath|].
    assert (GetStatFingerprint (store w') stat = Some fp) as Hstat'
      by (unfold GetStatFingerprint in *; by rewrite HS).
    split; [by rewrite Hstat'|].
    intros content'. unfold IdentifyFileWithStat. rewrite Hstat'.
    destruct (stored_fingerprint_cached w' fp (reachable_Inv _ Hr')) as (fo & Hfo & Hfc);
      [by rewrite HF|].
    rewrite (PutFingerprint_cached w' fp fo Hfo Hfc). simpl.
    by apply PutNewFile_again. }
  unfold IdentifyFileWithStat at 1.
  destruct (GetStatFingerprint (store w) stat) as [cfp|] eqn:Hstat.
  - pose proof (reachable_Inv _ Hr) as HI.
    assert (cfp ∈ Fingerprints (store w)) as Hin.
    { destruct HI as (_ & _ & _ & _ & Hs). by eapply Hs. }
    destruct (stored_fingerprint_cached w cfp HI Hin) as (fo & Hfo & Hfc).
    rewrite (PutFingerprint_cached w cfp fo Hfo Hfc). simpl.
    by apply Htail.
  - destruct Hopen as [[x Hx]|[data ->]]; [discriminate|]. simpl.
    destruct (put_new_fingerprint pr w data (fi_Size stat) Hr) as (fp & w1 & Hput & Hr1 & Hin).
    simpl in Hput. rewrite Hput. simpl.
    apply Htail.
    + by apply reach_PutStatFingerprint.
    + exact Hin.
    + unfold GetStatFingerprint. simpl. by rewrite lookup_insert_eq.
Qed.

Lemma IdentifyFileWithStat_rescan_witness :
  exists r w',
    IdentifyFileWithStat sample_primitives world2 "c.txt" (mkFileInfo 2 7 99)
      (Some (mkReader (T_other "*os.File") [1; 2] None)) = Some (r, w') /\
    reachable w' /\ r ∈ Files (store w') /\
    (exists rl, files (heap w') !! r = Some rl /\ Path rl = "c.txt"%string) /\
    is_Some (GetStatFingerprint (store w') (mkFileInfo 2 7 99)) /\
    forall content', exists w'',
      IdentifyFileWithStat sample_primitives w' "c.txt" (mkFileInfo 2 7 99) content'
        = Some (r, w'') /\ store w'' = store w'.
Proof.
  apply (IdentifyFileWithStat_rescan sample_primitives world2 "c.txt" (mkFileInfo 2 7 99)
           (Some (mkReader (T_other "*os.File") [1; 2] None))).
  - exact reachable_world2.
  - right. eauto.
Defined.

(** ** The table of archive scanners *)

Lemma list_of_substring (s : string) (n m : nat) :
  list_ascii_of_string (substring n m s) = take m (drop n (list_ascii_of_string s)).
Proof.
  revert n m. induction s as [|c s IH]; intros n m.
  - destruct n, m; reflexivity.
  - destruct n as [|n].
    + destruct m as [|m]; simpl; [reflexivity|]. f_equal. apply (IH 0%nat).
    + simpl. apply IH.
Qed.

Lemma list_of_string_length (s : string) :
  length (list_ascii_of_string s) = String.length s.
Proof. induction s as [|c s IH]; simpl; [reflexivity | by rewrite IH]. Qed.

Lemma list_of_string_inj (s t : string) :
  list_ascii_of_string s = list_ascii_of_string t -> s = t.
Proof.
  intros H. rewrite <- (string_of_list_ascii_of_string s), H.
  apply string_of_list_ascii_of_string.
Qed.

(** [strings.HasSuffix] decides the suffix relation on the characters. *)
Lemma HasSuffix_suffix (s k : string) :
  HasSuffix s k = true <-> list_ascii_of_string k `suffix_of` list_ascii_of_string s.
Proof.
  unfold HasSuffix. rewrite andb_true_iff, Nat.leb_le, String.eqb_eq. split.
  - intros [Hle Hsub]. apply (f_equal list_ascii_of_string) in Hsub.
    rewrite list_of_substring in Hsub. rewrite <- Hsub.
    rewrite take_ge; [apply suffix_drop|].
    rewrite length_drop, list_of_string_length. lia.
  - intros [p Hp].
    assert (String.length s = (length p + String.length k)%nat) as Hlen.
    { rewrite <- !list_of_string_length, Hp, length_app. reflexivity. }
    split; [lia|]. apply list_of_string_inj. rewrite list_of_substring, Hp.
    replace (String.length s - String.length k)%nat with (length p) by lia.
    rewrite drop_app_length. apply take_ge. rewrite list_of_string_length. lia.
Qed.

Lemma suffix_of_common {A : Type} (a b l : list A) :
  a `suffix_of` l -> b `suffix_of` l -> (length b <= length a)%nat -> b `suffix_of` a.
Proof.
  intros [pa Ha] [pb Hb] Hle.
  assert (a = drop (length pa) l) as -> by (by rewrite Ha, drop_app_length).
  assert (b = drop (length pb) l) as -> by (by rewrite Hb, drop_app_length).
  rewrite !length_drop in Hle.
  assert (length l = (length pb + length (drop (length pb) l))%nat) as Hl
    by (rewrite length_drop; apply (f_equal length) in Hb; rewrite length_app in Hb; lia).
  replace (length pb) with (length pa + (length pb - length pa))%nat
    by (rewrite length_drop in Hl; apply (f_equal length) in Ha, Hb;
        rewrite length_app in Ha, Hb; lia).
  rewrite <- drop_drop. apply suffix_drop.
Qed.

(** No extension of the table is a suffix of another one. *)
Lemma archiveScannerTable_no_overlap :
  forallb (fun a => forallb (fun b => bool_decide (a = b) || negb (HasSuffix a.1 b.1))
                      archiveScannerTable) archiveScannerTable = true.
Proof. vm_compute. reflexivity. Qed.

Lemma archiveScanner_unique (name : string) (a b : string * archiveScanner) :
  a ∈ archiveScannerTable -> b ∈ archiveScannerTable ->
  HasSuffix name a.1 = true -> HasSuffix name b.1 = true -> a = b.
Proof.
  intros Ha Hb Hsa Hsb.
  pose proof archiveScannerTable_no_overlap as H.
  rewrite forallb_forall in H.
  assert (forall x y, x ∈ archiveScannerTable -> y ∈ archiveScannerTable ->
            HasSuffix x.1 y.1 = true -> x = y) as Hno.
  { intros x y Hx Hy Hs. apply list_elem_of_In in Hx, Hy.
    specialize (H x Hx). rewrite forallb_forall in H. specialize (H y Hy).
    rewrite Hs in H. simpl in H. rewrite orb_false_r in H.
    by apply bool_decide_eq_true in H. }
  apply HasSuffix_suffix in Hsa, Hsb.
  destruct (Nat.le_ge_cases (length (list_ascii_of_string b.1))
              (length (list_ascii_of_string a.1))) as [Hle|Hle].
  - apply (Hno a b Ha Hb). apply HasSuffix_suffix. by eapply suffix_of_common.
  - symmetry. apply (Hno b a Hb Ha). apply HasSuffix_suffix. by eapply suffix_of_common.
Qed.

Lemma find_unique {A : Type} (P : A -> bool) (l : list A) (x : A) :
  (forall a b, a ∈ l -> b ∈ l -> P a = true -> P b = true -> a = b) ->
  x ∈ l -> P x = true -> find P l = Some x.
Proof.
  intros Hu Hx HP. destruct (find P l) as [y|] eqn:Hf.
  - apply find_some in Hf as [Hy HPy]. apply list_elem_of_In in Hy.
    f_equal. by apply Hu.
  - apply list_elem_of_In in Hx. pose proof (find_none _ _ Hf x Hx). congruence.
Qed.

(** X25.  The scanner chosen for a name does not depend on the order in
    which the runtime ranges over the map of extensions: no extension of
    the table is a suffix of another one, so at most one extension fits a
    name; and a name has a scanner exactly when [IsScannableArchive] says
    so. *)
Theorem getArchiveScanner_order_independent (order : list (string * archiveScanner))
    (name : string) :
  order ≡ₚ archiveScannerTable ->
  getArchiveScanner order name = getArchiveScanner archiveScannerTable name /\
  (IsScannableArchive name = true <-> is_Some (getArchiveScanner order name)).
Proof.
  intros Hperm.
  assert (forall l, l ≡ₚ archiveScannerTable ->
            forall a b, a ∈ l -> b ∈ l -> HasSuffix name a.1 = true ->
                        HasSuffix name b.1 = true -> a = b) as Hu.
  { intros l Hl a b Ha Hb. rewrite Hl in Ha, Hb. by apply archiveScanner_unique. }
  assert (getArchiveScanner order name = getArchiveScanner archiveScannerTable name) as Heq.
  { unfold getArchiveScanner.
    destruct (find (fun kv => HasSuffix name kv.1) archiveScannerTable) as [x|] eqn:Hf.
    - apply find_some in Hf as [Hx HP]. apply list_elem_of_In in Hx.
      rewrite (find_unique _ order x); [reflexivity | by apply Hu | by rewrite Hperm | done].
    - destruct (find (fun kv => HasSuffix name kv.1) order) as [y|] eqn:Hg; [|reflexivity].
      apply find_some in Hg as [Hy HP]. apply list_elem_of_In in Hy. rewrite Hperm in Hy.
      apply list_elem_of_In in Hy. pose proof (find_none _ _ Hf y Hy). simpl in *. congruence. }
  split; [exact Heq|]. rewrite Heq. unfold getArchiveScanner, IsScannableArchive.
  change archiveScanners with (map fst archiveScannerTable).
  rewrite existsb_exists. split.
  - intros (k & Hk & Hs). apply in_map_iff in Hk as (kv & <- & Hkv).
    destruct (find (fun kv => HasSuffix name kv.1) archiveScannerTable) as [y|] eqn:Hf;
      [simpl; eauto|].
    pose proof (find_none _ _ Hf kv Hkv). simpl in *. congruence.
  - intros [sc Hsc].
    destruct (find (fun kv => HasSuffix name kv.1) archiveScannerTable) as [y|] eqn:Hf;
      [|discriminate].
    apply find_some in Hf as [Hy HP]. exists y.1. split; [by apply in_map | exact HP].
Qed.

Lemma getArchiveScanner_order_independent_witness :
  getArchiveScanner (reverse archiveScannerTable) "dist/app.tar.gz" =
    getArchiveScanner archiveScannerTable "dist/app.tar.gz" /\
  (IsScannableArchive "dist/app.tar.gz" = true <->
   is_Some (getArchiveScanner (reverse archiveScannerTable) "dist/app.tar.gz")).
Proof.
  apply (getArchiveScanner_order_independent (reverse archiveScannerTable) "dist/app.tar.gz").
  apply reverse_Permutation.
Defined.

(** ** Archive entries hashed as blobs, and padding *)

Lemma CalculateSums_zero_err (pr : Primitives) (data : Reader) (size : Z) :
  (CalculateSums pr zeroFingerprint data size).2 = r_err data.
Proof.
  unfold CalculateSums. fold (with_declared_size zeroFingerprint size).
  destruct (hashers_for (with_declared_size zeroFingerprint size)) eqn:Hh; [|reflexivity].
  pose proof (hashers_for_nil _ KMD5 Hh ltac:(discriminate)) as Hz.
  rewrite with_declared_size_digest in Hz. discriminate.
Qed.

(** X26.  An archive entry that is hashed as a blob: when reading it
    fails, nil is returned and nothing is remembered (no slice, index or
    cache of the store changes); when reading succeeds, on a store reached
    by put operations, the result is a stored file carrying the entry's
    name. *)
Theorem fingerprintBlobEntry_outcomes (pr : Primitives) (w : World) (name : string)
    (size : Z) (content : Reader) :
  reachable w ->
  (forall e, r_err content = Some e ->
     exists w', fingerprintBlobEntry pr w name size content = Some (None, w') /\
                store w' = store w) /\
  (r_err content = None ->
     exists r w', fingerprintBlobEntry pr w name size content = Some (Some r, w') /\
                  reachable w' /\ r ∈ Files (store w') /\
                  exists rl, files (heap w') !! r = Some rl /\ Path rl = name).
Proof.
  intros Hr. unfold fingerprintBlobEntry. rewrite CalculateSums_zero_err. split.
  - intros e ->. eexists. split; reflexivity.
  - intros ->.
    destruct (put_new_fingerprint pr w content size Hr) as (fp & w1 & Hput & Hr1 & Hin).
    simpl in Hput. rewrite Hput. simpl.
    destruct (PutNewFile_spec w1 name fp Hr1 Hin) as (r & w' & Hnew & Hr' & Hrin & Hpath & _).
    rewrite Hnew. simpl. eauto 8.
Qed.

Lemma fingerprintBlobEntry_outcomes_witness :
  (forall e, r_err (mkReader (T_other "*tar.Reader") [7; 7] None) = Some e ->
     exists w', fingerprintBlobEntry sample_primitives world2 "c.txt" 2
                  (mkReader (T_other "*tar.Reader") [7; 7] None) = Some (None, w') /\
                store w' = store world2) /\
  (r_err (mkReader (T_other "*tar.Reader") [7; 7] None) = None ->
     exists r w', fingerprintBlobEntry sample_primitives world2 "c.txt" 2
                    (mkReader (T_other "*tar.Reader") [7; 7] None) = Some (Some r, w') /\
                  reachable w' /\ r ∈ Files (store w') /\
                  exists rl, files (heap w') !! r = Some rl /\ Path rl = "c.txt"%string).
Proof.
  apply (fingerprintBlobEntry_outcomes sample_primitives world2 "c.txt" 2
           (mkReader (T_other "*tar.Reader") [7; 7] None)).
  exact reachable_world2.
Defined.

Lemma filter_length_all {A : Type} (P : A -> Prop) `{Hdec : !forall x, Decision (P x)}
    (l : list A) :
  length (filter P l) = length l <-> Forall P l.
Proof.
  induction l as [|x l IH]; simpl.
  - split; [constructor | reflexivity].
  - rewrite filter_cons. destruct (decide (P x)) as [Hx|Hx]; simpl.
    + rewrite Forall_cons. split.
      * intros Hlen. split; [done|]. apply IH. lia.
      * intros [_ Hall]. f_equal. by apply IH.
    + split.
      * intros Hlen. pose proof (length_filter P l). lia.
      * intros Hall. apply Forall_cons in Hall as [Hall _]. contradiction.
Qed.

(** X27.  [consumeRemainder] returns nil exactly when the rest of the
    reader is read without an error and holds nothing but zero bytes; a
    read error is returned as it is, and a rest read without an error that
    holds another byte than zero gives the error of the padding check. *)
Theorem consumeRemainder_nil_iff_zero_padding (rdr : Reader) :
  (consumeRemainder rdr = None <->
   r_err rdr = None /\ Forall (fun b => b = 0) (r_bytes rdr)) /\
  (forall e, r_err rdr = Some e -> consumeRemainder rdr = Some e) /\
  (r_err rdr = None -> ~ Forall (fun b => b = 0) (r_bytes rdr) ->
   consumeRemainder rdr = Some "remainder of buffer was NOT 0 padding"%string).
Proof.
  unfold consumeRemainder. destruct (r_err rdr) as [e|].
  - split; [split; [discriminate | intros [H _]; discriminate]|].
    split; [by intros e' [= <-] | discriminate].
  - split; [|split; [discriminate|]].
    + destruct (Nat.eqb_spec (length (r_bytes rdr)) 0) as [Hz|Hz]; simpl.
      * split; [|done]. intros _. split; [done|].
        apply length_zero_iff_nil in Hz. rewrite Hz. constructor.
      * destruct (Nat.eqb_spec (length (filter (fun b : Z => b = 0%Z) (r_bytes rdr)))
                    (length (r_bytes rdr))) as [Hc|Hc]; simpl.
        -- split; [|done]. intros _. split; [done|].
           exact (proj1 (filter_length_all _ _) Hc).
        -- split; [discriminate|]. intros [_ Hall].
           destruct (Hc (proj2 (filter_length_all _ _) Hall)).
    + intros _ Hnot.
      destruct (Nat.eqb_spec (length (r_bytes rdr)) 0) as [Hz|Hz]; simpl.
      * apply length_zero_iff_nil in Hz. rewrite Hz in Hnot. destruct Hnot. constructor.
      * destruct (Nat.eqb_spec (length (filter (fun b : Z => b = 0%Z) (r_bytes rdr)))
                    (length (r_bytes rdr))) as [Hc|Hc]; simpl; [|reflexivity].
        destruct Hnot. exact (proj1 (filter_length_all _ _) Hc).
Qed.

(** Zero padding, a rest that holds a one, and a reader that fails. *)
Lemma consumeRemainder_nil_iff_zero_padding_witness :
  consumeRemainder (mkReader (T_other "*tar.Reader") [0; 0; 0] None) = None /\
  consumeRemainder (mkReader (T_other "*tar.Reader") [0; 1] None) =
    Some "remainder of buffer was NOT 0 padding"%string /\
  consumeRemainder (mkReader (T_other "*tar.Reader") [0; 1] (Some "unexpected EOF"%string)) =
    Some "unexpected EOF"%string.
Proof.
  split; [|split].
  - apply (proj1 (consumeRemainder_nil_iff_zero_padding
                    (mkReader (T_other "*tar.Reader") [0; 0; 0] None))).
    split; [reflexivity | by repeat constructor].
  - apply (proj2 (proj2 (consumeRemainder_nil_iff_zero_padding
                           (mkReader (T_other "*tar.Reader") [0; 1] None)))); [reflexivity|].
    simpl. intros H. apply Forall_cons in H as [_ H]. apply Forall_cons in H as [H _].
    discriminate.
  - apply (proj1 (proj2 (consumeRemainder_nil_iff_zero_padding
                           (mkReader (T_other "*tar.Reader") [0; 1]
                              (Some "unexpected EOF"%string))))).
    reflexivity.
Defined.

(** ** Archives found through their entries *)

Lemma files_with_elem (h : gmap nat File) (l ms : list nat) (fp p : nat) :
  files_with h l fp = Some ms ->
  p ∈ ms <-> p ∈ l /\ exists f, h !! p = Some f /\ File_Fingerprint f = Some fp.
Proof.
  revert ms. induction l as [|x l IH]; intros ms H; simpl in H.
  - injection H as <-. split; [intros Hp; by apply elem_of_nil in Hp|].
    intros [Hp _]. by apply elem_of_nil in Hp.
  - destruct (h !! x) as [f|] eqn:Hx; simpl in H; [|discriminate].
    destruct (files_with h l fp) as [ms'|]; simpl in H; [|discriminate].
    injection H as <-. specialize (IH ms' eq_refl).
    destruct (decide (File_Fingerprint f = Some fp)) as [Hf|Hf].
    + rewrite !elem_of_cons, IH. split.
      * intros [->|[Hp Hex]]; [split; [by left | eauto] | split; [by right | done]].
      * intros [[->|Hp] Hex]; [by left | right; by split].
    + rewrite elem_of_cons, IH. split.
      * intros [Hp Hex]. split; [by right | done].
      * intros [[->|Hp] Hex]; [|by split].
        destruct Hex as (f' & Hf' & Hfp). rewrite Hx in Hf'. injection Hf' as <-. contradiction.
Qed.

Lemma files_with_total (h : gmap nat File) (l : list nat) (fp : nat) :
  Forall (fun x => is_Some (h !! x)) l -> exists ms, files_with h l fp = Some ms.
Proof.
  induction 1 as [|x l [f Hf] _ [ms IH]]; simpl; [eauto|].
  rewrite Hf, IH. simpl. eauto.
Qed.

Lemma archives_listing_elem (h : gmap nat ArchiveFile) (l ds : list nat) (file a : nat) :
  archives_listing h l file = Some ds ->
  a ∈ ds <-> a ∈ l /\ exists ar, h !! a = Some ar /\ Some file ∈ Entries ar.
Proof.
  revert ds. induction l as [|x l IH]; intros ds H; simpl in H.
  - injection H as <-. split; [intros Hp; by apply elem_of_nil in Hp|].
    intros [Hp _]. by apply elem_of_nil in Hp.
  - destruct (h !! x) as [ar|] eqn:Hx; simpl in H; [|discriminate].
    destruct (archives_listing h l file) as [rest|]; simpl in H; [|discriminate].
    injection H as <-. specialize (IH rest eq_refl).
    rewrite elem_of_app, IH, elem_of_cons, list_elem_of_fmap. split.
    + intros [(e & -> & He)|[Ha Hex]].
      * apply list_elem_of_filter in He as [-> He]. split; [by left | eauto].
      * split; [by right | done].
    + intros [[->|Ha] (ar' & Har & Hin)].
      * rewrite Hx in Har. injection Har as <-. left. exists (Some file).
        split; [done|]. by apply list_elem_of_filter.
      * right. split; [done | eauto].
Qed.

Lemma archives_listing_total (h : gmap nat ArchiveFile) (l : list nat) (file : nat) :
  Forall (fun x => is_Some (h !! x)) l -> exists ds, archives_listing h l file = Some ds.
Proof.
  induction 1 as [|x l [ar Har] _ [ds IH]]; simpl; [eauto|].
  rewrite Har, IH. simpl. eauto.
Qed.

Lemma direct_archives_elem (h : gmap nat ArchiveFile) (l fs ds : list nat) (a : nat) :
  direct_archives h l fs = Some ds ->
  a ∈ ds <-> exists file, file ∈ fs /\ a ∈ l /\
                          exists ar, h !! a = Some ar /\ Some file ∈ Entries ar.
Proof.
  revert ds. induction fs as [|file fs IH]; intros ds H; simpl in H.
  - injection H as <-. split; [intros Hp; by apply elem_of_nil in Hp|].
    intros (file & Hf & _). by apply elem_of_nil in Hf.
  - destruct (archives_listing h l file) as [d1|] eqn:H1; simpl in H; [|discriminate].
    destruct (direct_archives h l fs) as [rest|]; simpl in H; [|discriminate].
    injection H as <-. specialize (IH rest eq_refl).
    rewrite elem_of_app, IH, (archives_listing_elem _ _ _ _ _ H1). split.
    + intros [Hd|(file' & Hf & Hrest)].
      * exists file. split; [by left | done].
      * exists file'. split; [by right | done].
    + intros (file' & Hf & Hrest). apply elem_of_cons in Hf as [->|Hf].
      * by left.
      * right. eauto.
Qed.

Lemma direct_archives_total (h : gmap nat ArchiveFile) (l fs : list nat) :
  Forall (fun x => is_Some (h !! x)) l -> exists ds, direct_archives h l fs = Some ds.
Proof.
  intros Hl. induction fs as [|file fs [ds IH]]; simpl; [eauto|].
  destruct (archives_listing_total h l file Hl) as [d1 H1]. rewrite H1, IH. simpl. eauto.
Qed.

(** X28.  An archive is found through its entries, and only through
    them: on a store reached by put operations, when the git-sha index leads
    from the given fingerprint to the stored fingerprint [fp'], the archives
    [FindArchiveFilesContainingFingerprint] returns are exactly the stored
    archives with an entry whose fingerprint is [fp'] (not those that hold
    it deeper, nor the archive whose own file has it). *)
Theorem FindArchiveFilesContainingFingerprint_direct (w : World) (fp fp' : nat)
    (f : Fingerprint) :
  reachable w -> fps (heap w) !! fp = Some f ->
  GetFingerprintByGitSHA (store w) (GitSHA f) = Some (Some fp') ->
  exists ds, FindArchiveFilesContainingFingerprint w fp = Some (Some ds) /\
    forall a, a ∈ ds <->
      a ∈ ArchiveFiles (store w) /\
      exists ar e el, archives (heap w) !! a = Some ar /\ Some e ∈ Entries ar /\
                      files (heap w) !! e = Some el /\ File_Fingerprint el = Some fp'.
Proof.
  intros Hr Hf Hg. pose proof (reachable_Inv _ Hr) as HI.
  pose proof HI as (_ & (L1 & _) & A1 & _).
  assert (Forall (fun x => is_Some (files (heap w) !! x)) (Files (store w))) as HalF.
  { apply Forall_lookup. intros i p Hi. destruct (L1 i p Hi) as (x & q & Hx & _). eauto. }
  assert (Forall (fun x => is_Some (archives (heap w) !! x)) (ArchiveFiles (store w))) as HalA.
  { apply Forall_lookup. intros i p Hi. destruct (A1 i p Hi) as (x & q & Hx & _). eauto. }
  destruct (files_with_total (files (heap w)) (Files (store w)) fp' HalF) as [ms Hms].
  destruct (direct_archives_total (archives (heap w)) (ArchiveFiles (store w)) ms HalA)
    as [ds Hds].
  exists ds. split.
  { unfold FindArchiveFilesContainingFingerprint, FindFilesWithFingerprint.
    rewrite Hf. simpl. rewrite Hg. simpl. rewrite Hms. simpl. by rewrite Hds. }
  intros a. rewrite (direct_archives_elem _ _ _ _ _ Hds). split.
  - intros (file & Hfile & Ha & ar & Har & Hin).
    apply (files_with_elem _ _ _ _ _ Hms) in Hfile as [_ (el & Hel & Hfp)].
    split; [exact Ha|]. exists ar, file, el. by repeat split.
  - intros (Ha & ar & e & el & Har & Hin & Hel & Hfp).
    exists e. split; [|split; [exact Ha | eauto]].
    apply (files_with_elem _ _ _ _ _ Hms). split; [|eauto].
    apply list_elem_of_lookup in Ha as [i Hi].
    destruct (A1 i a Hi) as (ar' & q & Har' & _ & _ & _ & Hent).
    rewrite Har in Har'. injection Har' as <-.
    unfold interned_files in Hent. rewrite Forall_forall in Hent.
    destruct (Hent (Some e) Hin) as (r & [= <-] & Hr'). exact Hr'.
Qed.

Lemma FindArchiveFilesContainingFingerprint_direct_witness :
  exists ds, FindArchiveFilesContainingFingerprint world3 1 = Some (Some ds) /\
    forall a, a ∈ ds <->
      a ∈ ArchiveFiles (store world3) /\
      exists ar e el, archives (heap world3) !! a = Some ar /\ Some e ∈ Entries ar /\
                      files (heap world3) !! e = Some el /\ File_Fingerprint el = Some 1%nat.
Proof.
  apply (FindArchiveFilesContainingFingerprint_direct world3 1 1
           (fp_SetCacheID (partial_fp other_git other_md5 no_sha256 5) 1)).
  - exact reachable_world3.
  - vm_compute. reflexivity.
  - vm_compute. reflexivity.
Defined.

(** ** [Fingerprint.String] and the fast path of the git scan *)

Lemma String_piece_in (k : Kind) (f : Fingerprint) (s : string) :
  s ∈ String_piece k f -> s ∈ String_pieces f.
Proof. unfold String_pieces. destruct k; set_solver. Qed.

(** X29.  What [Fingerprint.String] prints and what the matcher grammar
    reads: every populated digest gives one piece [name:hex].  When the name
    is one the grammar knows (the git-sha and the four sha digests), the
    piece is a pattern [NewDigestMatcher] accepts and the matcher built from
    it matches the fingerprint it was printed from; the other pieces (md5
    and the three highway digests) are rejected. *)
Theorem String_pieces_as_patterns (f : Fingerprint) (k : Kind) :
  IsZero (digest_of k f) = false -> is_bytes (digest_of k f) ->
  let piece := (String_name k ++ ":" ++ EncodeToString (digest_of k f))%string in
  piece ∈ String_pieces f /\
  if existsb (String.eqb (String_name k)) matcherTypes
  then exists m, NewDigestMatcher piece = Some m /\ FingerprintMatcher_Match m f = true
  else NewDigestMatcher piece = None.
Proof.
  intros Hz Hb piece. split.
  { apply (String_piece_in k). unfold String_piece. rewrite Hz. by apply list_elem_of_singleton. }
  assert (digest_of k f <> []) as Hne by (intros E; rewrite E in Hz; discriminate).
  assert (forall algo, algo ∈ matcherTypes -> GetDigest f algo = Some (digest_of k f) ->
            algo <> "*"%string ->
            exists m, NewDigestMatcher (algo ++ ":" ++ EncodeToString (digest_of k f)) = Some m /\
                      FingerprintMatcher_Match m f = true) as Hacc.
  { intros algo Halgo Hget Hstar.
    eexists. split; [by apply NewDigestMatcher_hex|].
    unfold FingerprintMatcher_Match. cbn [T].
    destruct (String.eqb_spec algo "*"); [contradiction|].
    assert (algo <> ""%string) as Hemp
      by (intros ->; by apply matcherTypes_existsb in Halgo).
    destruct (String.eqb_spec algo ""); [contradiction|]. simpl. rewrite Hget.
    unfold DigestMatcher_Match. cbn [B default from_option id].
    rewrite Nat.ltb_irrefl. by apply bytesHasPrefix_prefix. }
  assert (forall hex, NewDigestMatcher ("md5" ++ ":" ++ hex) = None /\
                      NewDigestMatcher ("hwy64" ++ ":" ++ hex) = None /\
                      NewDigestMatcher ("hwy128" ++ ":" ++ hex) = None /\
                      NewDigestMatcher ("hwy256" ++ ":" ++ hex) = None) as Hrej
    by (intros hex; repeat split; reflexivity).
  unfold piece.
  destruct k; cbn [String_name];
    match goal with
    | |- context [existsb ?p ?l] =>
        let b := eval vm_compute in (existsb p l) in
        change (existsb p l) with b; cbv iota
    end;
    first [apply Hrej | apply Hacc; [apply matcherTypes_existsb | |]; done].
Qed.

Lemma String_pieces_as_patterns_witness :
  let f := partial_fp sample_git sample_md5 sample_sha256 3 in
  (exists m, NewDigestMatcher ("sha256" ++ ":" ++ EncodeToString sample_sha256) = Some m /\
             FingerprintMatcher_Match m f = true) /\
  NewDigestMatcher ("md5" ++ ":" ++ EncodeToString sample_md5) = None /\
  Fingerprint_String f =
    ("git:1111111111111111111111111111111111111111 md5:abababababababababababababababab "
     ++ "sha256:9f86d081884c7d659a2feaa0c55ad015a3bf4f1b2b0b822cd15d6c15b0f00a08")%string.
Proof.
  split; [|split].
  - apply (String_pieces_as_patterns (partial_fp sample_git sample_md5 sample_sha256 3) KSHA256).
    + reflexivity.
    + unfold is_bytes. simpl. unfold sample_sha256. repeat (constructor; [lia|]). constructor.
  - apply (String_pieces_as_patterns (partial_fp sample_git sample_md5 sample_sha256 3) KMD5).
    + reflexivity.
    + unfold is_bytes. simpl. unfold sample_md5. simpl. repeat (constructor; [lia|]). constructor.
  - vm_compute. reflexivity.
Defined.

Lemma get_file_total (h : Heap) (l : list nat) (path : string) (g : digest) :
  Forall (fun ex => exists x p, files h !! ex = Some x /\ File_Fingerprint x = Some p /\
                                is_Some (fps h !! p)) l ->
  exists r, get_file h l path g = Some r.
Proof.
  induction 1 as [|y l (yl & p & Hy & Hp & [pf Hpf]) _ [r IH]]; simpl; [eauto|].
  rewrite Hy. simpl. destruct (String.eqb (Path yl) path); [|eauto].
  rewrite Hp. simpl. rewrite Hpf. simpl. destruct (digest_eqb (GitSHA pf) g); eauto.
Qed.

Lemma get_file_Some (h : Heap) (l : list nat) (path : string) (g : digest) (x : nat) :
  get_file h l path g = Some (Some x) ->
  x ∈ l /\ exists xl, files h !! x = Some xl /\ Path xl = path.
Proof.
  induction l as [|y l IH]; simpl; [discriminate|].
  destruct (files h !! y) as [yl|] eqn:Hy; simpl; [|discriminate].
  assert (get_file h l path g = Some (Some x) ->
          x ∈ y :: l /\ exists xl, files h !! x = Some xl /\ Path xl = path) as Hrest.
  { intros H. destruct (IH H) as [Hin Hex]. split; [by right | exact Hex]. }
  destruct (String.eqb_spec (Path yl) path) as [Hp|Hp]; [|exact Hrest].
  destruct (File_Fingerprint yl) as [p|]; simpl; [|discriminate].
  destruct (fps h !! p) as [pf|]; simpl; [|discriminate].
  destruct (digest_eqb (GitSHA pf) g); [|exact Hrest].
  intros [= <-]. split; [left | eauto].
Qed.

(** X30.  The fast path of the git scan: on a store reached by put
    operations [FileFromExistingBlob] does not panic and never adds a
    fingerprint; it returns nil exactly when the git-sha index does not hold
    the blob id, and otherwise a stored file with the given name. *)
Theorem FileFromExistingBlob_fast_path (w : World) (name : string) (blobID : digest) :
  reachable w ->
  exists res w', FileFromExistingBlob w name blobID = Some (res, w') /\
    reachable w' /\ Fingerprints (store w') = Fingerprints (store w) /\
    (res = None <-> gitSHAIndex (store w) !! blobID = None) /\
    (forall r, res = Some r ->
       r ∈ Files (store w') /\ exists rl, files (heap w') !! r = Some rl /\ Path rl = name).
Proof.
  intros Hr. pose proof (reachable_Inv _ Hr) as HI. pose proof HI as ((_ & _ & F3) & _).
  unfold FileFromExistingBlob.
  destruct (gitSHAIndex (store w) !! blobID) as [i|] eqn:Hidx.
  - destruct (F3 blobID i Hidx) as [Hlt Hb].
    apply lookup_lt_is_Some in Hlt as [efp Hefp].
    rewrite (GetFingerprintByGitSHA_indexed _ _ _ _ Hb Hidx Hefp). simpl.
    destruct (get_file_total (heap w) (Files (store w)) name blobID
                (stored_files_allocated w HI)) as [ex Hex].
    unfold GetFileByNameAndGitSHA. rewrite Hex. simpl. destruct ex as [ex|].
    + exists (Some ex), w. split; [reflexivity|]. split; [exact Hr|]. split; [reflexivity|].
      split; [split; discriminate|]. intros r [= <-]. by eapply get_file_Some.
    + destruct (PutNewFile_spec w name efp Hr) as (r & w' & Hnew & Hr' & Hin & Hpath & HF & _).
      { by eapply list_elem_of_lookup_2. }
      rewrite Hnew. simpl. exists (Some r), w'. split; [reflexivity|].
      split; [exact Hr'|]. split; [exact HF|]. split; [split; discriminate|].
      intros r' [= <-]. by split.
  - rewrite GetFingerprintByGitSHA_unindexed by done. simpl.
    exists None, w. split; [reflexivity|]. split; [exact Hr|]. split; [reflexivity|].
    split; [done|]. discriminate.
Qed.

Lemma FileFromExistingBlob_fast_path_witness :
  exists res w', FileFromExistingBlob world3 "README" sample_git = Some (res, w') /\
    reachable w' /\ Fingerprints (store w') = Fingerprints (store world3) /\
    (res = None <-> gitSHAIndex (store world3) !! sample_git = None) /\
    (forall r, res = Some r ->
       r ∈ Files (store w') /\
       exists rl, files (heap w') !! r = Some rl /\ Path rl = "README"%string).
Proof.
  apply (FileFromExistingBlob_fast_path world3 "README" sample_git). exact reachable_world3.
Defined.
